(** * Change-gear calculator: the gear-train engine of geartrain.js

    A shallow embedding of [src/geartrain.js] and the properties of the
    enumeration engine, the derived quantities of a gear train, the
    interference predicate and the ranking comparator.

    Number model.  Tooth counts, counters and permutation totals are
    JavaScript numbers that only ever hold integers (the front end reads
    them with [toIntegerArray]); they are [Z] here.  Spacer sizes, the
    addendum, the module, distances, ratios and forces are JavaScript
    doubles; they are exact rationals [Q] here, so rounding is not
    modelled, and a division is only meaningful for a non-zero divisor.
    A property that JavaScript never assigned ([undefined]) is [None];
    a run that ends in an exception (a property read on [undefined], or
    a recursion that never reaches its base case) is [None] as well. *)

From Stdlib Require Import ZArith QArith Qabs Qminmax List Lia Lqa Bool Arith.
From Stdlib Require Import Sorted Permutation.
Import ListNotations.

Local Open Scope Z_scope.

(** ** Small programming vocabulary *)

Definition obind {A B : Type} (m : option A) (f : A -> option B) : option B :=
  match m with
  | Some a => f a
  | None => None
  end.

Notation "x <- m ;; k" := (obind m (fun x => k))
  (at level 61, m at next level, right associativity).

(** [for (i = start; ...; i++)] run for [count] rounds. *)
Fixpoint for_loop {A : Type} (i count : nat) (body : nat -> A -> A) (a : A) : A :=
  match count with
  | O => a
  | S c => for_loop (S i) c body (body i a)
  end.

(** The same loop over an integer index, with a body that can throw. *)
Fixpoint for_loop_throw {A : Type} (i : Z) (count : nat)
    (body : Z -> A -> option A) (a : A) : option A :=
  match count with
  | O => Some a
  | S c => a' <- body i a ;; for_loop_throw (i + 1) c body a'
  end.

(** Strict comparison of two numbers, as a boolean. *)
Definition Qgt_bool (x y : Q) : bool :=
  match (x ?= y)%Q with
  | Gt => true
  | _ => false
  end.

Definition Qlt_bool (x y : Q) : bool := Qgt_bool y x.

(** [Array.prototype.splice(i, 1)] on a copy: drop the element at [i]. *)
Definition splice1 {A : Type} (i : nat) (l : list A) : list A :=
  firstn i l ++ skipn (S i) l.

(** ** Shaft *)

Record Shaft : Type := mkShaft {
  gearCount : Z;
  inputGear : Z;
  outputGear : Z;
  spacerSize : Q
}.

(** [new Shaft(inputGear, outputGear, spacerSize)] *)
Definition Shaft_new (inputGear outputGear : Z) (spacerSize : Q) : Shaft :=
  if 0 <? outputGear
  then mkShaft 2 inputGear outputGear spacerSize
  else mkShaft 1 inputGear inputGear spacerSize.

(** ** shaftsInterfere *)

Definition meshingDistance (input output : Shaft) : Q :=
  inject_Z (outputGear input + inputGear output).

Definition nonMeshingDistance (input output : Shaft) (addendum : Q) : Q :=
  let nonMeshingDistance := 0%Q in
  let nonMeshingDistance :=
    if gearCount input =? 1
    then (nonMeshingDistance + spacerSize input)%Q
    else (nonMeshingDistance + inject_Z (inputGear input))%Q in
  let nonMeshingDistance :=
    if gearCount output =? 1
    then (nonMeshingDistance + spacerSize output)%Q
    else (nonMeshingDistance + inject_Z (outputGear output))%Q in
  (nonMeshingDistance + 2 * addendum)%Q.

Definition shaftsInterfere (input output : Shaft) (addendum : Q) : bool :=
  Qgt_bool (nonMeshingDistance input output addendum) (meshingDistance input output).

(** ** GearTrain *)

Record GearTrain : Type := mkGearTrain {
  shafts : list Shaft;
  outputMultiplier : Q;
  maxForce : option Q;
  numerator : option Z;
  denominator : option Z
}.

(** [this.shafts[i]] for an index the enclosing loop keeps below
    [this.shafts.length]; the default is never read there. *)
Definition shaftAt (l : list Shaft) (i : nat) : Shaft :=
  nth i l (mkShaft 0 0 0 0%Q).

(** [this.shafts[i]] for an arbitrary integer index: [undefined] outside
    the array. *)
Definition shaftAtZ (l : list Shaft) (i : Z) : option Shaft :=
  if i <? 0 then None else nth_error l (Z.to_nat i).

(** The loop of [updateOutputMultiplier]. *)
Definition ratioLoop (l : list Shaft) : Q :=
  for_loop 1 (length l - 1)
    (fun i om =>
       (om * (inject_Z (outputGear (shaftAt l (i - 1)))
              / inject_Z (inputGear (shaftAt l i))))%Q)
    1%Q.

(** The loop of [updateMaxForce]: the state is (torque, maxForce). *)
Definition forceLoop (l : list Shaft) : Q * Q :=
  let torque := 1%Q in
  let maxForce := (torque / inject_Z (inputGear (shaftAt l 0)))%Q in
  for_loop 1 (length l - 1)
    (fun i st =>
       let '(torque, maxForce) := st in
       let torque :=
         (torque * (inject_Z (inputGear (shaftAt l i))
                    / inject_Z (outputGear (shaftAt l (i - 1)))))%Q in
       let maxForce := Qmax maxForce (torque / inject_Z (inputGear (shaftAt l i)))%Q in
       let maxForce := Qmax maxForce (torque / inject_Z (outputGear (shaftAt l i)))%Q in
       (torque, maxForce))
    (torque, maxForce).

(** The loop of [updateOutputFraction]: the state is (numerator, denominator). *)
Definition fractionLoop (l : list Shaft) : Z * Z :=
  for_loop 1 (length l - 1)
    (fun i st =>
       let '(numerator, denominator) := st in
       (numerator * outputGear (shaftAt l (i - 1)),
        denominator * inputGear (shaftAt l i)))
    (1, 1).

Definition updateMaxForce (t : GearTrain) : GearTrain :=
  mkGearTrain (shafts t) (outputMultiplier t) (Some (snd (forceLoop (shafts t))))
    (numerator t) (denominator t).

Definition updateOutputFraction (t : GearTrain) : GearTrain :=
  let '(n, d) := fractionLoop (shafts t) in
  mkGearTrain (shafts t) (inject_Z n / inject_Z d)%Q (maxForce t) (Some n) (Some d).

Definition updateOutputMultiplier (t : GearTrain) : GearTrain :=
  let t := mkGearTrain (shafts t) (ratioLoop (shafts t)) (maxForce t)
             (numerator t) (denominator t) in
  let t := updateMaxForce t in
  updateOutputFraction t.

(** [new GearTrain(shafts)]: the shafts are copied field by field, which
    on immutable records is the identity. *)
Definition GearTrain_new (l : list Shaft) : GearTrain :=
  let copy :=
    map (fun s => mkShaft (gearCount s) (inputGear s) (outputGear s) (spacerSize s)) l in
  let t := mkGearTrain copy (-1)%Q None None None in
  if (0 <? length copy)%nat then updateOutputMultiplier t else t.

(** [shaftDistance(module, firstShaft, lastShaft)] *)
Definition shaftDistance (t : GearTrain) (module : Q) (firstShaft lastShaft : Z)
    : option Q :=
  let distance := 0%Q in
  if Z.of_nat (length (shafts t)) - 2 <? firstShaft then Some 0%Q
  else
    let lastShaft := if lastShaft =? -1 then Z.of_nat (length (shafts t)) else lastShaft in
    for_loop_throw (firstShaft + 1) (Z.to_nat (lastShaft - (firstShaft + 1)))
      (fun i distance =>
         s <- shaftAtZ (shafts t) (i - 1) ;;
         let outputDiameter := (inject_Z (outputGear s) * module)%Q in
         let inputDiameter := (inject_Z (inputGear s) * module)%Q in
         Some (distance + (outputDiameter + inputDiameter) / 2)%Q)
      distance.

(** The default arguments [firstShaft = 0], [lastShaft = -1]. *)
Definition shaftDistance_default (t : GearTrain) (module : Q) : option Q :=
  shaftDistance t module 0 (-1).

(** ** compareGearTrains *)

(** No code ever assigns a property [nominator] to a train: reading it
    gives [undefined]. *)
Definition nominator (t : GearTrain) : option Q := None.

(** Product of two possibly-undefined numbers ([None] is NaN). *)
Definition jsMul (x y : option Q) : option Q :=
  a <- x ;; b <- y ;; Some (a * b)%Q.

Definition jsSub (x y : option Q) : option Q :=
  a <- x ;; b <- y ;; Some (a - b)%Q.

(** The result is a number or NaN ([None]). *)
Definition compareGearTrains (a b : GearTrain) (desiredOutputMultiplier : Q)
    : option Q :=
  let dev1 := Qabs (outputMultiplier a - desiredOutputMultiplier) in
  let dev2 := Qabs (outputMultiplier b - desiredOutputMultiplier) in
  let size1 := jsMul (nominator a) (option_map inject_Z (denominator b)) in
  let size2 := jsMul (nominator b) (option_map inject_Z (denominator a)) in
  if Qeq_bool (dev1 - dev2) 0
  then jsSub (maxForce a) (maxForce b)
  else Some (dev1 - dev2)%Q.

(** ** calculatePermutationCount *)

(** The recursion of the source, cut off after [fuel] nested calls. *)
Fixpoint calculatePermutationCount_fuel (fuel : nat) (shaftCount gearCount : Z)
    : option Z :=
  match fuel with
  | O => None
  | S fuel' =>
      let sum := 0 in
      if shaftCount =? 1 then Some gearCount
      else
        c1 <- calculatePermutationCount_fuel fuel' (shaftCount - 1) (gearCount - 1) ;;
        let sum := sum + gearCount * c1 in
        c2 <- calculatePermutationCount_fuel fuel' (shaftCount - 1) (gearCount - 2) ;;
        let sum := sum + gearCount * (gearCount - 1) * c2 in
        Some sum
  end.

(** The recursion depth is [shaftCount] when [shaftCount >= 1]; below 1
    the base case is never reached and every depth is exceeded (see
    [calculatePermutationCount_fuel_enough] and
    [calculatePermutationCount_diverges]). *)
Definition calculatePermutationCount (shaftCount gearCount : Z) : option Z :=
  calculatePermutationCount_fuel (Z.to_nat shaftCount) shaftCount gearCount.

(** ** PermutationStackFrame

    The field [shafts] of a frame is a reference to the engine's own
    [this.shafts] array: [iterate] passes [this.shafts] to the first
    frame, every later frame inherits it, and the array object is only
    replaced by [setupCalculation], which also empties the stack.  The
    code never reads a shaft through a frame, only through [this.shafts],
    so the alias carries no data of its own and the shared array lives
    in the engine record below. *)
Record PermutationStackFrame : Type := mkFrame {
  availableGears : list Z;
  currentShaft : nat;
  inputIndex : nat;
  outputIndex : nat
}.

(** ** GearTrainPermutations *)

Record GearTrainPermutations : Type := mkPermutations {
  shaftCount : nat;
  this_shafts : list (option Shaft);      (* [this.shafts], with holes *)
  changeGearSet : list Z;
  inputGearSet : list Z;
  sharedInputGearSet : bool;
  this_spacerSize : Q;
  inputAdjacentSize : Q;
  gearTrains : list GearTrain;
  desiredOutputMultiplier : Q;
  addendum : Q;
  module : Q;
  minShaftDistance : Q;
  maxShaftDistance : Q;
  foundSolutions : Z;
  skippedSolutions : Z;
  discardedSolutions : Z;
  permutationStack : list PermutationStackFrame;  (* the head is the top *)
  inputGearIndex : nat;
  permutationCount : Z
}.

(** Field updates. *)
Definition set_shafts (p : GearTrainPermutations) (v : list (option Shaft)) :=
  mkPermutations (shaftCount p) v (changeGearSet p) (inputGearSet p)
    (sharedInputGearSet p) (this_spacerSize p) (inputAdjacentSize p) (gearTrains p)
    (desiredOutputMultiplier p) (addendum p) (module p) (minShaftDistance p)
    (maxShaftDistance p) (foundSolutions p) (skippedSolutions p)
    (discardedSolutions p) (permutationStack p) (inputGearIndex p)
    (permutationCount p).

Definition set_gearTrains (p : GearTrainPermutations) (v : list GearTrain) :=
  mkPermutations (shaftCount p) (this_shafts p) (changeGearSet p) (inputGearSet p)
    (sharedInputGearSet p) (this_spacerSize p) (inputAdjacentSize p) v
    (desiredOutputMultiplier p) (addendum p) (module p) (minShaftDistance p)
    (maxShaftDistance p) (foundSolutions p) (skippedSolutions p)
    (discardedSolutions p) (permutationStack p) (inputGearIndex p)
    (permutationCount p).

Definition set_foundSolutions (p : GearTrainPermutations) (v : Z) :=
  mkPermutations (shaftCount p) (this_shafts p) (changeGearSet p) (inputGearSet p)
    (sharedInputGearSet p) (this_spacerSize p) (inputAdjacentSize p) (gearTrains p)
    (desiredOutputMultiplier p) (addendum p) (module p) (minShaftDistance p)
    (maxShaftDistance p) v (skippedSolutions p)
    (discardedSolutions p) (permutationStack p) (inputGearIndex p)
    (permutationCount p).

Definition set_skippedSolutions (p : GearTrainPermutations) (v : Z) :=
  mkPermutations (shaftCount p) (this_shafts p) (changeGearSet p) (inputGearSet p)
    (sharedInputGearSet p) (this_spacerSize p) (inputAdjacentSize p) (gearTrains p)
    (desiredOutputMultiplier p) (addendum p) (module p) (minShaftDistance p)
    (maxShaftDistance p) (foundSolutions p) v
    (discardedSolutions p) (permutationStack p) (inputGearIndex p)
    (permutationCount p).

Definition set_discardedSolutions (p : GearTrainPermutations) (v : Z) :=
  mkPermutations (shaftCount p) (this_shafts p) (changeGearSet p) (inputGearSet p)
    (sharedInputGearSet p) (this_spacerSize p) (inputAdjacentSize p) (gearTrains p)
    (desiredOutputMultiplier p) (addendum p) (module p) (minShaftDistance p)
    (maxShaftDistance p) (foundSolutions p) (skippedSolutions p)
    v (permutationStack p) (inputGearIndex p)
    (permutationCount p).

Definition set_permutationStack (p : GearTrainPermutations)
    (v : list PermutationStackFrame) :=
  mkPermutations (shaftCount p) (this_shafts p) (changeGearSet p) (inputGearSet p)
    (sharedInputGearSet p) (this_spacerSize p) (inputAdjacentSize p) (gearTrains p)
    (desiredOutputMultiplier p) (addendum p) (module p) (minShaftDistance p)
    (maxShaftDistance p) (foundSolutions p) (skippedSolutions p)
    (discardedSolutions p) v (inputGearIndex p)
    (permutationCount p).

Definition set_inputGearIndex (p : GearTrainPermutations) (v : nat) :=
  mkPermutations (shaftCount p) (this_shafts p) (changeGearSet p) (inputGearSet p)
    (sharedInputGearSet p) (this_spacerSize p) (inputAdjacentSize p) (gearTrains p)
    (desiredOutputMultiplier p) (addendum p) (module p) (minShaftDistance p)
    (maxShaftDistance p) (foundSolutions p) (skippedSolutions p)
    (discardedSolutions p) (permutationStack p) v
    (permutationCount p).

Definition set_permutationCount (p : GearTrainPermutations) (v : Z) :=
  mkPermutations (shaftCount p) (this_shafts p) (changeGearSet p) (inputGearSet p)
    (sharedInputGearSet p) (this_spacerSize p) (inputAdjacentSize p) (gearTrains p)
    (desiredOutputMultiplier p) (addendum p) (module p) (minShaftDistance p)
    (maxShaftDistance p) (foundSolutions p) (skippedSolutions p)
    (discardedSolutions p) (permutationStack p) (inputGearIndex p) v.

(** [a[i] = v] on a JavaScript array: an index past the end extends the
    array with holes. *)
Definition array_set {A : Type} (i : nat) (v : A) (l : list (option A))
    : list (option A) :=
  if (i <? length l)%nat
  then firstn i l ++ Some v :: skipn (S i) l
  else l ++ repeat None (i - length l) ++ [Some v].

(** [a[i]]: a hole or an index outside the array reads as [undefined]. *)
Definition array_get {A : Type} (i : nat) (l : list (option A)) : option A :=
  match nth_error l i with
  | Some (Some v) => Some v
  | _ => None
  end.

(** Reading the fields of every element, as the [GearTrain] constructor
    does: it throws at the first [undefined] element. *)
Fixpoint all_defined {A : Type} (l : list (option A)) : option (list A) :=
  match l with
  | [] => Some []
  | x :: l' => a <- x ;; r <- all_defined l' ;; Some (a :: r)
  end.

(** [Array.prototype.indexOf] *)
Fixpoint indexOf (x : Z) (l : list Z) : option nat :=
  match l with
  | [] => None
  | y :: l' => if y =? x then Some O else option_map S (indexOf x l')
  end.

(** The throwing loop over a natural index. *)
Fixpoint for_loop_throw_nat {A : Type} (i count : nat)
    (body : nat -> A -> option A) (a : A) : option A :=
  match count with
  | O => Some a
  | S c => a' <- body i a ;; for_loop_throw_nat (S i) c body a'
  end.

(** [constraintsViolated(shafts, currentShaft)] *)
Definition constraintsViolated (p : GearTrainPermutations)
    (shafts : list (option Shaft)) (currentShaft : nat) : option bool :=
  if (currentShaft =? 0)%nat then Some false
  else
    l <- all_defined (firstn (currentShaft + 1) shafts) ;;
    let train := GearTrain_new l in
    distance <- shaftDistance_default train (module p) ;;
    if Qgt_bool (minShaftDistance p) 0 && Qlt_bool distance (minShaftDistance p)
    then Some true
    else if Qgt_bool (maxShaftDistance p) 0 && Qgt_bool distance (maxShaftDistance p)
    then Some true
    else Some false.

(** [registerGearTrain()] *)
Definition registerGearTrain (p : GearTrainPermutations)
    : option GearTrainPermutations :=
  l <- all_defined (this_shafts p) ;;
  let newGearTrain := GearTrain_new l in
  Some (set_gearTrains p (gearTrains p ++ [newGearTrain])).

(** One round of the loop over [lastIndex] that completes the final shaft. *)
Definition finalShaftBody (availableGears : list Z) (currentShaft : nat)
    (lastIndex : nat) (p : GearTrainPermutations) : option GearTrainPermutations :=
  if (0 <? lastIndex)%nat
     && (nth (lastIndex - 1) availableGears 0 =? nth lastIndex availableGears 0)
  then Some (set_skippedSolutions p (skippedSolutions p + 1))
  else
    let p := set_shafts p
      (array_set currentShaft
         (Shaft_new (nth lastIndex availableGears 0) 0 (this_spacerSize p))
         (this_shafts p)) in
    violated <- constraintsViolated p (this_shafts p) currentShaft ;;
    if violated then Some (set_skippedSolutions p (skippedSolutions p + 1))
    else
      (* [this.shafts[currentShaft - 1]]: index -1 when [currentShaft] is 0 *)
      input <- (if (currentShaft =? 0)%nat then None
                else array_get (currentShaft - 1) (this_shafts p)) ;;
      output <- array_get currentShaft (this_shafts p) ;;
      if negb (shaftsInterfere input output (addendum p))
      then
        p <- registerGearTrain p ;;
        Some (set_foundSolutions p (foundSolutions p + 1))
      else Some (set_discardedSolutions p (discardedSolutions p + 1)).

(** [iterateShafts()]: the result is the returned flag and the new state. *)
Definition iterateShafts (p : GearTrainPermutations)
    : option (bool * GearTrainPermutations) :=
  match permutationStack p with
  | [] => Some (true, p)
  | frame :: rest =>
      let p := set_permutationStack p rest in
      let availableGears := availableGears frame in
      let currentShaft := currentShaft frame in
      let inputIndex := inputIndex frame in
      let outputIndex := outputIndex frame in
      if Z.of_nat currentShaft =? Z.of_nat (length (this_shafts p)) - 1
      then
        p <- for_loop_throw_nat 0 (length availableGears)
               (finalShaftBody availableGears currentShaft) p ;;
        Some (false, p)
      else
        let '(inputIndex, outputIndex) :=
          if (length availableGears <=? outputIndex)%nat
          then ((inputIndex + 1)%nat, O)
          else (inputIndex, outputIndex) in
        if (length availableGears <=? inputIndex)%nat then Some (false, p)
        else
          let inputGear := nth inputIndex availableGears 0 in
          let outputGear := nth outputIndex availableGears 0 in
          let remainingGears := availableGears in
          let remainingGears := splice1 inputIndex remainingGears in
          let '(outputGear, remainingGears) :=
            if (inputIndex =? outputIndex)%nat then (0, remainingGears)
            else if (outputIndex <? inputIndex)%nat
            then (outputGear, splice1 outputIndex remainingGears)
            else (outputGear, splice1 (outputIndex - 1) remainingGears) in
          let p := set_shafts p
            (array_set currentShaft
               (Shaft_new inputGear outputGear (this_spacerSize p))
               (this_shafts p)) in
          let frame :=
            mkFrame availableGears currentShaft inputIndex (outputIndex + 1) in
          let p := set_permutationStack p (frame :: permutationStack p) in
          if (0 <? outputIndex)%nat && (0 <? outputGear)
             && (nth (outputIndex - 1) availableGears 0
                 =? nth outputIndex availableGears 0)
          then
            c <- calculatePermutationCount
                   (Z.of_nat (length (this_shafts p)) - Z.of_nat currentShaft - 1)
                   (Z.of_nat (length remainingGears)) ;;
            Some (false, set_skippedSolutions p (skippedSolutions p + c))
          else
            let newFrame := mkFrame remainingGears (currentShaft + 1) 0 0 in
            Some (false, set_permutationStack p (newFrame :: permutationStack p))
  end.

(** [setupCalculation()] *)
Definition setupCalculation (p : GearTrainPermutations)
    : option GearTrainPermutations :=
  let p := set_shafts p (repeat None (shaftCount p)) in
  let p := set_foundSolutions p 0 in
  let p := set_skippedSolutions p 0 in
  let p := set_discardedSolutions p 0 in
  let p := set_permutationStack p [] in
  let p := set_inputGearIndex p 0 in
  if sharedInputGearSet p
  then
    c <- calculatePermutationCount (Z.of_nat (length (this_shafts p)) - 1)
           (Z.of_nat (length (changeGearSet p)) - 1) ;;
    Some (set_permutationCount p (Z.of_nat (length (changeGearSet p)) * c))
  else
    c <- calculatePermutationCount (Z.of_nat (length (this_shafts p)) - 1)
           (Z.of_nat (length (changeGearSet p))) ;;
    Some (set_permutationCount p (Z.of_nat (length (inputGearSet p)) * c)).

(** [iterate()] *)
Definition iterate (p : GearTrainPermutations)
    : option (bool * GearTrainPermutations) :=
  let firstGearSet :=
    if sharedInputGearSet p then changeGearSet p else inputGearSet p in
  if (length firstGearSet <=? inputGearIndex p)%nat
     && (length (permutationStack p) <=? 0)%nat
  then Some (true, p)
  else if (0 <? length (permutationStack p))%nat then iterateShafts p
  else if (inputGearIndex p <? length firstGearSet)%nat
  then
    let firstGear := nth (inputGearIndex p) firstGearSet 0 in
    let p := set_shafts p
      (array_set 0 (Shaft_new firstGear 0 (inputAdjacentSize p)) (this_shafts p)) in
    let availableGearSet := changeGearSet p in
    let availableGearSet :=
      if sharedInputGearSet p
      then match indexOf firstGear availableGearSet with
           | Some inputIndex => splice1 inputIndex availableGearSet
           | None => availableGearSet
           end
      else availableGearSet in
    let frame := mkFrame availableGearSet 1 0 0 in
    let p := set_permutationStack p (frame :: permutationStack p) in
    let p := set_inputGearIndex p (inputGearIndex p + 1) in
    iterateShafts p
  else Some (false, p).  (* falls off the end: [undefined], which is falsy *)

(** The driver of the front end: call [iterate] until it returns true,
    at most [n] times. *)
Fixpoint iterate_until (n : nat) (p : GearTrainPermutations)
    : option (bool * GearTrainPermutations) :=
  match n with
  | O => Some (false, p)
  | S n' =>
      r <- iterate p ;;
      if fst r then Some r else iterate_until n' (snd r)
  end.

(** [new GearTrainPermutations], then the assignments the front end makes
    before [setupCalculation]. *)
Definition GearTrainPermutations_new : GearTrainPermutations :=
  mkPermutations 0 [] [] [] false 0%Q 0%Q [] 1%Q (12 # 10)%Q 1%Q 0%Q 0%Q
    0 0 0 [] 0 0.

Definition configure (shaftCount : nat) (sharedInputGearSet : bool)
    (inputGearSet changeGearSet : list Z)
    (desiredOutputMultiplier module minShaftDistance maxShaftDistance
       inputAdjacentSize spacerSize : Q) : GearTrainPermutations :=
  let p := GearTrainPermutations_new in
  mkPermutations shaftCount (this_shafts p) changeGearSet inputGearSet
    sharedInputGearSet spacerSize inputAdjacentSize (gearTrains p)
    desiredOutputMultiplier (addendum p) module minShaftDistance maxShaftDistance
    (foundSolutions p) (skippedSolutions p) (discardedSolutions p)
    (permutationStack p) (inputGearIndex p) (permutationCount p).

(** * Vocabulary of the statements

    The quantities the properties below speak about: the spec's own
    wording of the derived quantities, the pieces of one step of the
    engine, the invariant of a run and the measures used to prove it. *)

(** ** The permutation count as a total function *)

(** The value the recursion computes for [shaftCount = k + 1]. *)
Fixpoint permCount (k : nat) (gearCount : Z) : Z :=
  match k with
  | O => gearCount
  | S k' =>
      gearCount * permCount k' (gearCount - 1)
      + gearCount * (gearCount - 1) * permCount k' (gearCount - 2)
  end.

(** ** Ranking *)

Definition deviation (t : GearTrain) (target : Q) : Q :=
  Qabs (outputMultiplier t - target).

(** The comparator puts [a] before [b]: it returns a negative number. *)
Definition ordersBefore (a b : GearTrain) (target : Q) : Prop :=
  exists r, compareGearTrains a b target = Some r /\ (r < 0)%Q.

(** Strictly smaller force, for forces that may be undefined. *)
Definition lowerForce (a b : GearTrain) : Prop :=
  exists fa fb, maxForce a = Some fa /\ maxForce b = Some fb /\ (fa < fb)%Q.

(** ** Derived quantities, in the spec's words *)

(** Half the sum of the two pitch diameters of each shaft of [l], summed
    in the order of the loop. *)
Definition pitchSum (module : Q) (l : list Shaft) : Q :=
  fold_left
    (fun distance s =>
       (distance
        + (inject_Z (outputGear s) * module + inject_Z (inputGear s) * module) / 2)%Q)
    l 0%Q.

(** The data-model invariant the divisions rely on. *)
Definition positiveTeeth (s : Shaft) : Prop := 0 < inputGear s /\ 0 < outputGear s.

(** The spec's words: the product, over consecutive shaft pairs, of the
    previous shaft's output gear over the current shaft's input gear. *)
Fixpoint ratioProduct (l : list Shaft) : Q :=
  match l with
  | [] => 1%Q
  | prev :: rest =>
      match rest with
      | [] => 1%Q
      | cur :: _ =>
          (inject_Z (outputGear prev) / inject_Z (inputGear cur) * ratioProduct rest)%Q
      end
  end.

(** The integer products: output gears of all shafts but the last, input
    gears of all shafts but the first. *)
Fixpoint numeratorProduct (l : list Shaft) : Z :=
  match l with
  | [] => 1
  | prev :: rest =>
      match rest with
      | [] => 1
      | _ :: _ => outputGear prev * numeratorProduct rest
      end
  end.

Fixpoint denominatorProduct (l : list Shaft) : Z :=
  match l with
  | [] => 1
  | _ :: rest =>
      match rest with
      | [] => 1
      | cur :: _ => inputGear cur * denominatorProduct rest
      end
  end.

(** The spec's words for [maxForce]: the torque is 1 on the first shaft
    and is multiplied by [inputGear[i] / outputGear[i-1]] at each shaft
    boundary. *)
Fixpoint torqueAt (l : list Shaft) (i : nat) : Q :=
  match i with
  | O => 1%Q
  | S j =>
      (torqueAt l j
       * (inject_Z (inputGear (shaftAt l (S j))) / inject_Z (outputGear (shaftAt l j))))%Q
  end.

(** The candidate forces of shaft [i >= 1]. *)
Definition shaftForces (l : list Shaft) (i : nat) : list Q :=
  [ (torqueAt l i / inject_Z (inputGear (shaftAt l i)))%Q;
    (torqueAt l i / inject_Z (outputGear (shaftAt l i)))%Q ].

(** All candidate forces of the shafts [0 .. k]. *)
Definition forceCandidatesUpTo (l : list Shaft) (k : nat) : list Q :=
  (torqueAt l 0 / inject_Z (inputGear (shaftAt l 0)))%Q
  :: flat_map (shaftForces l) (seq 1 k).

Definition forceCandidates (l : list Shaft) : list Q :=
  forceCandidatesUpTo l (length l - 1).

(** [m] is the maximum of the list [cs]. *)
Definition isMaximumOf (m : Q) (cs : list Q) : Prop :=
  In m cs /\ forall c, In c cs -> (c <= m)%Q.

(** ** Runs of the engine *)

(** [n] consecutive calls of [iterate]: the flags they return and the
    final state. *)
Fixpoint iterate_calls (n : nat) (p : GearTrainPermutations)
    : option (list bool * GearTrainPermutations) :=
  match n with
  | O => Some ([], p)
  | S n' =>
      r <- iterate p ;;
      r' <- iterate_calls n' (snd r) ;;
      Some (fst r :: fst r', snd r')
  end.

(** A run to completion, used to instantiate the statements below:
    two shafts, the input gear taken from the change gears 20, 20, 30. *)
Definition demoEngine : GearTrainPermutations :=
  configure 2 true [] [20; 20; 30] 1%Q 1%Q 0%Q 0%Q 0%Q 0%Q.

Definition demoFinished : GearTrainPermutations :=
  match (s <- setupCalculation demoEngine ;; iterate_until 10 s) with
  | Some (_, p) => p
  | None => demoEngine
  end.

(** ** One step of the engine *)

(** The first [k] cells of the array hold shafts. *)
Definition definedUpTo {A : Type} (k : nat) (l : list (option A)) : Prop :=
  forall j, (j < k)%nat -> exists v, array_get j l = Some v.

(** The fields the final-shaft loop writes. *)
Definition withResults (p : GearTrainPermutations) (sh : list (option Shaft))
    (g : list GearTrain) (f s d : Z) : GearTrainPermutations :=
  mkPermutations (shaftCount p) sh (changeGearSet p) (inputGearSet p)
    (sharedInputGearSet p) (this_spacerSize p) (inputAdjacentSize p) g
    (desiredOutputMultiplier p) (addendum p) (module p) (minShaftDistance p)
    (maxShaftDistance p) f s d (permutationStack p) (inputGearIndex p)
    (permutationCount p).

(** The last two shafts of the train do not interfere. *)
Definition lastPairClear (addendum : Q) (t : GearTrain) : Prop :=
  exists pre input output,
    shafts t = pre ++ [input; output]
    /\ shaftsInterfere input output addendum = false.

(** The cursor after the wrap-around test at the head of the step. *)
Definition nextCursor (g i o : nat) : nat * nat :=
  if (g <=? o)%nat then ((i + 1)%nat, O) else (i, o).

(** The output gear handed to the [Shaft] constructor. *)
Definition chosenOutputGear (avail : list Z) (i o : nat) : Z :=
  if (i =? o)%nat then 0 else nth o avail 0.

(** The pool left for the next shaft. *)
Definition remainingAfter (avail : list Z) (i o : nat) : list Z :=
  if (i =? o)%nat then splice1 i avail
  else if (o <? i)%nat then splice1 o (splice1 i avail)
  else splice1 (o - 1) (splice1 i avail).

(** The test that skips a repeated output gear. *)
Definition skipsDuplicate (avail : list Z) (i o : nat) : bool :=
  (0 <? o)%nat && (0 <? chosenOutputGear avail i o)
  && (nth (o - 1) avail 0 =? nth o avail 0).

(** ** The invariant of a run *)

(** The number of permutations a frame still stands for, with [N]
    shafts in all: the pool size on the final shaft; otherwise the pairs
    of the cursor grid not yet visited, a pair on the diagonal (one gear)
    weighing [count(N - c - 1, g - 1)] and any other pair (two gears)
    [count(N - c - 1, g - 2)]. *)
Definition frameWeight (N : nat) (f : PermutationStackFrame) : Z :=
  let g := length (availableGears f) in
  let c := currentShaft f in
  if (S c =? N)%nat then Z.of_nat g
  else
    let i := fst (nextCursor g (inputIndex f) (outputIndex f)) in
    let o := snd (nextCursor g (inputIndex f) (outputIndex f)) in
    if (g <=? i)%nat then 0
    else
      let singles :=
        Z.of_nat g - Z.of_nat i - 1 + (if (o <=? i)%nat then 1 else 0) in
      let pairs := (Z.of_nat g - Z.of_nat i) * Z.of_nat g - Z.of_nat o in
      singles * permCount (N - c - 2) (Z.of_nat g - 1)
      + (pairs - singles) * permCount (N - c - 2) (Z.of_nat g - 2).

Fixpoint stackWeight (N : nat) (st : list PermutationStackFrame) : Z :=
  match st with
  | [] => 0
  | f :: rest => frameWeight N f + stackWeight N rest
  end.

Definition firstGearSet (p : GearTrainPermutations) : list Z :=
  if sharedInputGearSet p then changeGearSet p else inputGearSet p.

(** The size of the pool the first frame of every seed starts from. *)
Definition seedPoolSize (p : GearTrainPermutations) : Z :=
  if sharedInputGearSet p
  then Z.of_nat (length (changeGearSet p)) - 1
  else Z.of_nat (length (changeGearSet p)).

Definition seedsLeft (p : GearTrainPermutations) : nat :=
  (length (firstGearSet p) - inputGearIndex p)%nat.

(** The state right after [iterate] has seeded the stack, before it calls
    [iterateShafts]. *)
Definition afterSeed (p : GearTrainPermutations) : GearTrainPermutations :=
  let firstGear := nth (inputGearIndex p) (firstGearSet p) 0 in
  let p := set_shafts p
    (array_set 0 (Shaft_new firstGear 0 (inputAdjacentSize p)) (this_shafts p)) in
  let availableGearSet := changeGearSet p in
  let availableGearSet :=
    if sharedInputGearSet p
    then match indexOf firstGear availableGearSet with
         | Some inputIndex => splice1 inputIndex availableGearSet
         | None => availableGearSet
         end
    else availableGearSet in
  let frame := mkFrame availableGearSet 1 0 0 in
  let p := set_permutationStack p (frame :: permutationStack p) in
  set_inputGearIndex p (inputGearIndex p + 1).

(** The frames of the stack sit on the shafts 1, 2, ... from the bottom
    up, none past the final shaft, each with a pool no larger than the
    change-gear set. *)
Fixpoint stackOk (N G : nat) (st : list PermutationStackFrame) : Prop :=
  match st with
  | [] => True
  | f :: rest =>
      currentShaft f = S (length rest)
      /\ (S (currentShaft f) <= N)%nat
      /\ (length (availableGears f) <= G)%nat
      /\ stackOk N G rest
  end.

Definition engineInv (p : GearTrainPermutations) : Prop :=
  length (this_shafts p) = shaftCount p
  /\ (2 <= shaftCount p)%nat
  /\ stackOk (shaftCount p) (length (changeGearSet p)) (permutationStack p)
  /\ definedUpTo (length (permutationStack p)) (this_shafts p)
  /\ Z.of_nat (length (gearTrains p)) = foundSolutions p
  /\ foundSolutions p + skippedSolutions p + discardedSolutions p
     + stackWeight (shaftCount p) (permutationStack p)
     + Z.of_nat (seedsLeft p) * permCount (shaftCount p - 2) (seedPoolSize p)
     = permutationCount p.

(** The pool of the first frame after a seed. *)
Definition seedAvail (p : GearTrainPermutations) : list Z :=
  if sharedInputGearSet p
  then match indexOf (nth (inputGearIndex p) (firstGearSet p) 0) (changeGearSet p) with
       | Some inputIndex => splice1 inputIndex (changeGearSet p)
       | None => changeGearSet p
       end
  else changeGearSet p.

(** ** The measure that ends the search *)

(** A bound on the calls a new frame with [k + 1] shafts to go can cost,
    with pools of at most [G] gears. *)
Fixpoint stepBound (G k : nat) : nat :=
  match k with
  | O => 1
  | S k' => 1 + G * G * (1 + stepBound G k')
  end.

(** The pairs of the cursor grid from the cursor on. *)
Definition pairsLeft (g i o : nat) : nat :=
  if (g <=? i)%nat then 0 else ((g - i) * g - o)%nat.

Definition framePotential (N G : nat) (f : PermutationStackFrame) : nat :=
  let g := length (availableGears f) in
  let c := currentShaft f in
  if (S c =? N)%nat then 1%nat
  else
    let i := fst (nextCursor g (inputIndex f) (outputIndex f)) in
    let o := snd (nextCursor g (inputIndex f) (outputIndex f)) in
    (1 + pairsLeft g i o * (1 + stepBound G (N - c - 2)))%nat.

Fixpoint stackPotential (N G : nat) (st : list PermutationStackFrame) : nat :=
  match st with
  | [] => O
  | f :: rest => (framePotential N G f + stackPotential N G rest)%nat
  end.

Definition enginePotential (p : GearTrainPermutations) : nat :=
  (stackPotential (shaftCount p) (length (changeGearSet p)) (permutationStack p)
   + seedsLeft p * (1 + stepBound (length (changeGearSet p)) (shaftCount p - 2)))%nat.

(** ** Results *)

(** A call of [iterate] appends to the results and changes neither the
    addendum nor the total. *)
Definition extendsResults (p p' : GearTrainPermutations) : Prop :=
  addendum p' = addendum p
  /\ permutationCount p' = permutationCount p
  /\ exists new,
       gearTrains p' = gearTrains p ++ new
       /\ Forall (lastPairClear (addendum p)) new.

(** The demonstration engine after [setupCalculation]. *)
Definition demoReady : GearTrainPermutations :=
  match setupCalculation demoEngine with
  | Some s => s
  | None => demoEngine
  end.

(** The tooth counts of a train, shaft by shaft. *)
Definition teeth (t : GearTrain) : list (Z * Z) :=
  map (fun s => (inputGear s, outputGear s)) (shafts t).

(** Three shafts, the input gear 40 from its own set, the change gears
    20, 20, 30. *)
Definition demoEngine3 : GearTrainPermutations :=
  configure 3 false [40] [20; 20; 30] 1%Q 1%Q 0%Q 0%Q 0%Q 0%Q.

Definition demoFinished3 : GearTrainPermutations :=
  match (s <- setupCalculation demoEngine3 ;; iterate_until 40 s) with
  | Some (_, p) => p
  | None => demoEngine3
  end.

(** ** Further vocabulary: distances and ranking *)

(** Two results of the spacing query, the second [k] times the first (or
    both thrown). *)
Definition scaledBy (k : Q) (d d' : option Q) : Prop :=
  match d, d' with
  | Some x, Some y => (y == k * x)%Q
  | None, None => True
  | _, _ => False
  end.

(** The two sort keys of a train with a defined force: [a] ranks
    strictly before [b]. *)
Definition rankedBefore (target : Q) (a b : GearTrain) : Prop :=
  (deviation a target < deviation b target)%Q
  \/ ((deviation a target == deviation b target)%Q /\ lowerForce a b).

Definition hasForce (t : GearTrain) : Prop := exists m, maxForce t = Some m.


(** ** finalizeCalculation

    [Array.prototype.sort] is a built-in: for a consistent comparator
    ECMAScript (2019 on) fixes its result as the stable sort, whatever
    the algorithm.  It is modelled by the stable insertion sort below; a
    comparator result that is NaN counts as zero, as the language says.
    The [console.log] lines only print and are left out. *)





(** ** Further vocabulary: counters *)

(** No counter went down from [p] to [p']. *)
Definition countersGrow (p p' : GearTrainPermutations) : Prop :=
  foundSolutions p <= foundSolutions p'
  /\ skippedSolutions p <= skippedSolutions p'
  /\ discardedSolutions p <= discardedSolutions p'.

(** The demonstration engine three calls of [iterate] into its run. *)
Definition demoAfter3 : GearTrainPermutations :=
  match iterate_calls 3 demoReady with
  | Some (_, p) => p
  | None => demoReady
  end.

(** Four shafts with only three change gears, the input gear among them. *)
Definition demoFew : GearTrainPermutations :=
  configure 4 true [] [20; 30; 40] 1%Q 1%Q 0%Q 0%Q 0%Q 0%Q.

Definition demoFewReady : GearTrainPermutations :=
  match setupCalculation demoFew with
  | Some s => s
  | None => demoFew
  end.

(** ** Further vocabulary: the shape of the results *)

(** The tooth counts of the gears a shaft holds. *)
Definition shaftGears (s : Shaft) : list Z :=
  if gearCount s =? 1 then [inputGear s] else [inputGear s; outputGear s].

Definition cellGears (cell : option Shaft) : list Z :=
  match cell with
  | Some s => shaftGears s
  | None => []
  end.

(** The first shaft whose gears come out of the change gears: shaft 0
    when the input gear is shared, shaft 1 otherwise. *)
Definition firstChangeShaft (p : GearTrainPermutations) : nat :=
  if sharedInputGearSet p then 0%nat else 1%nat.

(** The change gears on the shafts before [c]. *)
Definition committed (p : GearTrainPermutations) (c : nat)
    (sh : list (option Shaft)) : list Z :=
  flat_map cellGears (skipn (firstChangeShaft p) (firstn c sh)).

(** [gears] can be taken out of the change-gear set, each gear at most
    as often as the set holds it. *)
Definition withinPool (p : GearTrainPermutations) (gears : list Z) : Prop :=
  exists rest, Permutation (gears ++ rest) (changeGearSet p).

Definition frameConserves (p : GearTrainPermutations) (sh : list (option Shaft))
    (f : PermutationStackFrame) : Prop :=
  withinPool p (availableGears f ++ committed p (currentShaft f) sh).

(** A shaft as the constructor builds it. *)
Definition wellFormedShaft (s : Shaft) : Prop :=
  (gearCount s = 1 /\ outputGear s = inputGear s)
  \/ (gearCount s = 2 /\ 0 < outputGear s).

(** What every registered train looks like. *)
Definition trainOk (p : GearTrainPermutations) (t : GearTrain) : Prop :=
  exists l first last,
    t = GearTrain_new l
    /\ length l = shaftCount p
    /\ hd_error l = Some (Shaft_new first 0 (inputAdjacentSize p))
    /\ In first (firstGearSet p)
    /\ nth_error l (shaftCount p - 1) = Some (Shaft_new last 0 (this_spacerSize p))
    /\ In last (changeGearSet p)
    /\ Forall wellFormedShaft l
    /\ withinPool p (flat_map shaftGears (skipn (firstChangeShaft p) l)).

Definition shapeInv (p : GearTrainPermutations) : Prop :=
  engineInv p
  /\ Forall (frameConserves p (this_shafts p)) (permutationStack p)
  /\ (permutationStack p <> [] ->
      exists g,
        In g (firstGearSet p)
        /\ array_get 0 (this_shafts p) = Some (Shaft_new g 0 (inputAdjacentSize p)))
  /\ (forall j s, array_get j (this_shafts p) = Some s -> wellFormedShaft s)
  /\ Forall (trainOk p) (gearTrains p).

(** A train the final-shaft loop registers from the pool [avail]: the
    shafts before [c] as they stand, then one gear of the pool. *)
Definition finishedFrom (p : GearTrainPermutations) (avail : list Z) (c : nat)
    (t : GearTrain) : Prop :=
  exists x pre,
    In x avail
    /\ all_defined (firstn c (this_shafts p)) = Some pre
    /\ t = GearTrain_new (pre ++ [Shaft_new x 0 (this_spacerSize p)]).

(** The configuration a run never writes. *)
Definition sameConfig (p p' : GearTrainPermutations) : Prop :=
  shaftCount p' = shaftCount p
  /\ changeGearSet p' = changeGearSet p
  /\ inputGearSet p' = inputGearSet p
  /\ sharedInputGearSet p' = sharedInputGearSet p
  /\ this_spacerSize p' = this_spacerSize p
  /\ inputAdjacentSize p' = inputAdjacentSize p
  /\ desiredOutputMultiplier p' = desiredOutputMultiplier p.

(** The flags of ten calls of [iterate] on the demonstration engine, and
    its first result. *)
Definition demoFlags : list bool :=
  match iterate_calls 10 demoReady with
  | Some (flags, _) => flags
  | None => []
  end.

Definition demoTrain : GearTrain :=
  GearTrain_new [Shaft_new 20 0 0%Q; Shaft_new 20 0 0%Q].

(** The train the final-shaft loop registers in round [j]: the round is
    not skipped as a repeated tooth count, and the train is the shafts
    before [c] as they stand, then gear [j] of the pool. *)
Definition registeredAt (p : GearTrainPermutations) (avail : list Z) (c : nat)
    (j : nat) (t : GearTrain) : Prop :=
  (j = O \/ nth (j - 1) avail 0 <> nth j avail 0)
  /\ exists pre,
       all_defined (firstn c (this_shafts p)) = Some pre
       /\ t = GearTrain_new (pre ++ [Shaft_new (nth j avail 0) 0 (this_spacerSize p)]).

(** Equal tooth counts stand next to each other in the pool: between two
    places that hold the same count, every place holds it.  Every sorted
    pool is of this kind, whatever the order it is sorted by. *)
Definition equalsAdjacent (l : list Z) : Prop :=
  forall i j k : nat,
    (i <= k)%nat -> (k <= j)%nat -> (j < length l)%nat ->
    nth i l 0 = nth j l 0 -> nth k l 0 = nth j l 0.

(** Equal tooth counts are adjacent in the change gears and in every pool
    on the stack. *)
Definition poolsGrouped (p : GearTrainPermutations) : Prop :=
  equalsAdjacent (changeGearSet p)
  /\ Forall (fun f => equalsAdjacent (availableGears f)) (permutationStack p).

Definition demoAfter1 : GearTrainPermutations :=
  match iterate_calls 1 demoReady with
  | Some (_, p) => p
  | None => demoReady
  end.

Definition demoAfter2 : GearTrainPermutations :=
  match iterate demoAfter1 with
  | Some (_, p) => p
  | None => demoAfter1
  end.

(** ** Further vocabulary: trains that differ *)

Definition shaftTeeth (s : Shaft) : Z * Z := (inputGear s, outputGear s).

(** The order in which a frame visits the pairs of its cursor grid. *)
Definition pairBefore (a b : nat * nat) : Prop :=
  (fst a < fst b)%nat \/ (fst a = fst b /\ (snd a < snd b)%nat).

(** The pair up to which (not included) the branches of a frame are done
    with: its cursor for the frame on top of the stack, the pair before
    its cursor for a frame below, whose last choice is still being
    explored. *)
Definition exploredTo (top : bool) (f : PermutationStackFrame) : nat * nat :=
  (inputIndex f, if top then outputIndex f else (outputIndex f - 1)%nat).

Definition passedAt (top : bool) (f : PermutationStackFrame) (tp : Z * Z) : Prop :=
  exists i o,
    (i < length (availableGears f))%nat /\ (o < length (availableGears f))%nat
    /\ pairBefore (i, o) (exploredTo top f)
    /\ tp = (nth i (availableGears f) 0, nth o (availableGears f) 0).

(** The tooth counts [tl] are those of the shafts array before shaft [c]. *)
Definition agreesUpTo (c : nat) (sh : list (option Shaft)) (tl : list (Z * Z)) : Prop :=
  forall k, (k < c)%nat ->
  exists s, array_get k sh = Some s /\ nth_error tl k = Some (shaftTeeth s).

(** A train lies behind the search: on some shaft it holds a choice the
    search is done with, and before that shaft it is what the shafts
    array holds now. *)
Fixpoint behind (first : list Z) (idx : nat) (sh : list (option Shaft)) (top : bool)
    (st : list PermutationStackFrame) (tl : list (Z * Z)) : Prop :=
  match st with
  | [] =>
      exists j, (j + (if top then 0 else 1) < idx)%nat /\ (j < length first)%nat
                /\ nth_error tl 0 = Some (nth j first 0, nth j first 0)
  | f :: rest =>
      (agreesUpTo (currentShaft f) sh tl
       /\ exists tp, nth_error tl (currentShaft f) = Some tp /\ passedAt top f tp)
      \/ behind first idx sh false rest tl
  end.

(** The pools hold positive, pairwise different tooth counts; a frame
    for the final shaft has not moved its cursor; and the choice of a
    frame below the top, and of the seed, is what the shafts array holds. *)
Fixpoint cursorsOk (first : list Z) (idx N : nat) (sh : list (option Shaft)) (top : bool)
    (st : list PermutationStackFrame) : Prop :=
  match st with
  | [] =>
      if top then True
      else (1 <= idx <= length first)%nat
           /\ exists s, array_get 0 sh = Some s
                /\ shaftTeeth s = (nth (idx - 1) first 0, nth (idx - 1) first 0)
  | f :: rest =>
      NoDup (availableGears f)
      /\ Forall (fun x => 0 < x) (availableGears f)
      /\ (S (currentShaft f) = N -> inputIndex f = O /\ outputIndex f = O)
      /\ (if top then True
          else (inputIndex f < length (availableGears f))%nat
               /\ (1 <= outputIndex f <= length (availableGears f))%nat
               /\ exists s, array_get (currentShaft f) sh = Some s
                    /\ shaftTeeth s
                       = (nth (inputIndex f) (availableGears f) 0,
                          nth (outputIndex f - 1) (availableGears f) 0))
      /\ cursorsOk first idx N sh false rest
  end.

Definition distinctInv (p : GearTrainPermutations) : Prop :=
  engineInv p
  /\ NoDup (firstGearSet p)
  /\ NoDup (changeGearSet p)
  /\ Forall (fun x => 0 < x) (changeGearSet p)
  /\ cursorsOk (firstGearSet p) (inputGearIndex p) (shaftCount p) (this_shafts p) true
       (permutationStack p)
  /\ NoDup (map teeth (gearTrains p))
  /\ Forall (fun t => behind (firstGearSet p) (inputGearIndex p) (this_shafts p) true
                        (permutationStack p) (teeth t))
       (gearTrains p).

(** Three shafts and three different change gears, the input gear among
    them, run to completion. *)
Definition demoDistinct : GearTrainPermutations :=
  configure 3 true [] [20; 30; 40] 1%Q 1%Q 0%Q 0%Q 0%Q 0%Q.

Definition demoDistinctReady : GearTrainPermutations :=
  match setupCalculation demoDistinct with
  | Some s => s
  | None => demoDistinct
  end.

Definition demoDistinctFlags : list bool :=
  match iterate_calls 40 demoDistinctReady with
  | Some (flags, _) => flags
  | None => []
  end.

Definition demoDistinctDone : GearTrainPermutations :=
  match iterate_calls 40 demoDistinctReady with
  | Some (_, p) => p
  | None => demoDistinctReady
  end.

(** * Properties *)

(** ** Comparisons *)

Lemma Qgt_bool_true (x y : Q) : Qgt_bool x y = true <-> (y < x)%Q.
Proof.
  unfold Qgt_bool. rewrite Qgt_alt.
  destruct (x ?= y)%Q; split; intro H; congruence.
Qed.


(** ** The interference predicate *)


(** ** The permutation count *)

Lemma calculatePermutationCount_fuel_permCount (k extra : nat) (g : Z) :
  calculatePermutationCount_fuel (S k + extra) (Z.of_nat (S k)) g
  = Some (permCount k g).
Proof.
  revert g. induction k as [|k IH]; intro g.
  - reflexivity.
  - change (S (S k) + extra)%nat with (S (S k + extra)).
    cbn [calculatePermutationCount_fuel].
    replace (Z.of_nat (S (S k)) =? 1) with false by (symmetry; apply Z.eqb_neq; lia).
    replace (Z.of_nat (S (S k)) - 1) with (Z.of_nat (S k)) by lia.
    rewrite !IH. cbn [obind permCount]. f_equal.
Qed.

(** Enough fuel: from [shaftCount >= 1] the recursion returns, and more
    fuel does not change the value. *)
Lemma calculatePermutationCount_fuel_enough (fuel : nat) (s g : Z) :
  1 <= s -> (Z.to_nat s <= fuel)%nat ->
  calculatePermutationCount_fuel fuel s g = Some (permCount (Z.to_nat s - 1) g).
Proof.
  intros Hs Hf.
  remember (Z.to_nat s - 1)%nat as k eqn:Hk.
  assert (Es : s = Z.of_nat (S k)) by lia.
  assert (Ef : fuel = (S k + (fuel - S k))%nat) by lia.
  rewrite Ef, Es. apply calculatePermutationCount_fuel_permCount.
Qed.

(** Below 1 the base case is never reached: no fuel suffices. *)
Lemma calculatePermutationCount_diverges (fuel : nat) (s g : Z) :
  s < 1 -> calculatePermutationCount_fuel fuel s g = None.
Proof.
  revert s g. induction fuel as [|fuel IH]; intros s g Hs.
  - reflexivity.
  - cbn [calculatePermutationCount_fuel].
    replace (s =? 1) with false by (symmetry; apply Z.eqb_neq; lia).
    rewrite IH by lia. reflexivity.
Qed.

Lemma calculatePermutationCount_permCount (s g : Z) :
  1 <= s -> calculatePermutationCount s g = Some (permCount (Z.to_nat s - 1) g).
Proof.
  intro Hs. unfold calculatePermutationCount.
  apply calculatePermutationCount_fuel_enough; [assumption | lia].
Qed.

(** C3, as the code has it.  With one shaft left the count is the number
    of gears left (every one of them can finish the train), not 1; from
    two shafts on it is [gearCount * count(shaftCount - 1, gearCount - 1)
    + gearCount * (gearCount - 1) * count(shaftCount - 1, gearCount - 2)];
    below one shaft the recursion never reaches its base case. *)
Theorem calculatePermutationCount_recursion (shaftCount gearCount : Z) :
  (shaftCount = 1 ->
   calculatePermutationCount shaftCount gearCount = Some gearCount)
  /\ (2 <= shaftCount ->
      exists c1 c2,
        calculatePermutationCount (shaftCount - 1) (gearCount - 1) = Some c1
        /\ calculatePermutationCount (shaftCount - 1) (gearCount - 2) = Some c2
        /\ calculatePermutationCount shaftCount gearCount
           = Some (gearCount * c1 + gearCount * (gearCount - 1) * c2))
  /\ (shaftCount < 1 ->
      forall fuel, calculatePermutationCount_fuel fuel shaftCount gearCount = None).
Proof.
  split; [|split].
  - intros ->. reflexivity.
  - intro Hs.
    rewrite !calculatePermutationCount_permCount by lia.
    do 2 eexists. split; [reflexivity|]. split; [reflexivity|].
    replace (Z.to_nat shaftCount - 1)%nat
      with (S (Z.to_nat (shaftCount - 1) - 1)) by lia.
    reflexivity.
  - intros Hs fuel. apply calculatePermutationCount_diverges. exact Hs.
Qed.

Lemma calculatePermutationCount_recursion_witness :
  calculatePermutationCount 1 7 = Some 7
  /\ (exists c1 c2,
        calculatePermutationCount (3 - 1) (4 - 1) = Some c1
        /\ calculatePermutationCount (3 - 1) (4 - 2) = Some c2
        /\ calculatePermutationCount 3 4 = Some (4 * c1 + 4 * (4 - 1) * c2))
  /\ (forall fuel, calculatePermutationCount_fuel fuel 0 5 = None).
Proof.
  split; [|split].
  - apply (proj1 (calculatePermutationCount_recursion 1 7)). reflexivity.
  - apply (proj1 (proj2 (calculatePermutationCount_recursion 3 4))). lia.
  - apply (proj2 (proj2 (calculatePermutationCount_recursion 0 5))). lia.
Defined.

(** C3, as the claim words it, fails: with one shaft and three gears the
    function returns 3. *)
Lemma calculatePermutationCount_one_shaft_not_1 :
  ~ (forall gearCount : Z, calculatePermutationCount 1 gearCount = Some 1).
Proof.
  intro H. specialize (H 3). vm_compute in H. discriminate H.
Qed.

(** ** The ranking comparator *)



(** ** The spacing query *)

Lemma shaftDistance_loop (module : Q) (mid pre post : list Shaft) (acc : Q) :
  for_loop_throw (Z.of_nat (length pre) + 1) (length mid)
    (fun i distance =>
       s <- shaftAtZ (pre ++ mid ++ post) (i - 1) ;;
       let outputDiameter := (inject_Z (outputGear s) * module)%Q in
       let inputDiameter := (inject_Z (inputGear s) * module)%Q in
       Some (distance + (outputDiameter + inputDiameter) / 2)%Q)
    acc
  = Some (fold_left
            (fun distance s =>
               (distance
                + (inject_Z (outputGear s) * module
                   + inject_Z (inputGear s) * module) / 2)%Q)
            mid acc).
Proof.
  revert pre acc. induction mid as [|x mid IH]; intros pre acc.
  - reflexivity.
  - cbn [length for_loop_throw fold_left].
    unfold shaftAtZ at 1.
    replace (Z.of_nat (length pre) + 1 - 1 <? 0) with false
      by (symmetry; apply Z.ltb_ge; lia).
    replace (Z.to_nat (Z.of_nat (length pre) + 1 - 1)) with (length pre) by lia.
    rewrite nth_error_app2 by lia. rewrite Nat.sub_diag. cbn [nth_error app obind].
    specialize (IH (pre ++ [x])).
    rewrite length_app in IH. cbn [length] in IH.
    rewrite <- app_assoc in IH. cbn [app] in IH.
    replace (Z.of_nat (length pre) + 1 + 1)
      with (Z.of_nat (length pre + 1) + 1) by lia.
    apply IH.
Qed.

Lemma shaftDistance_early (t : GearTrain) (module : Q) (firstShaft lastShaft : Z) :
  Z.of_nat (length (shafts t)) - 2 < firstShaft ->
  shaftDistance t module firstShaft lastShaft = Some 0%Q.
Proof.
  intro H. unfold shaftDistance.
  replace (Z.of_nat (length (shafts t)) - 2 <? firstShaft) with true
    by (symmetry; apply Z.ltb_lt; lia).
  reflexivity.
Qed.

Lemma shaftDistance_to_last (t : GearTrain) (module : Q) (firstShaft : Z) :
  0 <= firstShaft <= Z.of_nat (length (shafts t)) - 2 ->
  shaftDistance t module firstShaft (-1)
  = Some (pitchSum module
            (firstn (length (shafts t) - 1 - Z.to_nat firstShaft)
               (skipn (Z.to_nat firstShaft) (shafts t)))).
Proof.
  intros [H0 H1]. unfold shaftDistance.
  replace (Z.of_nat (length (shafts t)) - 2 <? firstShaft) with false
    by (symmetry; apply Z.ltb_ge; lia).
  change (-1 =? -1) with true. cbv iota. unfold pitchSum.
  set (f := Z.to_nat firstShaft).
  generalize (shafts t) H1. clear t H1. intros l H1.
  set (pre := firstn f l).
  set (mid := firstn (length l - 1 - f) (skipn f l)).
  set (post := skipn (length l - 1 - f) (skipn f l)).
  assert (Hl : pre ++ mid ++ post = l).
  { unfold pre, mid, post. rewrite firstn_skipn. apply firstn_skipn. }
  assert (Hpre : length pre = f) by (unfold pre; rewrite length_firstn; lia).
  assert (Hmid : length mid = (length l - 1 - f)%nat)
    by (unfold mid; rewrite length_firstn, length_skipn; lia).
  pose proof (shaftDistance_loop module mid pre post 0%Q) as HL.
  rewrite Hl, Hpre, Hmid in HL.
  replace (Z.to_nat (Z.of_nat (length l) - (firstShaft + 1)))
    with (length l - 1 - f)%nat by lia.
  replace (firstShaft + 1) with (Z.of_nat f + 1) by lia.
  exact HL.
Qed.

(** C10.  [shaftDistance] returns 0 as soon as [firstShaft] exceeds the
    shaft count minus 2, hence for every window (first index not
    negative) on a train of zero or one shafts; [lastShaft = -1] stands
    for the shaft count, so that the default window sums the shafts from
    [firstShaft] up to the one before the last. *)
Theorem shaftDistance_window (t : GearTrain) (module : Q) (firstShaft lastShaft : Z) :
  (Z.of_nat (length (shafts t)) - 2 < firstShaft ->
   shaftDistance t module firstShaft lastShaft = Some 0%Q)
  /\ (0 <= firstShaft -> (length (shafts t) <= 1)%nat ->
      shaftDistance t module firstShaft lastShaft = Some 0%Q)
  /\ shaftDistance t module firstShaft (-1)
     = shaftDistance t module firstShaft (Z.of_nat (length (shafts t)))
  /\ (0 <= firstShaft <= Z.of_nat (length (shafts t)) - 2 ->
      shaftDistance t module firstShaft (-1)
      = Some (pitchSum module
                (firstn (length (shafts t) - 1 - Z.to_nat firstShaft)
                   (skipn (Z.to_nat firstShaft) (shafts t))))).
Proof.
  split; [apply shaftDistance_early|].
  split; [intros; apply shaftDistance_early; lia|]. split.
  - unfold shaftDistance. cbn [Z.eqb].
    replace (Z.of_nat (length (shafts t)) =? -1) with false
      by (symmetry; apply Z.eqb_neq; lia).
    reflexivity.
  - apply shaftDistance_to_last.
Qed.

Lemma shaftDistance_window_witness :
  let t := GearTrain_new [Shaft_new 20 0 0%Q; Shaft_new 30 40 0%Q; Shaft_new 50 0 0%Q] in
  shaftDistance t 1 2 7 = Some 0%Q
  /\ shaftDistance (GearTrain_new [Shaft_new 20 0 0%Q]) 1 0 (-1) = Some 0%Q
  /\ shaftDistance t 1 0 (-1)
     = Some (pitchSum 1 [Shaft_new 20 0 0%Q; Shaft_new 30 40 0%Q]).
Proof.
  intro t. split; [|split].
  - apply (proj1 (shaftDistance_window t 1 2 7)). vm_compute. reflexivity.
  - apply (proj1 (proj2 (shaftDistance_window
                           (GearTrain_new [Shaft_new 20 0 0%Q]) 1 0 (-1)))).
    + lia.
    + vm_compute. lia.
  - apply (proj2 (proj2 (proj2 (shaftDistance_window t 1 0 (-1))))).
    vm_compute. split; discriminate.
Defined.

(** ** Derived quantities of a gear train *)

Lemma for_loop_snoc {A : Type} (body : nat -> A -> A) (c i : nat) (a : A) :
  for_loop i (S c) body a = body (i + c)%nat (for_loop i c body a).
Proof.
  revert i a. induction c as [|c IH]; intros i a.
  - cbn. rewrite Nat.add_0_r. reflexivity.
  - change (for_loop i (S (S c)) body a) with (for_loop (S i) (S c) body (body i a)).
    rewrite IH. cbn [for_loop]. f_equal. lia.
Qed.

Lemma copy_shafts_id (l : list Shaft) :
  map (fun s => mkShaft (gearCount s) (inputGear s) (outputGear s) (spacerSize s)) l = l.
Proof.
  induction l as [|[gc ig og sp] l IH]; cbn; [reflexivity | now rewrite IH].
Qed.

Lemma shaftAt_app_here (pre : list Shaft) (x : Shaft) (rest : list Shaft) :
  shaftAt (pre ++ x :: rest) (length pre) = x.
Proof.
  unfold shaftAt. rewrite app_nth2 by lia. now rewrite Nat.sub_diag.
Qed.

Lemma shaftAt_app_next (pre : list Shaft) (x y : Shaft) (rest : list Shaft) :
  shaftAt (pre ++ x :: y :: rest) (S (length pre)) = y.
Proof.
  unfold shaftAt. rewrite app_nth2 by lia.
  replace (S (length pre) - length pre)%nat with 1%nat by lia. reflexivity.
Qed.

Lemma ratioLoop_from (rest pre : list Shaft) (x : Shaft) (acc : Q) :
  (for_loop (S (length pre)) (length rest)
     (fun i om =>
        (om * (inject_Z (outputGear (shaftAt (pre ++ x :: rest) (i - 1)))
               / inject_Z (inputGear (shaftAt (pre ++ x :: rest) i))))%Q)
     acc
   == acc * ratioProduct (x :: rest))%Q.
Proof.
  revert pre x acc. induction rest as [|y rest IH]; intros pre x acc.
  - cbn. ring.
  - cbn [length for_loop].
    replace (S (length pre) - 1)%nat with (length pre) by lia.
    rewrite shaftAt_app_here, shaftAt_app_next.
    specialize (IH (pre ++ [x]) y).
    rewrite length_app, <- app_assoc in IH. cbn [length app] in IH.
    replace (length pre + 1)%nat with (S (length pre)) in IH by lia.
    rewrite IH.
    change (ratioProduct (x :: y :: rest))
      with (inject_Z (outputGear x) / inject_Z (inputGear y)
            * ratioProduct (y :: rest))%Q.
    ring.
Qed.

Lemma fractionLoop_from (rest pre : list Shaft) (x : Shaft) (n d : Z) :
  for_loop (S (length pre)) (length rest)
    (fun i st =>
       let '(numerator, denominator) := st in
       (numerator * outputGear (shaftAt (pre ++ x :: rest) (i - 1)),
        denominator * inputGear (shaftAt (pre ++ x :: rest) i)))
    (n, d)
  = (n * numeratorProduct (x :: rest), d * denominatorProduct (x :: rest)).
Proof.
  revert pre x n d. induction rest as [|y rest IH]; intros pre x n d.
  - cbn. f_equal; ring.
  - cbn [length for_loop].
    replace (S (length pre) - 1)%nat with (length pre) by lia.
    rewrite shaftAt_app_here, shaftAt_app_next.
    specialize (IH (pre ++ [x]) y).
    rewrite length_app, <- app_assoc in IH. cbn [length app] in IH.
    replace (length pre + 1)%nat with (S (length pre)) in IH by lia.
    rewrite IH.
    change (numeratorProduct (x :: y :: rest))
      with (outputGear x * numeratorProduct (y :: rest)).
    change (denominatorProduct (x :: y :: rest))
      with (inputGear y * denominatorProduct (y :: rest)).
    f_equal; ring.
Qed.

Lemma ratioLoop_ratioProduct (l : list Shaft) : (ratioLoop l == ratioProduct l)%Q.
Proof.
  destruct l as [|x rest]; [reflexivity|].
  unfold ratioLoop. replace (length (x :: rest) - 1)%nat with (length rest) by (cbn [length]; lia).
  rewrite (ratioLoop_from rest [] x 1%Q). ring.
Qed.

Lemma fractionLoop_products (l : list Shaft) :
  fractionLoop l = (numeratorProduct l, denominatorProduct l).
Proof.
  destruct l as [|x rest]; [reflexivity|].
  unfold fractionLoop. replace (length (x :: rest) - 1)%nat with (length rest) by (cbn [length]; lia).
  pose proof (fractionLoop_from rest [] x 1 1) as H. cbn [length app] in H.
  rewrite H. f_equal; ring.
Qed.

Lemma ratioProduct_fraction (l : list Shaft) :
  (ratioProduct l
   == inject_Z (numeratorProduct l) / inject_Z (denominatorProduct l))%Q.
Proof.
  induction l as [|x rest IH]; [reflexivity|].
  destruct rest as [|y rest]; [reflexivity|].
  change (ratioProduct (x :: y :: rest))
    with (inject_Z (outputGear x) / inject_Z (inputGear y)
          * ratioProduct (y :: rest))%Q.
  change (numeratorProduct (x :: y :: rest))
    with (outputGear x * numeratorProduct (y :: rest)).
  change (denominatorProduct (x :: y :: rest))
    with (inputGear y * denominatorProduct (y :: rest)).
  rewrite IH, !inject_Z_mult.
  unfold Qdiv. rewrite Qinv_mult_distr. ring.
Qed.

(** C6.  For a train built from a non-empty shaft list with positive
    tooth counts, [numerator] and [denominator] are the integer products
    of the output gears of the previous shafts and of the input gears of
    the current shafts, the stored [outputMultiplier] is their quotient,
    and it equals the product of the consecutive ratios
    [shafts[i-1].outputGear / shafts[i].inputGear] -- which is also the
    value the first loop of [updateOutputMultiplier] had assigned. *)
Theorem outputMultiplier_is_ratio_product (l : list Shaft) :
  l <> [] -> Forall positiveTeeth l ->
  let t := GearTrain_new l in
  shafts t = l
  /\ numerator t = Some (numeratorProduct l)
  /\ denominator t = Some (denominatorProduct l)
  /\ 0 < denominatorProduct l
  /\ outputMultiplier t
     = (inject_Z (numeratorProduct l) / inject_Z (denominatorProduct l))%Q
  /\ (outputMultiplier t == ratioProduct l)%Q
  /\ (ratioLoop l == ratioProduct l)%Q.
Proof.
  intros Hne Hpos t.
  assert (Ht : t = mkGearTrain l
                     (inject_Z (numeratorProduct l) / inject_Z (denominatorProduct l))%Q
                     (Some (snd (forceLoop l)))
                     (Some (numeratorProduct l)) (Some (denominatorProduct l))).
  { unfold t, GearTrain_new. rewrite copy_shafts_id.
    destruct l as [|x rest]; [congruence|].
    cbn [length Nat.ltb Nat.leb].
    unfold updateOutputMultiplier, updateMaxForce, updateOutputFraction.
    cbn [shafts outputMultiplier maxForce numerator denominator].
    rewrite fractionLoop_products. reflexivity. }
  rewrite Ht. cbn [shafts outputMultiplier maxForce numerator denominator].
  repeat split.
  - clear Ht t Hne. induction Hpos as [|x rest Hx Hrest IH]; [reflexivity|].
    destruct rest as [|y rest]; [reflexivity|].
    change (denominatorProduct (x :: y :: rest))
      with (inputGear y * denominatorProduct (y :: rest)).
    inversion Hrest as [|? ? [Hy _] _]; subst. lia.
  - symmetry. apply ratioProduct_fraction.
  - apply ratioLoop_ratioProduct.
Qed.

Lemma outputMultiplier_is_ratio_product_witness :
  let l := [Shaft_new 20 0 0%Q; Shaft_new 30 40 0%Q; Shaft_new 50 0 0%Q] in
  let t := GearTrain_new l in
  shafts t = l
  /\ numerator t = Some (numeratorProduct l)
  /\ denominator t = Some (denominatorProduct l)
  /\ 0 < denominatorProduct l
  /\ outputMultiplier t
     = (inject_Z (numeratorProduct l) / inject_Z (denominatorProduct l))%Q
  /\ (outputMultiplier t == ratioProduct l)%Q
  /\ (ratioLoop l == ratioProduct l)%Q.
Proof.
  intro l.
  apply (outputMultiplier_is_ratio_product l).
  - discriminate.
  - repeat constructor.
Defined.

Lemma Qmax_cases (x y : Q) : Qmax x y = x \/ Qmax x y = y.
Proof.
  unfold Qmax, GenericMinMax.gmax. destruct (x ?= y)%Q; auto.
Qed.

Lemma isMaximumOf_snoc (m c : Q) (cs : list Q) :
  isMaximumOf m cs -> isMaximumOf (Qmax m c) (cs ++ [c]).
Proof.
  intros [Hin Hub]. split.
  - apply in_or_app. destruct (Qmax_cases m c) as [-> | ->]; [left | right; left]; auto.
  - intros c' Hc'. apply in_app_or in Hc'. destruct Hc' as [Hc' | [<- | []]].
    + apply Qle_trans with m; [auto | apply Q.le_max_l].
    + apply Q.le_max_r.
Qed.

Lemma forceLoop_invariant (l : list Shaft) (k : nat) :
  let st :=
    for_loop 1 k
      (fun i st =>
         let '(torque, maxForce) := st in
         let torque :=
           (torque * (inject_Z (inputGear (shaftAt l i))
                      / inject_Z (outputGear (shaftAt l (i - 1)))))%Q in
         let maxForce := Qmax maxForce (torque / inject_Z (inputGear (shaftAt l i)))%Q in
         let maxForce := Qmax maxForce (torque / inject_Z (outputGear (shaftAt l i)))%Q in
         (torque, maxForce))
      (1%Q, (1 / inject_Z (inputGear (shaftAt l 0)))%Q) in
  fst st = torqueAt l k /\ isMaximumOf (snd st) (forceCandidatesUpTo l k).
Proof.
  induction k as [|k IH].
  - cbn. split; [reflexivity|]. split; [left; reflexivity|].
    intros c [<- | []]. apply Qle_refl.
  - rewrite for_loop_snoc. cbv zeta in IH |- *.
    destruct (for_loop 1 k _ _) as [torque maxForce].
    cbn [fst snd] in IH. destruct IH as [Ht Hm]. subst torque.
    replace (1 + k)%nat with (S k) by lia.
    replace (S k - 1)%nat with k by lia.
    cbn [fst snd]. split; [reflexivity|].
    unfold forceCandidatesUpTo. rewrite seq_S, flat_map_app.
    cbn [flat_map Nat.add]. rewrite app_nil_r. unfold shaftForces at 2.
    change (?a :: ?x ++ [?b; ?c]) with ((a :: x) ++ [b; c]).
    change [?b; ?c] with ([b] ++ [c]). rewrite app_assoc.
    apply isMaximumOf_snoc. apply isMaximumOf_snoc. exact Hm.
Qed.

(** C9.  For a train with at least one shaft (and positive tooth counts)
    [maxForce] is the maximum of the candidate forces: [torque /
    inputGear] on the first shaft, both [torque / inputGear] and [torque
    / outputGear] on every later shaft, where the torque is 1 on the
    first shaft and is multiplied by [inputGear[i] / outputGear[i-1]] at
    each boundary. *)
Theorem maxForce_is_maximum (l : list Shaft) :
  l <> [] -> Forall positiveTeeth l ->
  exists m,
    maxForce (GearTrain_new l) = Some m
    /\ In m (forceCandidates l)
    /\ (forall c, In c (forceCandidates l) -> (c <= m)%Q).
Proof.
  intros Hne _.
  exists (snd (forceLoop l)). split.
  - unfold GearTrain_new. rewrite copy_shafts_id.
    destruct l as [|x rest]; [congruence|].
    cbn [length Nat.ltb Nat.leb].
    unfold updateOutputMultiplier, updateMaxForce, updateOutputFraction.
    cbn [shafts outputMultiplier maxForce numerator denominator].
    destruct (fractionLoop (x :: rest)). reflexivity.
  - pose proof (forceLoop_invariant l (length l - 1)) as [_ H].
    exact H.
Qed.

Lemma maxForce_is_maximum_witness :
  let l := [Shaft_new 20 0 0%Q; Shaft_new 30 40 0%Q; Shaft_new 50 0 0%Q] in
  exists m,
    maxForce (GearTrain_new l) = Some m
    /\ In m (forceCandidates l)
    /\ (forall c, In c (forceCandidates l) -> (c <= m)%Q).
Proof.
  intro l.
  apply (maxForce_is_maximum l).
  - discriminate.
  - repeat constructor.
Defined.

(** ** The engine: completion is a fixed point *)

Ltac break_match_in H :=
  repeat
    match type of H with
    | context [obind ?m _] => destruct m eqn:?; cbn [obind] in H
    | context [if ?c then _ else _] => destruct c eqn:?
    | context [let '(_, _) := ?x in _] => destruct x eqn:?
    | context [match ?x with Some _ => _ | None => _ end] => destruct x eqn:?
    end.

Lemma iterateShafts_flag (p p' : GearTrainPermutations) (b : bool) :
  permutationStack p <> [] -> iterateShafts p = Some (b, p') -> b = false.
Proof.
  intros Hne H. unfold iterateShafts in H.
  destruct (permutationStack p) as [|frame rest]; [congruence|].
  cbv zeta in H.
  break_match_in H; try discriminate; inversion H; reflexivity.
Qed.

(** [iterate] returns true only from its first test, which writes
    nothing. *)
Lemma iterate_true_unchanged (p p' : GearTrainPermutations) :
  iterate p = Some (true, p') ->
  p' = p
  /\ (length (if sharedInputGearSet p then changeGearSet p else inputGearSet p)
      <=? inputGearIndex p)%nat
     && (length (permutationStack p) <=? 0)%nat = true.
Proof.
  intro H.
  assert (Hdone : (length (if sharedInputGearSet p then changeGearSet p
                           else inputGearSet p) <=? inputGearIndex p)%nat
                  && (length (permutationStack p) <=? 0)%nat = true).
  { unfold iterate in H. cbv zeta in H.
    destruct ((length (if sharedInputGearSet p then changeGearSet p
                       else inputGearSet p) <=? inputGearIndex p)%nat
              && (length (permutationStack p) <=? 0)%nat) eqn:E; [reflexivity|].
    exfalso.
    destruct (0 <? length (permutationStack p))%nat eqn:E1.
    - apply iterateShafts_flag in H; [discriminate|].
      apply Nat.ltb_lt in E1. destruct (permutationStack p); [cbn in E1; lia | discriminate].
    - destruct (inputGearIndex p <? length _)%nat eqn:E2; [|discriminate].
      apply iterateShafts_flag in H; [discriminate|]. cbn. discriminate. }
  split; [|exact Hdone].
  unfold iterate in H. cbv zeta in H. rewrite Hdone in H. congruence.
Qed.

(** C7.  When [iterate] reports completion, the first-shaft cursor is
    past the end of its pool and the stack is empty, the call has changed
    nothing, and every later call reports completion again and leaves the
    whole engine state -- results, counters, stack, cursors -- as it is. *)
Theorem iterate_complete_is_fixed_point (p p' : GearTrainPermutations) :
  iterate p = Some (true, p') ->
  p' = p
  /\ permutationStack p = []
  /\ (length (if sharedInputGearSet p then changeGearSet p else inputGearSet p)
      <= inputGearIndex p)%nat
  /\ forall n, iterate_calls n p' = Some (repeat true n, p').
Proof.
  intro H.
  destruct (iterate_true_unchanged p p' H) as [-> Hdone].
  assert (Hp : iterate p = Some (true, p)).
  { unfold iterate. cbv zeta. rewrite Hdone. reflexivity. }
  apply andb_true_iff in Hdone. destruct Hdone as [H1 H2].
  apply Nat.leb_le in H1, H2. repeat split.
  - destruct (permutationStack p); [reflexivity | cbn in H2; lia].
  - exact H1.
  - induction n as [|n IH]; [reflexivity|].
    cbn [iterate_calls]. rewrite Hp. cbn [obind snd fst]. rewrite IH. reflexivity.
Qed.

Lemma iterate_complete_is_fixed_point_witness :
  demoFinished = demoFinished
  /\ permutationStack demoFinished = []
  /\ (length (if sharedInputGearSet demoFinished then changeGearSet demoFinished
              else inputGearSet demoFinished)
      <= inputGearIndex demoFinished)%nat
  /\ forall n, iterate_calls n demoFinished = Some (repeat true n, demoFinished).
Proof.
  apply (iterate_complete_is_fixed_point demoFinished demoFinished).
  vm_compute. reflexivity.
Defined.

(** ** Arrays and pools *)

Lemma array_set_length {A : Type} (i : nat) (v : A) (l : list (option A)) :
  (i < length l)%nat -> length (array_set i v l) = length l.
Proof.
  intro H. unfold array_set.
  replace (i <? length l)%nat with true by (symmetry; apply Nat.ltb_lt; lia).
  rewrite length_app. cbn [length]. rewrite length_firstn, length_skipn. lia.
Qed.

Lemma array_get_set_same {A : Type} (i : nat) (v : A) (l : list (option A)) :
  (i < length l)%nat -> array_get i (array_set i v l) = Some v.
Proof.
  intro H. unfold array_get, array_set.
  replace (i <? length l)%nat with true by (symmetry; apply Nat.ltb_lt; lia).
  rewrite nth_error_app2 by (rewrite length_firstn; lia).
  rewrite length_firstn. replace (i - Nat.min i (length l))%nat with O by lia.
  reflexivity.
Qed.

Lemma array_get_set_other {A : Type} (i j : nat) (v : A) (l : list (option A)) :
  (i < length l)%nat -> i <> j -> array_get j (array_set i v l) = array_get j l.
Proof.
  intros H Hij. unfold array_get, array_set.
  replace (i <? length l)%nat with true by (symmetry; apply Nat.ltb_lt; lia).
  rewrite <- (firstn_skipn i l) at 3.
  destruct (Nat.lt_ge_cases j i) as [Hlt | Hge].
  - rewrite !nth_error_app1 by (rewrite length_firstn; lia). reflexivity.
  - rewrite !nth_error_app2 by (rewrite length_firstn; lia).
    rewrite length_firstn. replace (Nat.min i (length l)) with i by lia.
    destruct (j - i)%nat as [|d] eqn:E; [lia|]. cbn [nth_error].
    rewrite !nth_error_skipn. f_equal. 
    destruct (skipn i l) as [|x tl] eqn:Es.
    + apply (f_equal (@length _)) in Es. rewrite length_skipn in Es.
      cbn in Es. lia.
    + cbn [nth_error]. 
      assert (Hs : skipn (S i) l = tl).
      { replace (S i) with (1 + i)%nat by lia. rewrite <- skipn_skipn, Es. reflexivity. }
      rewrite <- Hs. rewrite nth_error_skipn. reflexivity.
Qed.

Lemma definedUpTo_set {A : Type} (k i : nat) (v : A) (l : list (option A)) :
  (i < length l)%nat -> definedUpTo k l -> definedUpTo k (array_set i v l).
Proof.
  intros Hi H j Hj. destruct (Nat.eq_dec i j) as [<- | Hne].
  - exists v. now apply array_get_set_same.
  - rewrite array_get_set_other by assumption. now apply H.
Qed.

Lemma definedUpTo_set_next {A : Type} (k : nat) (v : A) (l : list (option A)) :
  (k < length l)%nat -> definedUpTo k l -> definedUpTo (S k) (array_set k v l).
Proof.
  intros Hk H j Hj. destruct (Nat.eq_dec k j) as [<- | Hne].
  - exists v. now apply array_get_set_same.
  - rewrite array_get_set_other by assumption. apply H. lia.
Qed.

Lemma definedUpTo_weaken {A : Type} (k k' : nat) (l : list (option A)) :
  (k' <= k)%nat -> definedUpTo k l -> definedUpTo k' l.
Proof. intros Hle H j Hj. apply H. lia. Qed.

Lemma all_defined_Some {A : Type} (l : list (option A)) (l' : list A) :
  all_defined l = Some l' ->
  length l' = length l /\ forall j, array_get j l = nth_error l' j.
Proof.
  revert l'. induction l as [|x l IH]; intros l' H.
  - injection H as <-. split; [reflexivity|]. intros [|j]; reflexivity.
  - cbn in H. destruct x as [a|]; [|discriminate]. cbn in H.
    destruct (all_defined l) as [r|] eqn:E; [|discriminate]. cbn in H.
    injection H as <-. destruct (IH r eq_refl) as [Hlen Hget]. split.
    + cbn. now rewrite Hlen.
    + intros [|j]; [reflexivity|]. apply (Hget j).
Qed.

Lemma all_defined_total {A : Type} (l : list (option A)) :
  definedUpTo (length l) l -> exists l', all_defined l = Some l'.
Proof.
  induction l as [|x l IH]; intro H.
  - now exists [].
  - destruct (H O) as [v Hv]; [cbn; lia|].
    destruct x as [a|]; [|discriminate]. 
    destruct IH as [r Hr].
    { intros j Hj. apply (H (S j)). cbn. lia. }
    exists (a :: r). cbn. rewrite Hr. reflexivity.
Qed.

Lemma definedUpTo_firstn {A : Type} (k : nat) (l : list (option A)) :
  (k <= length l)%nat -> definedUpTo k l -> definedUpTo (length (firstn k l)) (firstn k l).
Proof.
  intros Hk H j Hj. rewrite length_firstn in Hj.
  destruct (H j) as [v Hv]; [lia|]. exists v.
  unfold array_get in *. rewrite nth_error_firstn.
  replace (j <? k)%nat with true by (symmetry; apply Nat.ltb_lt; lia).
  exact Hv.
Qed.

Lemma splice1_length {A : Type} (i : nat) (l : list A) :
  (i < length l)%nat -> length (splice1 i l) = (length l - 1)%nat.
Proof.
  intro H. unfold splice1.
  rewrite length_app, length_firstn, length_skipn. lia.
Qed.

Lemma indexOf_lt (x : Z) (l : list Z) (i : nat) :
  indexOf x l = Some i -> (i < length l)%nat.
Proof.
  revert i. induction l as [|y l IH]; intros i H; [discriminate|].
  cbn in H. destruct (y =? x).
  - injection H as <-. cbn. lia.
  - destruct (indexOf x l) as [j|]; [|discriminate].
    injection H as <-. specialize (IH j eq_refl). cbn. lia.
Qed.

Lemma indexOf_nth (l : list Z) (i : nat) :
  (i < length l)%nat -> exists j, indexOf (nth i l 0) l = Some j.
Proof.
  revert i. induction l as [|y l IH]; intros i H; [cbn in H; lia|].
  cbn [indexOf]. destruct (y =? nth i (y :: l) 0) eqn:E; [eauto|].
  destruct i as [|i]; [cbn in E; rewrite Z.eqb_refl in E; discriminate|].
  cbn [nth]. destruct (IH i) as [j Hj]; [cbn in H; lia|].
  rewrite Hj. cbn. eauto.
Qed.

(** ** The engine: the loop that completes the final shaft *)

Ltac simpl_fields :=
  cbn [set_shafts set_gearTrains set_foundSolutions set_skippedSolutions
       set_discardedSolutions set_permutationStack set_inputGearIndex
       set_permutationCount withResults
       shaftCount this_shafts changeGearSet inputGearSet sharedInputGearSet
       this_spacerSize inputAdjacentSize gearTrains desiredOutputMultiplier
       addendum module minShaftDistance maxShaftDistance foundSolutions
       skippedSolutions discardedSolutions permutationStack inputGearIndex
       permutationCount] in *.

Lemma shafts_GearTrain_new (l : list Shaft) : shafts (GearTrain_new l) = l.
Proof.
  unfold GearTrain_new. rewrite copy_shafts_id.
  destruct (0 <? length l)%nat; [|reflexivity].
  unfold updateOutputMultiplier, updateMaxForce, updateOutputFraction.
  cbn [shafts]. destruct (fractionLoop l). reflexivity.
Qed.

Lemma last_two_of {A : Type} (l : list A) (c : nat) (x y : A) :
  length l = S c -> c <> O ->
  nth_error l (c - 1) = Some x -> nth_error l c = Some y ->
  exists pre, l = pre ++ [x; y].
Proof.
  intros Hlen Hc Hx Hy. exists (firstn (c - 1) l).
  rewrite <- (firstn_skipn (c - 1) l) at 1. f_equal.
  pose proof (length_skipn (c - 1) l) as Hs.
  rewrite <- (Nat.add_0_r (c - 1)) in Hx. rewrite <- nth_error_skipn in Hx.
  replace c with ((c - 1) + 1)%nat in Hy at 1 by lia.
  rewrite <- nth_error_skipn in Hy.
  destruct (skipn (c - 1) l) as [|a [|b [|z tl]]]; cbn in Hs, Hx, Hy; try lia;
    try discriminate.
  congruence.
Qed.

(** What one round of the loop does, when it does not throw. *)
Lemma finalShaftBody_inv (avail : list Z) (c i : nat) (p p' : GearTrainPermutations) :
  length (this_shafts p) = S c ->
  finalShaftBody avail c i p = Some p' ->
  exists sh g f s d,
    p' = withResults p sh g f s d
    /\ length sh = S c
    /\ (forall k, definedUpTo k (this_shafts p) -> definedUpTo k sh)
    /\ f + s + d = foundSolutions p + skippedSolutions p + discardedSolutions p + 1
    /\ Z.of_nat (length g) - f = Z.of_nat (length (gearTrains p)) - foundSolutions p
    /\ exists new, g = gearTrains p ++ new /\ Forall (lastPairClear (addendum p)) new.
Proof.
  intros Hlen H. unfold finalShaftBody in H.
  destruct ((0 <? i)%nat && (nth (i - 1) avail 0 =? nth i avail 0)).
  { injection H as <-.
    exists (this_shafts p), (gearTrains p), (foundSolutions p),
      (skippedSolutions p + 1), (discardedSolutions p).
    repeat split; auto; try lia.
    exists []. rewrite app_nil_r. split; [reflexivity | constructor]. }
  cbv zeta in H.
  set (sh := array_set c (Shaft_new (nth i avail 0) 0 (this_spacerSize p))
               (this_shafts p)) in *.
  assert (Hsh : length sh = S c) by (unfold sh; rewrite array_set_length; lia).
  assert (Hdef : forall k, definedUpTo k (this_shafts p) -> definedUpTo k sh).
  { intros k Hk. apply definedUpTo_set; [lia | exact Hk]. }
  destruct (constraintsViolated (set_shafts p sh) (this_shafts (set_shafts p sh)) c)
    as [[|]|]; cbn [obind] in H; [| |discriminate].
  { injection H as <-. simpl_fields.
    exists sh, (gearTrains p), (foundSolutions p),
      (skippedSolutions p + 1), (discardedSolutions p).
    repeat split; auto; try lia.
    exists []. rewrite app_nil_r. split; [reflexivity | constructor]. }
  destruct (c =? 0)%nat eqn:Ec; cbn [obind] in H; [discriminate|].
  apply Nat.eqb_neq in Ec. simpl_fields.
  destruct (array_get (c - 1) sh) as [input|] eqn:Ein; cbn [obind] in H;
    [|discriminate].
  destruct (array_get c sh) as [output|] eqn:Eout; cbn [obind] in H;
    [|discriminate].
  destruct (shaftsInterfere input output (addendum p)) eqn:Eint; cbn [negb] in H.
  { injection H as <-. simpl_fields.
    exists sh, (gearTrains p), (foundSolutions p),
      (skippedSolutions p), (discardedSolutions p + 1).
    repeat split; auto; try lia.
    exists []. rewrite app_nil_r. split; [reflexivity | constructor]. }
  unfold registerGearTrain in H. simpl_fields.
  destruct (all_defined sh) as [l|] eqn:El; cbn [obind] in H; [|discriminate].
  injection H as <-. simpl_fields.
  exists sh, (gearTrains p ++ [GearTrain_new l]), (foundSolutions p + 1),
    (skippedSolutions p), (discardedSolutions p).
  repeat split; auto; try lia.
  - rewrite length_app. cbn [length]. lia.
  - exists [GearTrain_new l]. split; [reflexivity|].
    constructor; [|constructor].
    destruct (all_defined_Some _ _ El) as [Hl Hget].
    rewrite Hget in Ein, Eout.
    destruct (last_two_of l c input output) as [pre Hpre]; try assumption;
      [congruence|].
    exists pre, input, output. rewrite shafts_GearTrain_new. auto.
Qed.

Lemma withResults_withResults (p : GearTrainPermutations)
    sh g f s d sh' g' f' s' d' :
  withResults (withResults p sh g f s d) sh' g' f' s' d'
  = withResults p sh' g' f' s' d'.
Proof. reflexivity. Qed.

(** What the whole loop does, when it does not throw. *)
Lemma finalShaftLoop_inv (avail : list Z) (c n : nat) :
  forall (i : nat) (p p' : GearTrainPermutations),
  length (this_shafts p) = S c ->
  for_loop_throw_nat i n (finalShaftBody avail c) p = Some p' ->
  exists sh g f s d,
    p' = withResults p sh g f s d
    /\ length sh = S c
    /\ (forall k, definedUpTo k (this_shafts p) -> definedUpTo k sh)
    /\ f + s + d
       = foundSolutions p + skippedSolutions p + discardedSolutions p + Z.of_nat n
    /\ Z.of_nat (length g) - f = Z.of_nat (length (gearTrains p)) - foundSolutions p
    /\ exists new, g = gearTrains p ++ new /\ Forall (lastPairClear (addendum p)) new.
Proof.
  induction n as [|n IH]; intros i p p' Hlen H.
  - injection H as <-.
    exists (this_shafts p), (gearTrains p), (foundSolutions p),
      (skippedSolutions p), (discardedSolutions p).
    repeat split; auto; try lia.
    + destruct p; reflexivity.
    + exists []. rewrite app_nil_r. split; [reflexivity | constructor].
  - cbn [for_loop_throw_nat] in H.
    destruct (finalShaftBody avail c i p) as [p1|] eqn:E1; cbn [obind] in H;
      [|discriminate].
    destruct (finalShaftBody_inv _ _ _ _ _ Hlen E1)
      as (sh1 & g1 & f1 & s1 & d1 & -> & Hl1 & Hd1 & Hc1 & Hg1 & new1 & -> & Hn1).
    apply IH in H; [|exact Hl1].
    destruct H
      as (sh2 & g2 & f2 & s2 & d2 & -> & Hl2 & Hd2 & Hc2 & Hg2 & new2 & -> & Hn2).
    simpl_fields.
    exists sh2, ((gearTrains p ++ new1) ++ new2), f2, s2, d2.
    repeat split; auto; try lia.
    exists (new1 ++ new2). split; [now rewrite app_assoc|].
    apply Forall_app. auto.
Qed.

Lemma shaftDistance_default_total (l : list Shaft) (module : Q) :
  exists d, shaftDistance_default (GearTrain_new l) module = Some d.
Proof.
  unfold shaftDistance_default.
  destruct (Z.lt_ge_cases (Z.of_nat (length (shafts (GearTrain_new l))) - 2) 0)
    as [Hshort | Hlong].
  - eexists. apply shaftDistance_early. exact Hshort.
  - eexists. apply shaftDistance_to_last. lia.
Qed.

(** With the earlier shafts in place, a round of the loop does not throw. *)
Lemma finalShaftBody_total (avail : list Z) (c i : nat) (p : GearTrainPermutations) :
  length (this_shafts p) = S c -> c <> O -> definedUpTo c (this_shafts p) ->
  exists p', finalShaftBody avail c i p = Some p'.
Proof.
  intros Hlen Hc Hdef. unfold finalShaftBody.
  destruct ((0 <? i)%nat && (nth (i - 1) avail 0 =? nth i avail 0)); [eauto|].
  cbv zeta.
  set (sh := array_set c (Shaft_new (nth i avail 0) 0 (this_spacerSize p))
               (this_shafts p)).
  assert (Hsh : length sh = S c) by (unfold sh; rewrite array_set_length; lia).
  assert (Hdef' : definedUpTo (S c) sh).
  { unfold sh. apply definedUpTo_set_next; [lia | exact Hdef]. }
  assert (Hall : exists l, all_defined sh = Some l).
  { apply all_defined_total. now rewrite Hsh. }
  destruct Hall as [l Hl].
  assert (Hcv : exists b, constraintsViolated (set_shafts p sh)
                            (this_shafts (set_shafts p sh)) c = Some b).
  { unfold constraintsViolated. simpl_fields.
    replace (c =? 0)%nat with false by (symmetry; apply Nat.eqb_neq; lia).
    rewrite firstn_all2 by lia. rewrite Hl. cbn [obind].
    destruct (shaftDistance_default_total l (module p)) as [d ->]. cbn [obind].
    destruct (_ && _); [eauto|]. destruct (_ && _); eauto. }
  destruct Hcv as [b ->]. cbn [obind]. destruct b; [eauto|].
  replace (c =? 0)%nat with false by (symmetry; apply Nat.eqb_neq; lia).
  simpl_fields.
  destruct (Hdef' (c - 1)%nat) as [input ->]; [lia|].
  destruct (Hdef' c) as [output ->]; [lia|]. cbn [obind].
  destruct (shaftsInterfere input output (addendum p)); cbn [negb]; [eauto|].
  unfold registerGearTrain. simpl_fields. rewrite Hl. cbn [obind]. eauto.
Qed.

Lemma finalShaftLoop_total (avail : list Z) (c n : nat) :
  forall (i : nat) (p : GearTrainPermutations),
  length (this_shafts p) = S c -> c <> O -> definedUpTo c (this_shafts p) ->
  exists p', for_loop_throw_nat i n (finalShaftBody avail c) p = Some p'.
Proof.
  induction n as [|n IH]; intros i p Hlen Hc Hdef; [cbn; eauto|].
  cbn [for_loop_throw_nat].
  destruct (finalShaftBody_total avail c i p Hlen Hc Hdef) as [p1 E1].
  rewrite E1. cbn [obind].
  destruct (finalShaftBody_inv _ _ _ _ _ Hlen E1)
    as (sh1 & g1 & f1 & s1 & d1 & -> & Hl1 & Hd1 & _).
  apply IH; simpl_fields; auto.
Qed.

(** ** The engine: one step on a frame *)

Lemma iterateShafts_final (p : GearTrainPermutations)
    (f : PermutationStackFrame) (rest : list PermutationStackFrame) :
  permutationStack p = f :: rest ->
  Z.of_nat (currentShaft f) = Z.of_nat (length (this_shafts p)) - 1 ->
  iterateShafts p
  = (p' <- for_loop_throw_nat 0 (length (availableGears f))
             (finalShaftBody (availableGears f) (currentShaft f))
             (set_permutationStack p rest) ;;
     Some (false, p')).
Proof.
  intros Hst Hc. unfold iterateShafts. rewrite Hst. cbv zeta. simpl_fields.
  replace (Z.of_nat (currentShaft f) =? Z.of_nat (length (this_shafts p)) - 1)
    with true by (symmetry; apply Z.eqb_eq; exact Hc).
  reflexivity.
Qed.

Lemma iterateShafts_nonfinal (p : GearTrainPermutations)
    (f : PermutationStackFrame) (rest : list PermutationStackFrame) :
  permutationStack p = f :: rest ->
  Z.of_nat (currentShaft f) <> Z.of_nat (length (this_shafts p)) - 1 ->
  let avail := availableGears f in
  let c := currentShaft f in
  let i := fst (nextCursor (length avail) (inputIndex f) (outputIndex f)) in
  let o := snd (nextCursor (length avail) (inputIndex f) (outputIndex f)) in
  let sh :=
    array_set c
      (Shaft_new (nth i avail 0) (chosenOutputGear avail i o) (this_spacerSize p))
      (this_shafts p) in
  let back := mkFrame avail c i (o + 1) in
  iterateShafts p
  = if (length avail <=? i)%nat
    then Some (false, set_permutationStack p rest)
    else if skipsDuplicate avail i o
    then
      n <- calculatePermutationCount
             (Z.of_nat (length sh) - Z.of_nat c - 1)
             (Z.of_nat (length (remainingAfter avail i o))) ;;
      Some (false,
            set_skippedSolutions
              (set_permutationStack (set_shafts p sh) (back :: rest))
              (skippedSolutions p + n))
    else
      Some (false,
            set_permutationStack (set_shafts p sh)
              (mkFrame (remainingAfter avail i o) (c + 1) 0 0 :: back :: rest)).
Proof.
  intros Hst Hc. cbv zeta. unfold iterateShafts. rewrite Hst. cbv zeta. simpl_fields.
  replace (Z.of_nat (currentShaft f) =? Z.of_nat (length (this_shafts p)) - 1)
    with false by (symmetry; apply Z.eqb_neq; exact Hc).
  unfold nextCursor, skipsDuplicate, chosenOutputGear, remainingAfter.
  destruct (length (availableGears f) <=? outputIndex f)%nat; cbn [fst snd];
    match goal with
    | |- context [(length (availableGears f) <=? ?i)%nat] =>
        destruct (length (availableGears f) <=? i)%nat; [reflexivity|]
    end;
    match goal with
    | |- context [(?i =? ?o)%nat] =>
        destruct (i =? o)%nat; [|destruct (o <? i)%nat]
    end;
    simpl_fields;
    match goal with
    | |- context [?a && ?b && ?c] => destruct (a && b && c)
    end; reflexivity.
Qed.

(** ** The engine: what is still to be counted *)

Lemma remainingAfter_length (avail : list Z) (i o : nat) :
  (i < length avail)%nat -> (o < length avail)%nat ->
  Z.of_nat (length (remainingAfter avail i o))
  = if (i =? o)%nat then Z.of_nat (length avail) - 1 else Z.of_nat (length avail) - 2.
Proof.
  intros Hi Ho. unfold remainingAfter.
  destruct (i =? o)%nat eqn:E.
  - rewrite splice1_length by lia. lia.
  - apply Nat.eqb_neq in E. destruct (o <? i)%nat eqn:E2.
    + apply Nat.ltb_lt in E2.
      rewrite splice1_length by (rewrite splice1_length; lia).
      rewrite splice1_length by lia. lia.
    + apply Nat.ltb_ge in E2.
      rewrite splice1_length by (rewrite splice1_length; lia).
      rewrite splice1_length by lia. lia.
Qed.

Lemma nextCursor_output_lt (g i o : nat) :
  (fst (nextCursor g i o) < g)%nat -> (snd (nextCursor g i o) < g)%nat.
Proof.
  unfold nextCursor. destruct (g <=? o)%nat eqn:E; cbn [fst snd].
  - lia.
  - apply Nat.leb_gt in E. lia.
Qed.

Lemma permCount_succ (k : nat) (g : Z) :
  permCount (S k) g
  = g * permCount k (g - 1) + g * (g - 1) * permCount k (g - 2).
Proof. reflexivity. Qed.

(** A new frame stands for [count(N - c, g)] permutations. *)
Lemma frameWeight_fresh (N c : nat) (avail : list Z) :
  (S c <= N)%nat ->
  frameWeight N (mkFrame avail c 0 0)
  = permCount (N - c - 1) (Z.of_nat (length avail)).
Proof.
  intro Hc. unfold frameWeight.
  cbn [availableGears currentShaft inputIndex outputIndex].
  destruct (S c =? N)%nat eqn:E.
  - apply Nat.eqb_eq in E. replace (N - c - 1)%nat with O by lia. reflexivity.
  - apply Nat.eqb_neq in E.
    replace (N - c - 1)%nat with (S (N - c - 2)) by lia.
    rewrite permCount_succ.
    generalize (permCount (N - c - 2) (Z.of_nat (length avail) - 1)).
    generalize (permCount (N - c - 2) (Z.of_nat (length avail) - 2)).
    intros D S1. unfold nextCursor.
    destruct (length avail) as [|g]; [cbn; ring|].
    cbn [Nat.leb fst snd]. cbv zeta. cbn [Z.of_nat Z.sub]. ring.
Qed.

(** Taking the pair under the cursor moves its weight out of the frame. *)
Lemma frameWeight_advance (N c i0 o0 : nat) (avail : list Z) :
  (S c <> N)%nat ->
  let i := fst (nextCursor (length avail) i0 o0) in
  let o := snd (nextCursor (length avail) i0 o0) in
  (i < length avail)%nat ->
  frameWeight N (mkFrame avail c i0 o0)
  = frameWeight N (mkFrame avail c i (o + 1))
    + permCount (N - c - 2) (Z.of_nat (length (remainingAfter avail i o))).
Proof.
  intros Hc i o Hi.
  assert (Ho : (o < length avail)%nat) by (apply nextCursor_output_lt; exact Hi).
  rewrite remainingAfter_length by assumption.
  unfold frameWeight.
  cbn [availableGears currentShaft inputIndex outputIndex].
  replace (S c =? N)%nat with false by (symmetry; apply Nat.eqb_neq; exact Hc).
  fold i o.
  remember (permCount (N - c - 2) (Z.of_nat (length avail) - 1)) as S1 eqn:HS1.
  remember (permCount (N - c - 2) (Z.of_nat (length avail) - 2)) as D eqn:HD.
  replace (length avail <=? i)%nat with false by (symmetry; apply Nat.leb_gt; lia).
  cbv zeta. unfold nextCursor.
  destruct (length avail <=? o + 1)%nat eqn:E1; cbn [fst snd].
  - apply Nat.leb_le in E1.
    assert (Eo : Z.of_nat o = Z.of_nat (length avail) - 1) by lia.
    destruct (length avail <=? i + 1)%nat eqn:E2.
    + apply Nat.leb_le in E2.
      assert (Ei : Z.of_nat i = Z.of_nat (length avail) - 1) by lia.
      replace (o <=? i)%nat with true by (symmetry; apply Nat.leb_le; lia).
      replace (i =? o)%nat with true by (symmetry; apply Nat.eqb_eq; lia).
      rewrite Eo, Ei. rewrite <- ?HS1, <- ?HD; ring.
    + apply Nat.leb_gt in E2.
      replace (o <=? i)%nat with false by (symmetry; apply Nat.leb_gt; lia).
      replace (i =? o)%nat with false by (symmetry; apply Nat.eqb_neq; lia).
      cbn [Nat.leb]. rewrite Eo, Nat2Z.inj_add. cbn [Z.of_nat]. rewrite <- ?HS1, <- ?HD; ring.
  - apply Nat.leb_gt in E1.
    replace (length avail <=? i)%nat with false by (symmetry; apply Nat.leb_gt; lia).
    rewrite Nat2Z.inj_add. cbn [Z.of_nat].
    destruct (i =? o)%nat eqn:E3.
    + apply Nat.eqb_eq in E3.
      replace (o <=? i)%nat with true by (symmetry; apply Nat.leb_le; lia).
      replace (o + 1 <=? i)%nat with false by (symmetry; apply Nat.leb_gt; lia).
      rewrite <- ?HS1, <- ?HD; ring.
    + apply Nat.eqb_neq in E3.
      destruct (o <=? i)%nat eqn:E4.
      * apply Nat.leb_le in E4.
        replace (o + 1 <=? i)%nat with true by (symmetry; apply Nat.leb_le; lia).
        rewrite <- ?HS1, <- ?HD; ring.
      * apply Nat.leb_gt in E4.
        replace (o + 1 <=? i)%nat with false by (symmetry; apply Nat.leb_gt; lia).
        rewrite <- ?HS1, <- ?HD; ring.
Qed.

Lemma frameWeight_exhausted (N : nat) (f : PermutationStackFrame) :
  (S (currentShaft f) <> N)%nat ->
  (length (availableGears f)
   <= fst (nextCursor (length (availableGears f)) (inputIndex f) (outputIndex f)))%nat ->
  frameWeight N f = 0.
Proof.
  intros Hc Hi. unfold frameWeight.
  replace (S (currentShaft f) =? N)%nat with false
    by (symmetry; apply Nat.eqb_neq; exact Hc).
  cbv zeta.
  replace (length (availableGears f) <=? _)%nat with true
    by (symmetry; apply Nat.leb_le; exact Hi).
  reflexivity.
Qed.

(** ** The engine: the invariant of a run *)

Lemma iterate_unfold (p : GearTrainPermutations) :
  iterate p
  = if (length (firstGearSet p) <=? inputGearIndex p)%nat
       && (length (permutationStack p) <=? 0)%nat
    then Some (true, p)
    else if (0 <? length (permutationStack p))%nat then iterateShafts p
    else if (inputGearIndex p <? length (firstGearSet p))%nat
    then iterateShafts (afterSeed p)
    else Some (false, p).
Proof. reflexivity. Qed.

Lemma remainingAfter_length_le (avail : list Z) (i o : nat) :
  (i < length avail)%nat -> (o < length avail)%nat ->
  (length (remainingAfter avail i o) <= length avail)%nat.
Proof.
  intros Hi Ho. pose proof (remainingAfter_length avail i o Hi Ho) as H.
  destruct (i =? o)%nat; lia.
Qed.

Lemma frame_eta (f : PermutationStackFrame) :
  f = mkFrame (availableGears f) (currentShaft f) (inputIndex f) (outputIndex f).
Proof. destruct f; reflexivity. Qed.

(** A step on a non-empty stack keeps the invariant. *)
Lemma iterateShafts_preserves (p p' : GearTrainPermutations) (b : bool) :
  engineInv p -> permutationStack p <> [] ->
  iterateShafts p = Some (b, p') -> engineInv p'.
Proof.
  intros (Hlen & HN & Hst & Hdef & Htr & Hcnt) Hne H.
  destruct (permutationStack p) as [|f rest] eqn:Estack; [congruence|].
  cbn [stackOk] in Hst. destruct Hst as (Hc & HcN & HG & Hrest).
  cbn [length] in Hdef. cbn [stackWeight] in Hcnt.
  destruct (Z.eq_dec (Z.of_nat (currentShaft f)) (Z.of_nat (length (this_shafts p)) - 1))
    as [Hfin | Hnf].
  - (* the final shaft *)
    rewrite (iterateShafts_final p f rest Estack Hfin) in H.
    destruct (for_loop_throw_nat _ _ _ _) as [p1|] eqn:Eloop; cbn [obind] in H;
      [|discriminate].
    injection H as _ <-.
    apply finalShaftLoop_inv in Eloop; [|simpl_fields; lia].
    destruct Eloop as (sh & g & f1 & s1 & d1 & -> & Hl & Hd & Hc1 & Hg1 & _).
    unfold engineInv, seedsLeft, firstGearSet, seedPoolSize in *. simpl_fields.
    assert (Hw : frameWeight (shaftCount p) f = Z.of_nat (length (availableGears f))).
    { unfold frameWeight.
      replace (S (currentShaft f) =? shaftCount p)%nat with true
        by (symmetry; apply Nat.eqb_eq; lia).
      reflexivity. }
    repeat split; auto; try lia.
    apply Hd. apply definedUpTo_weaken with (S (length rest)); [lia | exact Hdef].
  - (* an earlier shaft *)
    assert (HcN' : (S (currentShaft f) <> shaftCount p)%nat) by lia.
    pose proof (iterateShafts_nonfinal p f rest Estack Hnf) as Eq.
    cbv zeta in Eq. rewrite Eq in H. clear Eq.
    set (avail := availableGears f) in *.
    set (c := currentShaft f) in *.
    set (i := fst (nextCursor (length avail) (inputIndex f) (outputIndex f))) in *.
    set (o := snd (nextCursor (length avail) (inputIndex f) (outputIndex f))) in *.
    set (sh := array_set c _ (this_shafts p)) in *.
    assert (Hsh : length sh = shaftCount p)
      by (unfold sh; rewrite array_set_length; lia).
    destruct (length avail <=? i)%nat eqn:Ei.
    + (* the frame is exhausted *)
      apply Nat.leb_le in Ei. injection H as _ <-.
      rewrite (frameWeight_exhausted (shaftCount p) f HcN' Ei) in Hcnt.
      unfold engineInv, seedsLeft, firstGearSet, seedPoolSize in *. simpl_fields.
      repeat split; auto; try lia.
      apply definedUpTo_weaken with (S (length rest)); [lia | exact Hdef].
    + apply Nat.leb_gt in Ei.
      assert (Ho : (o < length avail)%nat) by (apply nextCursor_output_lt; exact Ei).
      pose proof (frameWeight_advance (shaftCount p) c (inputIndex f) (outputIndex f)
                    avail HcN' Ei) as Hadv.
      replace (mkFrame avail c (inputIndex f) (outputIndex f)) with f in Hadv
        by apply frame_eta.
      fold i o in Hadv.
      destruct (skipsDuplicate avail i o).
      * (* a repeated output gear: counted, not explored *)
        rewrite calculatePermutationCount_permCount in H by lia.
        cbn [obind] in H. injection H as _ <-.
        replace (Z.to_nat (Z.of_nat (length sh) - Z.of_nat c - 1) - 1)%nat
          with (shaftCount p - c - 2)%nat in * by lia.
        unfold engineInv, seedsLeft, firstGearSet, seedPoolSize in *. simpl_fields.
        cbn [stackOk stackWeight length availableGears currentShaft].
        repeat split; auto; try lia.
        unfold sh. apply definedUpTo_set; [lia | exact Hdef].
      * (* on to the next shaft *)
        injection H as _ <-.
        pose proof (frameWeight_fresh (shaftCount p) (c + 1)
                      (remainingAfter avail i o)) as Hfresh.
        replace (shaftCount p - (c + 1) - 1)%nat
          with (shaftCount p - c - 2)%nat in Hfresh by lia.
        pose proof (remainingAfter_length_le avail i o Ei Ho) as Hle.
        unfold engineInv, seedsLeft, firstGearSet, seedPoolSize in *. simpl_fields.
        cbn [stackOk stackWeight length availableGears currentShaft].
        repeat split; auto; try lia.
        unfold sh. replace (S (S (length rest))) with (S c) by lia.
        apply definedUpTo_set_next; [lia|].
        replace c with (S (length rest)) by lia. exact Hdef.
Qed.

Lemma seedAvail_length (p : GearTrainPermutations) :
  (inputGearIndex p < length (firstGearSet p))%nat ->
  Z.of_nat (length (seedAvail p)) = seedPoolSize p
  /\ (length (seedAvail p) <= length (changeGearSet p))%nat.
Proof.
  unfold seedAvail, seedPoolSize, firstGearSet. intro H.
  destruct (sharedInputGearSet p); [|lia].
  destruct (indexOf_nth (changeGearSet p) (inputGearIndex p) H) as [j Hj].
  rewrite Hj. pose proof (indexOf_lt _ _ _ Hj) as Hlt.
  rewrite splice1_length by exact Hlt. lia.
Qed.

Lemma afterSeed_fields (p : GearTrainPermutations) :
  afterSeed p
  = set_inputGearIndex
      (set_permutationStack
         (set_shafts p
            (array_set 0
               (Shaft_new (nth (inputGearIndex p) (firstGearSet p) 0) 0
                  (inputAdjacentSize p))
               (this_shafts p)))
         (mkFrame (seedAvail p) 1 0 0 :: permutationStack p))
      (inputGearIndex p + 1).
Proof. reflexivity. Qed.

Lemma afterSeed_preserves (p : GearTrainPermutations) :
  engineInv p -> permutationStack p = [] ->
  (inputGearIndex p < length (firstGearSet p))%nat ->
  engineInv (afterSeed p).
Proof.
  intros (Hlen & HN & Hst & Hdef & Htr & Hcnt) Hempty Hidx.
  destruct (seedAvail_length p Hidx) as [Hpool Hle].
  rewrite afterSeed_fields.
  pose proof (frameWeight_fresh (shaftCount p) 1 (seedAvail p)) as Hfresh.
  replace (shaftCount p - 1 - 1)%nat with (shaftCount p - 2)%nat in Hfresh by lia.
  rewrite Hpool in Hfresh.
  unfold engineInv, seedsLeft in *.
  replace (firstGearSet (set_inputGearIndex _ _)) with (firstGearSet p) by reflexivity.
  replace (seedPoolSize (set_inputGearIndex _ _)) with (seedPoolSize p) by reflexivity.
  simpl_fields. rewrite Hempty in *.
  cbn [stackOk stackWeight length availableGears currentShaft] in *.
  rewrite array_set_length by lia.
  repeat split; auto; try lia.
  - apply definedUpTo_set_next; [lia|]. intros j Hj. lia.
  - rewrite Hfresh by lia.
    replace (Z.of_nat (length (firstGearSet p) - (inputGearIndex p + 1)))
      with (Z.of_nat (length (firstGearSet p) - inputGearIndex p) - 1) by lia.
    lia.
Qed.

(** Every call of [iterate] keeps the invariant. *)
Lemma iterate_preserves (p p' : GearTrainPermutations) (b : bool) :
  engineInv p -> iterate p = Some (b, p') -> engineInv p'.
Proof.
  intros Hinv H. rewrite iterate_unfold in H.
  destruct (_ && _) eqn:Edone.
  - injection H as _ <-. exact Hinv.
  - destruct (0 <? length (permutationStack p))%nat eqn:Est.
    + apply Nat.ltb_lt in Est.
      apply (iterateShafts_preserves p p' b Hinv); [|exact H].
      destruct (permutationStack p); [cbn in Est; lia | discriminate].
    + apply Nat.ltb_ge in Est.
      destruct (inputGearIndex p <? length (firstGearSet p))%nat eqn:Eidx.
      * apply Nat.ltb_lt in Eidx.
        assert (Hempty : permutationStack p = [])
          by (destruct (permutationStack p); [reflexivity | cbn in Est; lia]).
        apply (iterateShafts_preserves (afterSeed p) p' b).
        -- apply afterSeed_preserves; assumption.
        -- rewrite afterSeed_fields. simpl_fields. discriminate.
        -- exact H.
      * injection H as _ <-. exact Hinv.
Qed.

(** [setupCalculation] succeeds from two shafts on and, on an engine
    that holds no results yet, establishes the invariant. *)
Lemma setupCalculation_establishes (p : GearTrainPermutations) :
  (2 <= shaftCount p)%nat -> gearTrains p = [] ->
  exists s,
    setupCalculation p = Some s
    /\ engineInv s
    /\ permutationCount s
       = Z.of_nat (length (firstGearSet p)) * permCount (shaftCount p - 2) (seedPoolSize p)
    /\ foundSolutions s = 0 /\ skippedSolutions s = 0 /\ discardedSolutions s = 0
    /\ permutationStack s = [] /\ inputGearIndex s = O.
Proof.
  intros HN Htr. unfold setupCalculation. cbv zeta. simpl_fields.
  rewrite repeat_length.
  unfold firstGearSet, seedPoolSize.
  destruct (sharedInputGearSet p) eqn:Eshared;
    rewrite calculatePermutationCount_permCount by lia; cbn [obind];
    replace (Z.to_nat (Z.of_nat (shaftCount p) - 1) - 1)%nat
      with (shaftCount p - 2)%nat by lia;
    (eexists; split; [reflexivity|]);
    unfold engineInv, seedsLeft, firstGearSet, seedPoolSize; simpl_fields;
    rewrite Eshared, repeat_length, Htr;
    cbn [stackOk stackWeight length];
    repeat split; auto; try lia;
    try (intros j Hj; lia);
    rewrite Nat.sub_0_r; ring.
Qed.

(** ** The engine: no step throws *)

Lemma iterateShafts_total (p : GearTrainPermutations) :
  engineInv p -> permutationStack p <> [] ->
  exists p', iterateShafts p = Some (false, p').
Proof.
  intros (Hlen & HN & Hst & Hdef & Htr & Hcnt) Hne.
  destruct (permutationStack p) as [|f rest] eqn:Estack; [congruence|].
  cbn [stackOk] in Hst. destruct Hst as (Hc & HcN & HG & Hrest).
  cbn [length] in Hdef.
  destruct (Z.eq_dec (Z.of_nat (currentShaft f)) (Z.of_nat (length (this_shafts p)) - 1))
    as [Hfin | Hnf].
  - rewrite (iterateShafts_final p f rest Estack Hfin).
    destruct (finalShaftLoop_total (availableGears f) (currentShaft f)
                (length (availableGears f)) 0 (set_permutationStack p rest))
      as [p1 E1]; simpl_fields; try lia.
    + rewrite Hc. exact Hdef.
    + rewrite E1. cbn [obind]. eauto.
  - pose proof (iterateShafts_nonfinal p f rest Estack Hnf) as Eq.
    cbv zeta in Eq. rewrite Eq. clear Eq.
    destruct (_ <=? _)%nat; [eauto|].
    destruct (skipsDuplicate _ _ _); [|eauto].
    rewrite calculatePermutationCount_permCount
      by (rewrite array_set_length; lia).
    cbn [obind]. eauto.
Qed.

Lemma iterate_total (p : GearTrainPermutations) :
  engineInv p -> exists b p', iterate p = Some (b, p').
Proof.
  intro Hinv. rewrite iterate_unfold.
  destruct (_ && _) eqn:Edone; [eauto|].
  destruct (0 <? length (permutationStack p))%nat eqn:Est.
  - apply Nat.ltb_lt in Est.
    destruct (iterateShafts_total p Hinv) as [p' ->]; [|eauto].
    destruct (permutationStack p); [cbn in Est; lia | discriminate].
  - apply Nat.ltb_ge in Est.
    destruct (inputGearIndex p <? length (firstGearSet p))%nat eqn:Eidx; [|eauto].
    apply Nat.ltb_lt in Eidx.
    assert (Hempty : permutationStack p = [])
      by (destruct (permutationStack p); [reflexivity | cbn in Est; lia]).
    destruct (iterateShafts_total (afterSeed p)) as [p' ->]; [| |eauto].
    + apply afterSeed_preserves; assumption.
    + rewrite afterSeed_fields. simpl_fields. discriminate.
Qed.

(** ** The engine: the search ends *)

Lemma framePotential_fresh (N G c : nat) (avail : list Z) :
  (S c <= N)%nat -> (length avail <= G)%nat ->
  (framePotential N G (mkFrame avail c 0 0) <= stepBound G (N - c - 1))%nat.
Proof.
  intros Hc HG. unfold framePotential.
  cbn [availableGears currentShaft inputIndex outputIndex].
  destruct (S c =? N)%nat eqn:E.
  - destruct (N - c - 1)%nat; cbn [stepBound]; lia.
  - apply Nat.eqb_neq in E.
    replace (N - c - 1)%nat with (S (N - c - 2)) by lia.
    cbn [stepBound]. cbv zeta.
    assert (Hp : (pairsLeft (length avail)
                    (fst (nextCursor (length avail) 0 0))
                    (snd (nextCursor (length avail) 0 0))
                  <= G * G)%nat).
    { unfold pairsLeft, nextCursor.
      destruct (length avail <=? 0)%nat; cbn [fst snd];
        destruct (length avail <=? _)%nat; try lia;
        rewrite Nat.sub_0_r; try rewrite Nat.sub_0_r;
        apply Nat.mul_le_mono; lia. }
    apply le_n_S. apply Nat.mul_le_mono_r. exact Hp.
Qed.

Lemma pairsLeft_advance (g i0 o0 : nat) :
  let i := fst (nextCursor g i0 o0) in
  let o := snd (nextCursor g i0 o0) in
  (i < g)%nat ->
  pairsLeft g i o
  = S (pairsLeft g (fst (nextCursor g i (o + 1))) (snd (nextCursor g i (o + 1)))).
Proof.
  intros i o Hi.
  assert (Ho : (o < g)%nat) by (apply nextCursor_output_lt; exact Hi).
  unfold pairsLeft at 1.
  replace (g <=? i)%nat with false by (symmetry; apply Nat.leb_gt; lia).
  assert (Hgi : (g - i = S (g - (i + 1)))%nat) by lia.
  unfold nextCursor, pairsLeft.
  destruct (g <=? o + 1)%nat eqn:E1; cbn [fst snd].
  - apply Nat.leb_le in E1.
    destruct (g <=? i + 1)%nat eqn:E2.
    + apply Nat.leb_le in E2. replace (g - i)%nat with 1%nat by lia. lia.
    + rewrite Hgi. rewrite Nat.mul_succ_l. lia.
  - apply Nat.leb_gt in E1.
    replace (g <=? i)%nat with false by (symmetry; apply Nat.leb_gt; lia).
    rewrite Hgi. rewrite Nat.mul_succ_l. lia.
Qed.

Lemma framePotential_advance (N G : nat) (f : PermutationStackFrame) :
  (S (currentShaft f) <> N)%nat ->
  let avail := availableGears f in
  let i := fst (nextCursor (length avail) (inputIndex f) (outputIndex f)) in
  let o := snd (nextCursor (length avail) (inputIndex f) (outputIndex f)) in
  (i < length avail)%nat ->
  framePotential N G f
  = (framePotential N G (mkFrame avail (currentShaft f) i (o + 1))
     + (1 + stepBound G (N - currentShaft f - 2)))%nat.
Proof.
  intros Hc avail i o Hi. subst avail i o. unfold framePotential.
  cbn [availableGears currentShaft inputIndex outputIndex].
  replace (S (currentShaft f) =? N)%nat with false
    by (symmetry; apply Nat.eqb_neq; exact Hc).
  cbv zeta.
  rewrite (pairsLeft_advance (length (availableGears f)) (inputIndex f)
             (outputIndex f) Hi).
  lia.
Qed.

(** A step on a non-empty stack lowers the potential. *)
Lemma iterateShafts_decreases (p p' : GearTrainPermutations) (b : bool) :
  engineInv p -> permutationStack p <> [] ->
  iterateShafts p = Some (b, p') ->
  (enginePotential p' < enginePotential p)%nat.
Proof.
  intros (Hlen & HN & Hst & Hdef & Htr & Hcnt) Hne H.
  destruct (permutationStack p) as [|f rest] eqn:Estack; [congruence|].
  cbn [stackOk] in Hst. destruct Hst as (Hc & HcN & HG & Hrest).
  unfold enginePotential at 2. rewrite Estack. cbn [stackPotential].
  destruct (Z.eq_dec (Z.of_nat (currentShaft f)) (Z.of_nat (length (this_shafts p)) - 1))
    as [Hfin | Hnf].
  - rewrite (iterateShafts_final p f rest Estack Hfin) in H.
    destruct (for_loop_throw_nat _ _ _ _) as [p1|] eqn:Eloop; cbn [obind] in H;
      [|discriminate].
    injection H as _ <-.
    apply finalShaftLoop_inv in Eloop; [|simpl_fields; lia].
    destruct Eloop as (sh & g & f1 & s1 & d1 & -> & _).
    unfold enginePotential, seedsLeft, firstGearSet. simpl_fields.
    unfold framePotential.
    replace (S (currentShaft f) =? shaftCount p)%nat with true
      by (symmetry; apply Nat.eqb_eq; lia).
    lia.
  - assert (HcN' : (S (currentShaft f) <> shaftCount p)%nat) by lia.
    pose proof (iterateShafts_nonfinal p f rest Estack Hnf) as Eq.
    cbv zeta in Eq. rewrite Eq in H. clear Eq.
    set (avail := availableGears f) in *.
    set (c := currentShaft f) in *.
    set (i := fst (nextCursor (length avail) (inputIndex f) (outputIndex f))) in *.
    set (o := snd (nextCursor (length avail) (inputIndex f) (outputIndex f))) in *.
    destruct (length avail <=? i)%nat eqn:Ei.
    + injection H as _ <-.
      unfold enginePotential, seedsLeft, firstGearSet. simpl_fields.
      unfold framePotential.
      replace (S (currentShaft f) =? shaftCount p)%nat with false
        by (symmetry; apply Nat.eqb_neq; lia).
      cbv zeta. lia.
    + apply Nat.leb_gt in Ei.
      assert (Ho : (o < length avail)%nat) by (apply nextCursor_output_lt; exact Ei).
      pose proof (framePotential_advance (shaftCount p) (length (changeGearSet p))
                    f HcN' Ei) as Hadv.
      fold avail c i o in Hadv.
      destruct (skipsDuplicate avail i o).
      * destruct (calculatePermutationCount _ _) as [n|]; cbn [obind] in H;
          [|discriminate].
        injection H as _ <-.
        unfold enginePotential, seedsLeft, firstGearSet. simpl_fields.
        cbn [stackPotential]. lia.
      * injection H as _ <-.
        pose proof (framePotential_fresh (shaftCount p) (length (changeGearSet p))
                      (c + 1) (remainingAfter avail i o)) as Hfresh.
        replace (shaftCount p - (c + 1) - 1)%nat
          with (shaftCount p - c - 2)%nat in Hfresh by lia.
        pose proof (remainingAfter_length_le avail i o Ei Ho) as Hle.
        unfold enginePotential, seedsLeft, firstGearSet. simpl_fields.
        cbn [stackPotential]. lia.
Qed.

Lemma iterate_decreases (p p' : GearTrainPermutations) :
  engineInv p -> iterate p = Some (false, p') ->
  (enginePotential p' < enginePotential p)%nat.
Proof.
  intros Hinv H. rewrite iterate_unfold in H.
  destruct (_ && _) eqn:Edone; [discriminate|].
  destruct (0 <? length (permutationStack p))%nat eqn:Est.
  - apply Nat.ltb_lt in Est.
    apply (iterateShafts_decreases p p' false Hinv); [|exact H].
    destruct (permutationStack p); [cbn in Est; lia | discriminate].
  - apply Nat.ltb_ge in Est.
    destruct (inputGearIndex p <? length (firstGearSet p))%nat eqn:Eidx.
    + apply Nat.ltb_lt in Eidx.
      assert (Hempty : permutationStack p = [])
        by (destruct (permutationStack p); [reflexivity | cbn in Est; lia]).
      assert (Hseed : (enginePotential (afterSeed p) <= enginePotential p)%nat).
      { destruct Hinv as (Hlen & HN & _).
        destruct (seedAvail_length p Eidx) as [_ Hle].
        pose proof (framePotential_fresh (shaftCount p) (length (changeGearSet p))
                      1 (seedAvail p)) as Hfresh.
        replace (shaftCount p - 1 - 1)%nat with (shaftCount p - 2)%nat in Hfresh by lia.
        rewrite afterSeed_fields.
        unfold enginePotential, seedsLeft.
        replace (firstGearSet (set_inputGearIndex _ _)) with (firstGearSet p)
          by reflexivity.
        simpl_fields. rewrite Hempty. cbn [stackPotential].
        replace (length (firstGearSet p) - inputGearIndex p)%nat
          with (S (length (firstGearSet p) - (inputGearIndex p + 1)))%nat by lia.
        rewrite Nat.mul_succ_l. lia. }
      apply Nat.lt_le_trans with (enginePotential (afterSeed p)); [|exact Hseed].
      apply (iterateShafts_decreases (afterSeed p) p' false).
      * apply afterSeed_preserves; assumption.
      * rewrite afterSeed_fields. simpl_fields. discriminate.
      * exact H.
    + apply Nat.ltb_ge in Eidx. apply andb_false_iff in Edone.
      destruct Edone as [E | E]; apply Nat.leb_gt in E; lia.
Qed.

(** From a state that satisfies the invariant, the driver reaches the
    call that reports completion. *)
Lemma iterate_until_terminates (n : nat) :
  forall p : GearTrainPermutations,
  engineInv p -> (enginePotential p < n)%nat ->
  exists final, iterate_until n p = Some (true, final).
Proof.
  induction n as [|n IH]; intros p Hinv Hpot; [lia|].
  cbn [iterate_until].
  destruct (iterate_total p Hinv) as (b & p' & E). rewrite E. cbn [obind fst snd].
  destruct b; [eauto|].
  apply IH.
  - apply (iterate_preserves p p' false Hinv E).
  - pose proof (iterate_decreases p p' Hinv E). lia.
Qed.

Lemma iterate_until_preserves (n : nat) :
  forall (p p' : GearTrainPermutations) (b : bool),
  engineInv p -> iterate_until n p = Some (b, p') -> engineInv p'.
Proof.
  induction n as [|n IH]; intros p p' b Hinv H.
  - injection H as _ <-. exact Hinv.
  - cbn [iterate_until] in H.
    destruct (iterate p) as [[b1 p1]|] eqn:E; cbn [obind fst snd] in H; [|discriminate].
    pose proof (iterate_preserves p p1 b1 Hinv E) as Hinv1.
    destruct b1.
    + injection H as _ <-. exact Hinv1.
    + apply (IH p1 p' b Hinv1 H).
Qed.

Lemma iterate_until_true (n : nat) :
  forall (p p' : GearTrainPermutations),
  iterate_until n p = Some (true, p') -> iterate p' = Some (true, p').
Proof.
  induction n as [|n IH]; intros p p' H; [discriminate|].
  cbn [iterate_until] in H.
  destruct (iterate p) as [[b1 p1]|] eqn:E; cbn [obind fst snd] in H; [|discriminate].
  destruct b1.
  - injection H as <-.
    destruct (iterate_true_unchanged p p1 E) as [-> _]. exact E.
  - apply (IH p1 p' H).
Qed.

(** ** The engine: what a call leaves alone, what it appends *)

Lemma extendsResults_refl (p : GearTrainPermutations) : extendsResults p p.
Proof.
  repeat split. exists []. rewrite app_nil_r. split; [reflexivity | constructor].
Qed.

Lemma extendsResults_trans (p1 p2 p3 : GearTrainPermutations) :
  extendsResults p1 p2 -> extendsResults p2 p3 -> extendsResults p1 p3.
Proof.
  intros (Ha1 & Hc1 & new1 & Hg1 & Hn1) (Ha2 & Hc2 & new2 & Hg2 & Hn2).
  repeat split; try congruence.
  exists (new1 ++ new2). split.
  - rewrite Hg2, Hg1, app_assoc. reflexivity.
  - apply Forall_app. split; [exact Hn1|]. rewrite <- Ha1. exact Hn2.
Qed.

Lemma iterateShafts_extends (p p' : GearTrainPermutations) (b : bool) :
  iterateShafts p = Some (b, p') -> extendsResults p p'.
Proof.
  intro H.
  destruct (permutationStack p) as [|f rest] eqn:Estack.
  { unfold iterateShafts in H. rewrite Estack in H. injection H as _ <-.
    apply extendsResults_refl. }
  destruct (Z.eq_dec (Z.of_nat (currentShaft f)) (Z.of_nat (length (this_shafts p)) - 1))
    as [Hfin | Hnf].
  - rewrite (iterateShafts_final p f rest Estack Hfin) in H.
    destruct (for_loop_throw_nat _ _ _ _) as [p1|] eqn:Eloop; cbn [obind] in H;
      [|discriminate].
    injection H as _ <-.
    apply finalShaftLoop_inv in Eloop; [|simpl_fields; lia].
    destruct Eloop as (sh & g & f1 & s1 & d1 & -> & _ & _ & _ & _ & new & -> & Hnew).
    simpl_fields. unfold extendsResults. simpl_fields.
    repeat split. exists new. auto.
  - pose proof (iterateShafts_nonfinal p f rest Estack Hnf) as Eq.
    cbv zeta in Eq. rewrite Eq in H. clear Eq.
    destruct (_ <=? _)%nat;
      [|destruct (skipsDuplicate _ _ _);
        [destruct (calculatePermutationCount _ _); cbn [obind] in H;
         [|discriminate]|]];
      injection H as _ <-; unfold extendsResults; simpl_fields;
      repeat split; exists []; rewrite app_nil_r;
      (split; [reflexivity | constructor]).
Qed.

Lemma iterate_extends (p p' : GearTrainPermutations) (b : bool) :
  iterate p = Some (b, p') -> extendsResults p p'.
Proof.
  intro H. rewrite iterate_unfold in H.
  destruct (_ && _).
  { injection H as _ <-. apply extendsResults_refl. }
  destruct (0 <? length (permutationStack p))%nat.
  { apply (iterateShafts_extends p p' b H). }
  destruct (inputGearIndex p <? length (firstGearSet p))%nat.
  - apply extendsResults_trans with (afterSeed p).
    + rewrite afterSeed_fields. unfold extendsResults. simpl_fields.
      repeat split. exists []. rewrite app_nil_r. split; [reflexivity | constructor].
    + apply (iterateShafts_extends _ p' b H).
  - injection H as _ <-. apply extendsResults_refl.
Qed.

Lemma iterate_until_extends (n : nat) :
  forall (p p' : GearTrainPermutations) (b : bool),
  iterate_until n p = Some (b, p') -> extendsResults p p'.
Proof.
  induction n as [|n IH]; intros p p' b H.
  - injection H as _ <-. apply extendsResults_refl.
  - cbn [iterate_until] in H.
    destruct (iterate p) as [[b1 p1]|] eqn:E; cbn [obind fst snd] in H; [|discriminate].
    pose proof (iterate_extends p p1 b1 E) as H1.
    destruct b1.
    + injection H as _ <-. exact H1.
    + apply extendsResults_trans with p1; [exact H1 | apply (IH p1 p' b H)].
Qed.

(** C8.  Whatever a call of [iterate] -- or a whole run of calls --
    appends to the results is a train whose second-to-last and last
    shafts pass the interference test with the configured addendum: the
    results only grow, and [shaftsInterfere] is false on the last pair of
    every new train. *)
Theorem accepted_trains_last_pair_clear :
  (forall (p p' : GearTrainPermutations) (b : bool),
     iterate p = Some (b, p') ->
     addendum p' = addendum p
     /\ exists new,
          gearTrains p' = gearTrains p ++ new
          /\ Forall (lastPairClear (addendum p)) new)
  /\ (forall (n : nat) (p p' : GearTrainPermutations) (b : bool),
        iterate_until n p = Some (b, p') ->
        exists new,
          gearTrains p' = gearTrains p ++ new
          /\ Forall (lastPairClear (addendum p)) new).
Proof.
  split.
  - intros p p' b H. destruct (iterate_extends p p' b H) as (Ha & _ & Hnew). auto.
  - intros n p p' b H. destruct (iterate_until_extends n p p' b H) as (_ & _ & Hnew).
    exact Hnew.
Qed.

Lemma accepted_trains_last_pair_clear_witness :
  exists new,
    gearTrains demoFinished = gearTrains demoReady ++ new
    /\ Forall (lastPairClear (addendum demoReady)) new.
Proof.
  apply (proj2 accepted_trains_last_pair_clear 10%nat demoReady demoFinished true).
  vm_compute. reflexivity.
Defined.

(** ** The engine: the counters at completion *)

(** C1.  For an engine that holds no results yet and is configured with
    at least two shafts -- whatever the gear pools -- [setupCalculation]
    returns, the calls of [iterate] reach the one that reports
    completion, and at completion the number of trains in the results
    equals [foundSolutions], and [foundSolutions + skippedSolutions +
    discardedSolutions] equals [permutationCount], the total computed by
    [setupCalculation] from [calculatePermutationCount]. *)
Theorem counters_add_up_at_completion (p : GearTrainPermutations) :
  (2 <= shaftCount p)%nat -> gearTrains p = [] ->
  exists s c,
    setupCalculation p = Some s
    /\ calculatePermutationCount (Z.of_nat (shaftCount p) - 1) (seedPoolSize p) = Some c
    /\ permutationCount s = Z.of_nat (length (firstGearSet p)) * c
    /\ (exists n final, iterate_until n s = Some (true, final))
    /\ (forall n final,
          iterate_until n s = Some (true, final) ->
          Z.of_nat (length (gearTrains final)) = foundSolutions final
          /\ foundSolutions final + skippedSolutions final + discardedSolutions final
             = permutationCount final
          /\ permutationCount final = permutationCount s).
Proof.
  intros HN Htr.
  destruct (setupCalculation_establishes p HN Htr)
    as (s & Hs & Hinv & Hcount & _).
  exists s, (permCount (shaftCount p - 2) (seedPoolSize p)).
  split; [exact Hs|]. split.
  { rewrite calculatePermutationCount_permCount by lia. do 2 f_equal. lia. }
  split; [exact Hcount|]. split.
  - exists (S (enginePotential s)).
    apply iterate_until_terminates; [exact Hinv | lia].
  - intros n final Hrun.
    pose proof (iterate_until_preserves n s final true Hinv Hrun)
      as (_ & _ & _ & _ & Hfound & Hsum).
    pose proof (iterate_until_true n s final Hrun) as Hdone.
    destruct (iterate_true_unchanged final final Hdone) as [_ Hflags].
    apply andb_true_iff in Hflags. destruct Hflags as [Hidx Hstack].
    apply Nat.leb_le in Hidx, Hstack.
    destruct (iterate_until_extends n s final true Hrun) as (_ & Hpc & _).
    assert (Hempty : permutationStack final = [])
      by (destruct (permutationStack final); [reflexivity | cbn in Hstack; lia]).
    rewrite Hempty in Hsum. cbn [stackWeight] in Hsum.
    unfold seedsLeft, firstGearSet in Hsum.
    replace (length _ - inputGearIndex final)%nat with O in Hsum by lia.
    repeat split; [exact Hfound | lia | exact Hpc].
Qed.

Lemma counters_add_up_at_completion_witness :
  exists s c,
    setupCalculation demoEngine = Some s
    /\ calculatePermutationCount (Z.of_nat (shaftCount demoEngine) - 1)
         (seedPoolSize demoEngine) = Some c
    /\ permutationCount s = Z.of_nat (length (firstGearSet demoEngine)) * c
    /\ (exists n final, iterate_until n s = Some (true, final))
    /\ (forall n final,
          iterate_until n s = Some (true, final) ->
          Z.of_nat (length (gearTrains final)) = foundSolutions final
          /\ foundSolutions final + skippedSolutions final + discardedSolutions final
             = permutationCount final
          /\ permutationCount final = permutationCount s).
Proof.
  apply (counters_add_up_at_completion demoEngine).
  - vm_compute. lia.
  - reflexivity.
Defined.

(** ** The engine: equal tooth counts *)

(** C4, on the code.  With the change gears 20, 20, 30 the completed
    search holds equal trains more than once: the first-shaft cursor and
    the input-gear cursor of a frame have no test for a repeated tooth
    count, only the output-gear cursor and the final-shaft loop do. *)
Theorem equal_teeth_give_equal_trains :
  (s <- setupCalculation demoEngine ;; iterate_until 10 s) = Some (true, demoFinished)
  /\ map teeth (gearTrains demoFinished)
     = [ [(20, 20); (20, 20)]; [(20, 20); (30, 30)];
         [(20, 20); (20, 20)]; [(20, 20); (30, 30)];
         [(30, 30); (20, 20)] ]
  /\ ~ NoDup (map shafts (gearTrains demoFinished))
  /\ (s <- setupCalculation demoEngine3 ;; iterate_until 40 s)
     = Some (true, demoFinished3)
  /\ map teeth (gearTrains demoFinished3)
     = [ [(40, 40); (20, 20); (20, 20)]; [(40, 40); (20, 20); (30, 30)];
         [(40, 40); (20, 30); (20, 20)]; [(40, 40); (20, 20); (30, 30)];
         [(40, 40); (20, 20); (20, 20)]; [(40, 40); (20, 20); (30, 30)];
         [(40, 40); (20, 30); (20, 20)]; [(40, 40); (30, 20); (20, 20)];
         [(40, 40); (30, 30); (20, 20)] ]
  /\ ~ NoDup (map shafts (gearTrains demoFinished3)).
Proof.
  split; [vm_compute; reflexivity|].
  split; [vm_compute; reflexivity|].
  split.
  { intro H. vm_compute in H.
    inversion H as [|x l Hnotin _]; subst. apply Hnotin. right. left.
    reflexivity. }
  split; [vm_compute; reflexivity|].
  split; [vm_compute; reflexivity|].
  intro H. vm_compute in H.
  inversion H as [|x l Hnotin _]; subst. apply Hnotin.
  do 3 right. left. reflexivity.
Qed.

(** * Further properties of the code *)

(** ** Interference *)

(** X1.  A larger addendum never removes an interference: if two shafts
    interfere with addendum [a], they interfere with every [a' >= a]. *)
Theorem shaftsInterfere_addendum_monotone (input output : Shaft) (a a' : Q) :
  (a <= a')%Q ->
  shaftsInterfere input output a = true ->
  shaftsInterfere input output a' = true.
Proof.
  unfold shaftsInterfere. rewrite !Qgt_bool_true.
  unfold nonMeshingDistance, meshingDistance.
  destruct (gearCount input =? 1), (gearCount output =? 1); intros; lra.
Qed.

Lemma shaftsInterfere_addendum_monotone_witness :
  shaftsInterfere (Shaft_new 20 0 30%Q) (Shaft_new 20 0 0%Q) 8 = true.
Proof.
  apply (shaftsInterfere_addendum_monotone _ _ 6 8).
  - vm_compute. discriminate.
  - vm_compute. reflexivity.
Defined.



(** ** Ratio and force *)

Lemma GearTrain_new_fields (l : list Shaft) :
  l <> [] ->
  GearTrain_new l
  = mkGearTrain l
      (inject_Z (numeratorProduct l) / inject_Z (denominatorProduct l))%Q
      (Some (snd (forceLoop l)))
      (Some (numeratorProduct l)) (Some (denominatorProduct l)).
Proof.
  intro Hne. unfold GearTrain_new. rewrite copy_shafts_id.
  destruct l as [|x rest]; [congruence|].
  cbn [length Nat.ltb Nat.leb].
  unfold updateOutputMultiplier, updateMaxForce, updateOutputFraction.
  cbn [shafts outputMultiplier maxForce numerator denominator].
  rewrite fractionLoop_products. reflexivity.
Qed.

Lemma numeratorProduct_pos (l : list Shaft) :
  Forall positiveTeeth l -> 0 < numeratorProduct l.
Proof.
  induction 1 as [|x rest [_ Hx] Hrest IH]; [reflexivity|].
  destruct rest as [|y rest]; [reflexivity|].
  change (numeratorProduct (x :: y :: rest))
    with (outputGear x * numeratorProduct (y :: rest)).
  lia.
Qed.

Lemma denominatorProduct_pos (l : list Shaft) :
  Forall positiveTeeth l -> 0 < denominatorProduct l.
Proof.
  induction 1 as [|x rest Hx Hrest IH]; [reflexivity|].
  destruct rest as [|y rest]; [reflexivity|].
  change (denominatorProduct (x :: y :: rest))
    with (inputGear y * denominatorProduct (y :: rest)).
  inversion Hrest as [|? ? [Hy _] _]; subst. lia.
Qed.

Lemma inject_Z_pos (z : Z) : 0 < z -> (0 < inject_Z z)%Q.
Proof. intro H. unfold Qlt. cbn. lia. Qed.

Lemma last_In {A : Type} (l : list A) (d : A) : l <> [] -> In (last l d) l.
Proof.
  intro Hne. destruct (@exists_last _ l Hne) as (l' & a & ->).
  rewrite last_last. apply in_or_app. right. left. reflexivity.
Qed.

Lemma ratioProduct_single_gears (l : list Shaft) (d : Shaft) :
  l <> [] -> Forall positiveTeeth l ->
  Forall (fun s => inputGear s = outputGear s) l ->
  (ratioProduct l
   == inject_Z (outputGear (hd d l)) / inject_Z (inputGear (last l d)))%Q.
Proof.
  intros Hne Hpos Hsingle.
  induction l as [|x rest IH]; [congruence|].
  destruct rest as [|y rest].
  - cbn. inversion Hsingle as [|? ? Hx _]; subst. rewrite Hx.
    inversion Hpos as [|? ? [_ Hp] _]; subst.
    pose proof (inject_Z_pos _ Hp). field. lra.
  - change (ratioProduct (x :: y :: rest))
      with (inject_Z (outputGear x) / inject_Z (inputGear y)
            * ratioProduct (y :: rest))%Q.
    inversion Hpos as [|? ? _ Hpos']; subst.
    inversion Hsingle as [|? ? _ Hsingle']; subst.
    rewrite IH by (auto; discriminate).
    change (last (x :: y :: rest) d) with (last (y :: rest) d).
    cbn [hd].
    inversion Hsingle' as [|? ? Hy _]; subst.
    inversion Hpos' as [|? ? [Hyp Hyo] _]; subst.
    assert (Hlast : (0 < inject_Z (inputGear (last (y :: rest) d)))%Q).
    { apply inject_Z_pos.
      rewrite Forall_forall in Hpos'. apply Hpos'.
      apply last_In. discriminate. }
    rewrite <- Hy. pose proof (inject_Z_pos _ Hyp). field. lra.
Qed.

(** X3.  Idler gears do not change the ratio: on a train whose shafts
    all carry a single gear (positive tooth counts) the stored
    [outputMultiplier] is the first gear over the last gear. *)
Theorem outputMultiplier_single_gears (l : list Shaft) (d : Shaft) :
  l <> [] -> Forall positiveTeeth l ->
  Forall (fun s => inputGear s = outputGear s) l ->
  (outputMultiplier (GearTrain_new l)
   == inject_Z (outputGear (hd d l)) / inject_Z (inputGear (last l d)))%Q.
Proof.
  intros Hne Hpos Hsingle.
  rewrite (GearTrain_new_fields l Hne). cbn [outputMultiplier].
  rewrite <- ratioProduct_fraction.
  apply ratioProduct_single_gears; assumption.
Qed.

Lemma outputMultiplier_single_gears_witness :
  (outputMultiplier
     (GearTrain_new [Shaft_new 20 0 0%Q; Shaft_new 55 0 0%Q; Shaft_new 40 0 0%Q])
   == inject_Z 20 / inject_Z 40)%Q.
Proof.
  apply (outputMultiplier_single_gears
           [Shaft_new 20 0 0%Q; Shaft_new 55 0 0%Q; Shaft_new 40 0 0%Q]
           (Shaft_new 0 0 0%Q)).
  - discriminate.
  - repeat constructor.
  - repeat constructor.
Defined.

(** X4.  With positive tooth counts both derived quantities of a
    non-empty train are positive: the ratio, and the force bound, which
    is at least the unit torque over the first gear. *)
Theorem derived_quantities_positive (l : list Shaft) :
  l <> [] -> Forall positiveTeeth l ->
  (0 < outputMultiplier (GearTrain_new l))%Q
  /\ exists m,
       maxForce (GearTrain_new l) = Some m
       /\ (1 / inject_Z (inputGear (shaftAt l 0)) <= m)%Q
       /\ (0 < m)%Q.
Proof.
  intros Hne Hpos.
  rewrite (GearTrain_new_fields l Hne). cbn [outputMultiplier maxForce].
  pose proof (inject_Z_pos _ (numeratorProduct_pos l Hpos)) as Hn.
  pose proof (inject_Z_pos _ (denominatorProduct_pos l Hpos)) as Hd.
  split.
  - unfold Qdiv. apply Qmult_lt_0_compat; [exact Hn|].
    apply Qinv_lt_0_compat. exact Hd.
  - eexists. split; [reflexivity|].
    pose proof (forceLoop_invariant l (length l - 1)) as [_ [_ Hub]].
    assert (Hfirst : (1 / inject_Z (inputGear (shaftAt l 0))
                      <= snd (forceLoop l))%Q).
    { apply Hub. left. reflexivity. }
    split; [exact Hfirst|].
    assert (Hin : (0 < inject_Z (inputGear (shaftAt l 0)))%Q).
    { apply inject_Z_pos. destruct l as [|x rest]; [congruence|].
      inversion Hpos as [|? ? [Hx _] _]; subst. exact Hx. }
    apply Qlt_le_trans with (1 / inject_Z (inputGear (shaftAt l 0)))%Q;
      [|exact Hfirst].
    unfold Qdiv. rewrite Qmult_1_l. apply Qinv_lt_0_compat. exact Hin.
Qed.

Lemma derived_quantities_positive_witness :
  let l := [Shaft_new 20 0 0%Q; Shaft_new 30 40 0%Q; Shaft_new 50 0 0%Q] in
  (0 < outputMultiplier (GearTrain_new l))%Q
  /\ exists m,
       maxForce (GearTrain_new l) = Some m
       /\ (1 / inject_Z (inputGear (shaftAt l 0)) <= m)%Q
       /\ (0 < m)%Q.
Proof.
  intro l. apply (derived_quantities_positive l).
  - discriminate.
  - repeat constructor.
Defined.

(** ** Spacing and the distance constraint *)

Lemma shaftDistance_loop_scaled (l : list Shaft) (k module : Q) (n : nat) :
  forall (i : Z) (acc acc' : Q),
  (acc' == k * acc)%Q ->
  scaledBy k
    (for_loop_throw i n
       (fun i distance =>
          s <- shaftAtZ l (i - 1) ;;
          let outputDiameter := (inject_Z (outputGear s) * module)%Q in
          let inputDiameter := (inject_Z (inputGear s) * module)%Q in
          Some (distance + (outputDiameter + inputDiameter) / 2)%Q)
       acc)
    (for_loop_throw i n
       (fun i distance =>
          s <- shaftAtZ l (i - 1) ;;
          let outputDiameter := (inject_Z (outputGear s) * (k * module))%Q in
          let inputDiameter := (inject_Z (inputGear s) * (k * module))%Q in
          Some (distance + (outputDiameter + inputDiameter) / 2)%Q)
       acc').
Proof.
  induction n as [|n IH]; intros i acc acc' Hacc.
  - exact Hacc.
  - cbn [for_loop_throw].
    destruct (shaftAtZ l (i - 1)) as [s|]; cbn [obind]; [|exact I].
    apply IH. cbv zeta. rewrite Hacc. field.
Qed.

(** X5.  The spacing query is linear in the module: for every window,
    scaling the module by [k] scales the distance by [k], and the query
    throws for the scaled module exactly when it throws for the module. *)
Theorem shaftDistance_scales_with_module (t : GearTrain) (k module : Q)
    (firstShaft lastShaft : Z) :
  scaledBy k (shaftDistance t module firstShaft lastShaft)
    (shaftDistance t (k * module) firstShaft lastShaft).
Proof.
  unfold shaftDistance.
  destruct (Z.of_nat (length (shafts t)) - 2 <? firstShaft).
  - cbn. ring.
  - apply shaftDistance_loop_scaled. ring.
Qed.

Lemma removelast_firstn_pred {A : Type} (l : list A) :
  firstn (length l - 1) l = removelast l.
Proof.
  induction l as [|x [|y rest] IH]; [reflexivity | reflexivity|].
  change (removelast (x :: y :: rest)) with (x :: removelast (y :: rest)).
  rewrite <- IH. cbn [length]. rewrite !Nat.sub_succ, !Nat.sub_0_r. reflexivity.
Qed.

(** The default distance of a train built by the constructor. *)
Lemma shaftDistance_default_pitchSum (l : list Shaft) (module : Q) :
  shaftDistance_default (GearTrain_new l) module
  = Some (pitchSum module (removelast l)).
Proof.
  unfold shaftDistance_default.
  destruct (Z.lt_ge_cases (Z.of_nat (length l) - 2) 0) as [Hshort | Hlong].
  - rewrite shaftDistance_early by (rewrite shafts_GearTrain_new; exact Hshort).
    destruct l as [|x [|y rest]]; [reflexivity | reflexivity|].
    cbn [length] in Hshort. lia.
  - rewrite shaftDistance_to_last by (rewrite shafts_GearTrain_new; lia).
    rewrite shafts_GearTrain_new. cbn [Z.to_nat skipn]. rewrite Nat.sub_0_r.
    rewrite removelast_firstn_pred. reflexivity.
Qed.

(** X6.  The distance of a whole train (default window) is the sum, over
    every shaft but the last, of half the two pitch diameters of that
    shaft: the gears of the last shaft do not enter it. *)
Theorem shaftDistance_ignores_last_shaft (l : list Shaft) (x y : Shaft) (module : Q) :
  shaftDistance_default (GearTrain_new (l ++ [x])) module = Some (pitchSum module l)
  /\ shaftDistance_default (GearTrain_new (l ++ [x])) module
     = shaftDistance_default (GearTrain_new (l ++ [y])) module.
Proof.
  rewrite !shaftDistance_default_pitchSum, !removelast_last. split; reflexivity.
Qed.

Lemma all_defined_snoc {A : Type} (l : list (option A)) (v : A) :
  all_defined (l ++ [Some v]) = option_map (fun r => r ++ [v]) (all_defined l).
Proof.
  induction l as [|x l IH]; [reflexivity|].
  cbn [app all_defined]. destruct x as [a|]; [|reflexivity]. cbn [obind].
  rewrite IH. destruct (all_defined l); reflexivity.
Qed.

Lemma firstn_array_set_same {A : Type} (c : nat) (v : A) (l : list (option A)) :
  (c < length l)%nat -> firstn c (array_set c v l) = firstn c l.
Proof.
  intro H. unfold array_set.
  replace (c <? length l)%nat with true by (symmetry; apply Nat.ltb_lt; lia).
  rewrite firstn_app, length_firstn.
  replace (c - Nat.min c (length l))%nat with O by lia.
  cbn [firstn]. rewrite app_nil_r. apply firstn_all2. rewrite length_firstn. lia.
Qed.

Lemma firstn_array_set_next {A : Type} (c : nat) (v : A) (l : list (option A)) :
  (c < length l)%nat -> firstn (c + 1) (array_set c v l) = firstn c l ++ [Some v].
Proof.
  intro H. unfold array_set.
  replace (c <? length l)%nat with true by (symmetry; apply Nat.ltb_lt; lia).
  rewrite firstn_app, length_firstn.
  replace (c + 1 - Nat.min c (length l))%nat with 1%nat by lia.
  cbn [firstn]. f_equal. apply firstn_all2. rewrite length_firstn. lia.
Qed.

Lemma constraintsViolated_final_cell (p : GearTrainPermutations)
    (sh : list (option Shaft)) (c : nat) (s : Shaft) :
  (c < length sh)%nat -> c <> O ->
  constraintsViolated p (array_set c s sh) c
  = (l <- all_defined (firstn c sh) ;;
     let distance := pitchSum (module p) l in
     if Qgt_bool (minShaftDistance p) 0 && Qlt_bool distance (minShaftDistance p)
     then Some true
     else if Qgt_bool (maxShaftDistance p) 0 && Qgt_bool distance (maxShaftDistance p)
     then Some true
     else Some false).
Proof.
  intros Hc Hc0. unfold constraintsViolated.
  replace (c =? 0)%nat with false by (symmetry; apply Nat.eqb_neq; exact Hc0).
  rewrite firstn_array_set_next by exact Hc. rewrite all_defined_snoc.
  destruct (all_defined (firstn c sh)) as [l|]; [|reflexivity].
  cbn [option_map obind].
  rewrite shaftDistance_default_pitchSum, removelast_last. reflexivity.
Qed.

(** X7.  The distance constraint cannot tell the candidates for the
    final shaft apart: whatever shaft is written into cell
    [currentShaft], [constraintsViolated] gives the same answer (it is
    computed from the shafts before it). *)
Theorem constraintsViolated_ignores_current_shaft (p : GearTrainPermutations)
    (sh : list (option Shaft)) (c : nat) (s1 s2 : Shaft) :
  (c < length sh)%nat ->
  constraintsViolated p (array_set c s1 sh) c
  = constraintsViolated p (array_set c s2 sh) c.
Proof.
  intro Hc. destruct (Nat.eq_dec c 0) as [-> | Hc0]; [reflexivity|].
  rewrite !constraintsViolated_final_cell by assumption. reflexivity.
Qed.

Lemma constraintsViolated_ignores_current_shaft_witness :
  constraintsViolated demoEngine3
    (array_set 2 (Shaft_new 20 0 0%Q) [Some (Shaft_new 40 0 0%Q); Some (Shaft_new 20 30 0%Q); None]) 2
  = constraintsViolated demoEngine3
      (array_set 2 (Shaft_new 57 0 0%Q) [Some (Shaft_new 40 0 0%Q); Some (Shaft_new 20 30 0%Q); None]) 2.
Proof.
  apply (constraintsViolated_ignores_current_shaft demoEngine3).
  vm_compute. lia.
Defined.



(** ** The comparator as a sort order *)

Lemma compareGearTrains_value (a b : GearTrain) (target : Q) :
  compareGearTrains a b target
  = if Qeq_bool (deviation a target - deviation b target) 0
    then jsSub (maxForce a) (maxForce b)
    else Some (deviation a target - deviation b target)%Q.
Proof. reflexivity. Qed.

Lemma ordersBefore_rankedBefore (a b : GearTrain) (target : Q) :
  ordersBefore a b target <-> rankedBefore target a b.
Proof.
  unfold ordersBefore, rankedBefore, lowerForce.
  rewrite compareGearTrains_value.
  destruct (Qeq_bool (deviation a target - deviation b target) 0) eqn:E.
  - apply Qeq_bool_iff in E. split.
    + intros (r & Hr & Hneg). right. split; [lra|].
      destruct (maxForce a) as [fa|], (maxForce b) as [fb|];
        cbn in Hr; try discriminate.
      injection Hr as <-. exists fa, fb. repeat split. lra.
    + intros [Hlt | (_ & fa & fb & Ha & Hb & Hlt)]; [lra|].
      rewrite Ha, Hb. cbn. eexists; split; [reflexivity | lra].
  - apply Qeq_bool_neq in E. split.
    + intros (r & Hr & Hneg). injection Hr as <-. left. lra.
    + intros [Hlt | (Heq & _)].
      * eexists; split; [reflexivity | lra].
      * exfalso. apply E. lra.
Qed.

Lemma rankedBefore_trans (target : Q) (a b c : GearTrain) :
  rankedBefore target a b -> rankedBefore target b c -> rankedBefore target a c.
Proof.
  unfold rankedBefore, lowerForce.
  intros [H1 | (E1 & fa & fb & Ha & Hb & L1)] [H2 | (E2 & fb' & fc & Hb' & Hc & L2)].
  - left. lra.
  - left. lra.
  - left. lra.
  - right. split; [lra|]. exists fa, fc.
    assert (fb' = fb) by congruence. subst fb'. repeat split; auto. lra.
Qed.

(** X9.  [compareGearTrains] is a consistent comparator, as
    [Array.prototype.sort] needs: swapping the arguments negates the
    result, a train with a defined force compares as equal to itself,
    and "ranks before" is transitive and never holds in both orders. *)
Theorem compareGearTrains_consistent (target : Q) :
  (forall a b r,
     compareGearTrains a b target = Some r ->
     exists r', compareGearTrains b a target = Some r' /\ (r' == - r)%Q)
  /\ (forall a, hasForce a ->
        exists r, compareGearTrains a a target = Some r /\ (r == 0)%Q)
  /\ (forall a b c,
        ordersBefore a b target -> ordersBefore b c target ->
        ordersBefore a c target)
  /\ (forall a b, ordersBefore a b target -> ~ ordersBefore b a target).
Proof.
  split; [|split; [|split]].
  - intros a b r H. rewrite compareGearTrains_value in *.
    destruct (Qeq_bool (deviation a target - deviation b target) 0) eqn:E.
    + apply Qeq_bool_iff in E.
      replace (Qeq_bool (deviation b target - deviation a target) 0) with true
        by (symmetry; apply Qeq_bool_iff; lra).
      destruct (maxForce a) as [fa|], (maxForce b) as [fb|];
        cbn in H |- *; try discriminate.
      injection H as <-. eexists; split; [reflexivity | ring].
    + apply Qeq_bool_neq in E.
      destruct (Qeq_bool (deviation b target - deviation a target) 0) eqn:E'.
      * apply Qeq_bool_iff in E'. exfalso. apply E. lra.
      * injection H as <-. eexists; split; [reflexivity | ring].
  - intros a [m Hm]. rewrite compareGearTrains_value.
    replace (Qeq_bool (deviation a target - deviation a target) 0) with true
      by (symmetry; apply Qeq_bool_iff; ring).
    rewrite Hm. cbn. eexists; split; [reflexivity | ring].
  - intros a b c. rewrite !ordersBefore_rankedBefore. apply rankedBefore_trans.
  - intros a b. rewrite !ordersBefore_rankedBefore.
    unfold rankedBefore, lowerForce.
    intros [H1 | (E1 & fa & fb & Ha & Hb & L1)] [H2 | (E2 & fb' & fa' & Hb' & Ha' & L2)];
      try lra.
    assert (fb' = fb) by congruence. assert (fa' = fa) by congruence. subst. lra.
Qed.

Lemma compareGearTrains_consistent_witness :
  let a := GearTrain_new [Shaft_new 20 0 0%Q; Shaft_new 40 0 0%Q] in
  let b := GearTrain_new [Shaft_new 20 0 0%Q; Shaft_new 30 60 0%Q; Shaft_new 120 0 0%Q] in
  exists r', compareGearTrains b a 1 = Some r' /\ (r' == - (-24000 # 144000))%Q.
Proof.
  intros a b.
  apply (proj1 (compareGearTrains_consistent 1) a b (-24000 # 144000)).
  vm_compute. reflexivity.
Defined.

(** ** finalizeCalculation *)










(** ** setupCalculation *)

Lemma calculatePermutationCount_below_one (s g : Z) :
  s < 1 -> calculatePermutationCount s g = None.
Proof. intro H. apply calculatePermutationCount_diverges. exact H. Qed.

(** X11.  [setupCalculation] returns exactly when the engine has at
    least two shafts (with fewer, the permutation count never reaches its
    base case).  When it returns it has emptied the stack, zeroed the
    three counters and the first-shaft cursor and allocated [shaftCount]
    empty cells -- but it has kept the results already in [gearTrains]. *)
Theorem setupCalculation_returns_from_two_shafts (p : GearTrainPermutations) :
  (setupCalculation p = None <-> (shaftCount p < 2)%nat)
  /\ (forall s,
        setupCalculation p = Some s ->
        gearTrains s = gearTrains p
        /\ this_shafts s = repeat None (shaftCount p)
        /\ permutationStack s = [] /\ inputGearIndex s = O
        /\ foundSolutions s = 0 /\ skippedSolutions s = 0
        /\ discardedSolutions s = 0).
Proof.
  unfold setupCalculation. cbv zeta. simpl_fields. rewrite repeat_length.
  destruct (Nat.lt_ge_cases (shaftCount p) 2) as [Hlt | Hge].
  - rewrite !calculatePermutationCount_below_one by lia. cbn [obind].
    destruct (sharedInputGearSet p);
      (split; [split; [intros _; exact Hlt | reflexivity] | discriminate]).
  - rewrite !calculatePermutationCount_permCount by lia. cbn [obind].
    destruct (sharedInputGearSet p);
      (split;
       [split; [discriminate | lia]
       |intros s H; injection H as <-; simpl_fields; repeat split]).
Qed.

Lemma setupCalculation_returns_from_two_shafts_witness :
  setupCalculation (configure 1 true [] [20; 30] 1%Q 1%Q 0%Q 0%Q 0%Q 0%Q) = None
  /\ gearTrains demoReady = gearTrains demoEngine.
Proof.
  split.
  - apply (proj1 (setupCalculation_returns_from_two_shafts _)). vm_compute. lia.
  - apply (proj2 (setupCalculation_returns_from_two_shafts demoEngine) demoReady).
    vm_compute. reflexivity.
Defined.

(** ** The counters during a run *)

Lemma permCount_nonneg (k : nat) : forall g, 0 <= g -> 0 <= permCount k g.
Proof.
  induction k as [|k IH]; intros g Hg; [exact Hg|].
  rewrite permCount_succ.
  destruct (Z.eq_dec g 0) as [-> | Hg0]; [lia|].
  destruct (Z.eq_dec g 1) as [-> | Hg1].
  - specialize (IH 0 ltac:(lia)). cbn [Z.sub Z.opp Z.add Z.pos_sub] in *. lia.
  - pose proof (IH (g - 1) ltac:(lia)). pose proof (IH (g - 2) ltac:(lia)).
    apply Z.add_nonneg_nonneg; repeat apply Z.mul_nonneg_nonneg; lia.
Qed.

Lemma permCount_too_few (k : nat) :
  forall g, 0 <= g <= Z.of_nat k -> permCount k g = 0.
Proof.
  induction k as [|k IH]; intros g Hg; [cbn in *; lia|].
  rewrite permCount_succ.
  destruct (Z.eq_dec g 0) as [-> | Hg0]; [lia|].
  rewrite (IH (g - 1)) by lia.
  destruct (Z.eq_dec g 1) as [-> | Hg1]; [lia|].
  rewrite (IH (g - 2)) by lia. lia.
Qed.

Lemma calculatePermutationCount_nonneg (s g n : Z) :
  calculatePermutationCount s g = Some n -> 0 <= g -> 0 <= n.
Proof.
  intros H Hg. destruct (Z.lt_ge_cases s 1) as [Hs | Hs].
  - rewrite calculatePermutationCount_below_one in H by exact Hs. discriminate.
  - rewrite calculatePermutationCount_permCount in H by lia.
    injection H as <-. apply permCount_nonneg. exact Hg.
Qed.

Lemma countersGrow_refl (p : GearTrainPermutations) : countersGrow p p.
Proof. unfold countersGrow. lia. Qed.

Lemma countersGrow_trans (p1 p2 p3 : GearTrainPermutations) :
  countersGrow p1 p2 -> countersGrow p2 p3 -> countersGrow p1 p3.
Proof. unfold countersGrow. lia. Qed.

Lemma finalShaftBody_grow (avail : list Z) (c i : nat)
    (p p' : GearTrainPermutations) :
  finalShaftBody avail c i p = Some p' -> countersGrow p p'.
Proof.
  intro H. unfold finalShaftBody in H. cbv zeta in H.
  unfold registerGearTrain in H.
  break_match_in H; try discriminate; injection H as <-;
    unfold countersGrow; simpl_fields; try lia.
  match goal with
  | Hq : obind ?m _ = Some _ |- _ =>
      destruct m; cbn [obind] in Hq; [injection Hq as <-|discriminate]
  end.
  simpl_fields. lia.
Qed.

Lemma finalShaftLoop_grow (avail : list Z) (c n : nat) :
  forall (i : nat) (p p' : GearTrainPermutations),
  for_loop_throw_nat i n (finalShaftBody avail c) p = Some p' -> countersGrow p p'.
Proof.
  induction n as [|n IH]; intros i p p' H.
  - injection H as <-. apply countersGrow_refl.
  - cbn [for_loop_throw_nat] in H.
    destruct (finalShaftBody avail c i p) as [p1|] eqn:E; cbn [obind] in H;
      [|discriminate].
    apply countersGrow_trans with p1;
      [apply (finalShaftBody_grow _ _ _ _ _ E) | apply (IH _ _ _ H)].
Qed.

Lemma iterateShafts_grow (p p' : GearTrainPermutations) (b : bool) :
  iterateShafts p = Some (b, p') -> countersGrow p p'.
Proof.
  intro H.
  destruct (permutationStack p) as [|f rest] eqn:Estack.
  { unfold iterateShafts in H. rewrite Estack in H. injection H as _ <-.
    apply countersGrow_refl. }
  destruct (Z.eq_dec (Z.of_nat (currentShaft f)) (Z.of_nat (length (this_shafts p)) - 1))
    as [Hfin | Hnf].
  - rewrite (iterateShafts_final p f rest Estack Hfin) in H.
    destruct (for_loop_throw_nat _ _ _ _) as [p1|] eqn:Eloop; cbn [obind] in H;
      [|discriminate].
    injection H as _ <-. apply finalShaftLoop_grow in Eloop.
    unfold countersGrow in *. simpl_fields. exact Eloop.
  - pose proof (iterateShafts_nonfinal p f rest Estack Hnf) as Eq.
    cbv zeta in Eq. rewrite Eq in H. clear Eq.
    destruct (_ <=? _)%nat.
    { injection H as _ <-. unfold countersGrow. simpl_fields. lia. }
    destruct (skipsDuplicate _ _ _).
    + destruct (calculatePermutationCount _ _) as [n|] eqn:En; cbn [obind] in H;
        [|discriminate].
      apply calculatePermutationCount_nonneg in En; [|lia].
      injection H as _ <-. unfold countersGrow. simpl_fields. lia.
    + injection H as _ <-. unfold countersGrow. simpl_fields. lia.
Qed.

Lemma iterate_grow (p p' : GearTrainPermutations) (b : bool) :
  iterate p = Some (b, p') -> countersGrow p p'.
Proof.
  intro H. rewrite iterate_unfold in H.
  destruct (_ && _).
  { injection H as _ <-. apply countersGrow_refl. }
  destruct (0 <? length (permutationStack p))%nat.
  { apply (iterateShafts_grow p p' b H). }
  destruct (inputGearIndex p <? length (firstGearSet p))%nat.
  - apply countersGrow_trans with (afterSeed p).
    + rewrite afterSeed_fields. unfold countersGrow. simpl_fields. lia.
    + apply (iterateShafts_grow _ p' b H).
  - injection H as _ <-. apply countersGrow_refl.
Qed.

Lemma frameWeight_nonneg (N : nat) (f : PermutationStackFrame) :
  0 <= frameWeight N f.
Proof.
  unfold frameWeight. destruct (S (currentShaft f) =? N)%nat; [lia|].
  cbv zeta.
  set (g := length (availableGears f)).
  set (i := fst (nextCursor g (inputIndex f) (outputIndex f))).
  set (o := snd (nextCursor g (inputIndex f) (outputIndex f))).
  destruct (g <=? i)%nat eqn:Ei; [lia|]. apply Nat.leb_gt in Ei.
  assert (Ho : (o < g)%nat) by (apply nextCursor_output_lt; exact Ei).
  pose proof (permCount_nonneg (N - currentShaft f - 2) (Z.of_nat g - 1) ltac:(lia))
    as H1.
  set (singles := Z.of_nat g - Z.of_nat i - 1 + (if (o <=? i)%nat then 1 else 0)).
  set (pairs := (Z.of_nat g - Z.of_nat i) * Z.of_nat g - Z.of_nat o).
  assert (Hs : 0 <= singles) by (unfold singles; destruct (o <=? i)%nat; lia).
  assert (Hd : 0 <= pairs - singles).
  { unfold pairs, singles.
    destruct (o <=? i)%nat eqn:Eo;
      [apply Nat.leb_le in Eo | apply Nat.leb_gt in Eo]; nia. }
  apply Z.add_nonneg_nonneg; [apply Z.mul_nonneg_nonneg; assumption|].
  destruct (Z.eq_dec (Z.of_nat g) 1) as [Hg1 | Hg1].
  - assert (Hz : pairs - singles = 0).
    { unfold pairs, singles.
      replace (o <=? i)%nat with true by (symmetry; apply Nat.leb_le; lia). nia. }
    rewrite Hz. lia.
  - apply Z.mul_nonneg_nonneg; [exact Hd|]. apply permCount_nonneg. lia.
Qed.

Lemma stackWeight_nonneg (N : nat) (st : list PermutationStackFrame) :
  0 <= stackWeight N st.
Proof.
  induction st as [|f rest IH]; [reflexivity|].
  cbn [stackWeight]. pose proof (frameWeight_nonneg N f). lia.
Qed.

Lemma engineInv_bound (p : GearTrainPermutations) :
  engineInv p ->
  foundSolutions p + skippedSolutions p + discardedSolutions p <= permutationCount p.
Proof.
  intros (_ & _ & _ & _ & _ & Hsum).
  pose proof (stackWeight_nonneg (shaftCount p) (permutationStack p)) as Hw.
  assert (Hseed : 0 <= Z.of_nat (seedsLeft p)
                       * permCount (shaftCount p - 2) (seedPoolSize p)).
  { unfold seedsLeft, firstGearSet, seedPoolSize.
    destruct (sharedInputGearSet p).
    - destruct (changeGearSet p) as [|x l] eqn:E; [cbn; lia|].
      apply Z.mul_nonneg_nonneg; [lia|]. apply permCount_nonneg. cbn [length]. lia.
    - apply Z.mul_nonneg_nonneg; [lia|]. apply permCount_nonneg. lia. }
  lia.
Qed.

Lemma iterate_calls_run (n : nat) :
  forall (p p' : GearTrainPermutations) (flags : list bool),
  engineInv p -> iterate_calls n p = Some (flags, p') ->
  engineInv p' /\ countersGrow p p' /\ permutationCount p' = permutationCount p.
Proof.
  induction n as [|n IH]; intros p p' flags Hinv H.
  - injection H as _ <-. split; [exact Hinv|]. split; [apply countersGrow_refl|].
    reflexivity.
  - cbn [iterate_calls] in H.
    destruct (iterate p) as [[b1 p1]|] eqn:E; cbn [obind fst snd] in H;
      [|discriminate].
    destruct (iterate_calls n p1) as [[fl p2]|] eqn:E2; cbn [obind fst snd] in H;
      [|discriminate].
    injection H as _ <-.
    destruct (IH p1 p2 fl (iterate_preserves p p1 b1 Hinv E) E2)
      as (Hinv2 & Hgrow2 & Hpc2).
    destruct (iterate_extends p p1 b1 E) as (_ & Hpc1 & _).
    split; [exact Hinv2|]. split.
    + apply countersGrow_trans with p1; [apply (iterate_grow p p1 b1 E) | exact Hgrow2].
    + congruence.
Qed.

(** X12.  No call of [iterate] lowers a counter, and throughout a run
    started by [setupCalculation] (at least two shafts, no earlier
    results) the three counters are non-negative and their sum never
    exceeds [permutationCount], which stays what [setupCalculation]
    computed: the progress shown from them never passes 100%. *)
Theorem progress_never_exceeds_total :
  (forall (p p' : GearTrainPermutations) (b : bool),
     iterate p = Some (b, p') ->
     foundSolutions p <= foundSolutions p'
     /\ skippedSolutions p <= skippedSolutions p'
     /\ discardedSolutions p <= discardedSolutions p')
  /\ (forall (p s p' : GearTrainPermutations) (n : nat) (flags : list bool),
        (2 <= shaftCount p)%nat -> gearTrains p = [] ->
        setupCalculation p = Some s ->
        iterate_calls n s = Some (flags, p') ->
        0 <= foundSolutions p' /\ 0 <= skippedSolutions p'
        /\ 0 <= discardedSolutions p'
        /\ foundSolutions p' + skippedSolutions p' + discardedSolutions p'
           <= permutationCount p'
        /\ permutationCount p' = permutationCount s).
Proof.
  split.
  - intros p p' b H. apply (iterate_grow p p' b H).
  - intros p s p' n flags HN Htr Hs Hrun.
    destruct (setupCalculation_establishes p HN Htr)
      as (s' & Hs' & Hinv & _ & Hf & Hsk & Hd & _).
    assert (s' = s) by congruence. subst s'.
    destruct (iterate_calls_run n s p' flags Hinv Hrun) as (Hinv' & Hgrow & Hpc).
    pose proof (engineInv_bound p' Hinv') as Hbound.
    unfold countersGrow in Hgrow. repeat split; try lia.
Qed.

Lemma progress_never_exceeds_total_witness :
  0 <= foundSolutions demoAfter3 /\ 0 <= skippedSolutions demoAfter3
  /\ 0 <= discardedSolutions demoAfter3
  /\ foundSolutions demoAfter3 + skippedSolutions demoAfter3
     + discardedSolutions demoAfter3
     <= permutationCount demoAfter3
  /\ permutationCount demoAfter3 = permutationCount demoReady.
Proof.
  apply (proj2 progress_never_exceeds_total demoEngine demoReady demoAfter3 3%nat
           [false; false; false]).
  - vm_compute. lia.
  - reflexivity.
  - vm_compute. reflexivity.
  - vm_compute. reflexivity.
Defined.

(** X13.  Too few gears, no results.  When the pool the first frame
    starts from holds fewer gears than there are shafts left to fill,
    [setupCalculation] computes a total of 0 and no call of [iterate]
    ever registers a train. *)
Theorem too_few_gears_no_results (p s : GearTrainPermutations) :
  (2 <= shaftCount p)%nat -> gearTrains p = [] ->
  seedPoolSize p < Z.of_nat (shaftCount p) - 1 ->
  setupCalculation p = Some s ->
  permutationCount s = 0
  /\ forall (n : nat) (flags : list bool) (p' : GearTrainPermutations),
       iterate_calls n s = Some (flags, p') ->
       gearTrains p' = [] /\ foundSolutions p' = 0.
Proof.
  intros HN Htr Hfew Hs.
  destruct (setupCalculation_establishes p HN Htr)
    as (s' & Hs' & Hinv & Hcount & Hf & Hsk & Hd & _).
  assert (s' = s) by congruence. subst s'.
  assert (Hzero : permutationCount s = 0).
  { rewrite Hcount. unfold seedPoolSize, firstGearSet in *.
    destruct (sharedInputGearSet p).
    - destruct (changeGearSet p) as [|x l]; [reflexivity|].
      rewrite permCount_too_few; [lia|]. cbn [length] in *. lia.
    - rewrite permCount_too_few; lia. }
  split; [exact Hzero|].
  intros n flags p' Hrun.
  destruct (iterate_calls_run n s p' flags Hinv Hrun) as (Hinv' & Hgrow & Hpc).
  pose proof (engineInv_bound p' Hinv') as Hbound.
  destruct Hinv' as (_ & _ & _ & _ & Hlen & _).
  unfold countersGrow in Hgrow.
  assert (Hfound : foundSolutions p' = 0) by lia.
  split; [|exact Hfound].
  destruct (gearTrains p'); [reflexivity | cbn [length] in Hlen; lia].
Qed.

Lemma too_few_gears_no_results_witness :
  permutationCount demoFewReady = 0
  /\ forall (n : nat) (flags : list bool) (p' : GearTrainPermutations),
       iterate_calls n demoFewReady = Some (flags, p') ->
       gearTrains p' = [] /\ foundSolutions p' = 0.
Proof.
  apply (too_few_gears_no_results demoFew demoFewReady).
  - vm_compute. lia.
  - reflexivity.
  - vm_compute. reflexivity.
  - vm_compute. reflexivity.
Defined.

(** ** The shape of the results *)

Lemma firstn_array_set_le {A : Type} (c' c : nat) (v : A) (l : list (option A)) :
  (c' <= c)%nat -> (c < length l)%nat ->
  firstn c' (array_set c v l) = firstn c' l.
Proof.
  intros Hle Hc.
  replace c' with (Nat.min c' c) by lia.
  rewrite <- !firstn_firstn. rewrite firstn_array_set_same by exact Hc.
  reflexivity.
Qed.

Lemma array_get_firstn {A : Type} (j c : nat) (l : list (option A)) :
  (j < c)%nat -> array_get j (firstn c l) = array_get j l.
Proof.
  intro H. unfold array_get. rewrite nth_error_firstn.
  replace (j <? c)%nat with true by (symmetry; apply Nat.ltb_lt; lia).
  reflexivity.
Qed.

Lemma array_get_same_prefix {A : Type} (j c : nat) (l l' : list (option A)) :
  firstn c l' = firstn c l -> (j < c)%nat -> array_get j l' = array_get j l.
Proof.
  intros E H. rewrite <- (array_get_firstn j c l'), <- (array_get_firstn j c l) by lia.
  now rewrite E.
Qed.

Lemma splice1_perm {A : Type} (i : nat) (l : list A) (d : A) :
  (i < length l)%nat -> Permutation (nth i l d :: splice1 i l) l.
Proof.
  revert i. induction l as [|x l IH]; intros i H; [cbn in H; lia|].
  destruct i as [|i]; [reflexivity|].
  cbn [nth]. unfold splice1 in *. cbn [firstn skipn app].
  rewrite perm_swap. constructor. apply IH. cbn in H. lia.
Qed.

Lemma nth_splice1 {A : Type} (i j : nat) (l : list A) (d : A) :
  nth j (splice1 i l) d = if (j <? i)%nat then nth j l d else nth (S j) l d.
Proof.
  revert i j. induction l as [|x l IH]; intros i j.
  - unfold splice1. rewrite firstn_nil, skipn_nil. cbn [app].
    destruct (j <? i)%nat; destruct j; reflexivity.
  - destruct i as [|i].
    + unfold splice1. cbn [firstn skipn app]. reflexivity.
    + destruct j as [|j]; [reflexivity|].
      change (splice1 (S i) (x :: l)) with (x :: splice1 i l).
      cbn [nth]. rewrite IH.
      change (S j <? S i)%nat with (j <? i)%nat. reflexivity.
Qed.

Lemma Shaft_new_gears (i o : Z) (sp : Q) :
  shaftGears (Shaft_new i o sp) = if 0 <? o then [i; o] else [i].
Proof. unfold Shaft_new, shaftGears. destruct (0 <? o); reflexivity. Qed.

Lemma Shaft_new_wellFormed (i o : Z) (sp : Q) : wellFormedShaft (Shaft_new i o sp).
Proof.
  unfold Shaft_new, wellFormedShaft. destruct (0 <? o) eqn:E; cbn.
  - right. apply Z.ltb_lt in E. auto.
  - left. auto.
Qed.

(** The gears of the new shaft and the pool left over are taken out of
    the pool of the frame. *)
Lemma remainingAfter_conserve (avail : list Z) (i o : nat) (sp : Q) :
  (i < length avail)%nat -> (o < length avail)%nat ->
  exists e,
    Permutation
      (remainingAfter avail i o
       ++ shaftGears (Shaft_new (nth i avail 0) (chosenOutputGear avail i o) sp)
       ++ e)
      avail.
Proof.
  intros Hi Ho. rewrite Shaft_new_gears.
  unfold remainingAfter, chosenOutputGear.
  pose proof (splice1_perm i avail 0 Hi) as Pi.
  destruct (i =? o)%nat eqn:E.
  - exists []. cbn [Z.ltb Z.compare app].
    apply Permutation_trans with (nth i avail 0 :: splice1 i avail); [|exact Pi].
    apply Permutation_sym, Permutation_cons_append.
  - apply Nat.eqb_neq in E.
    assert (Hout : exists o',
               (o' < length (splice1 i avail))%nat
               /\ nth o' (splice1 i avail) 0 = nth o avail 0
               /\ (if (o <? i)%nat then splice1 o (splice1 i avail)
                   else splice1 (o - 1) (splice1 i avail))
                  = splice1 o' (splice1 i avail)).
    { destruct (o <? i)%nat eqn:E2.
      - apply Nat.ltb_lt in E2. exists o. rewrite splice1_length by lia.
        split; [lia|]. split; [|reflexivity].
        rewrite nth_splice1.
        replace (o <? i)%nat with true by (symmetry; apply Nat.ltb_lt; lia).
        reflexivity.
      - apply Nat.ltb_ge in E2. exists (o - 1)%nat. rewrite splice1_length by lia.
        split; [lia|]. split; [|reflexivity].
        rewrite nth_splice1.
        replace (o - 1 <? i)%nat with false by (symmetry; apply Nat.ltb_ge; lia).
        f_equal. lia. }
    destruct Hout as (o' & Ho' & Hnth & Heq).
    replace (if (o <? i)%nat then splice1 o (splice1 i avail)
             else splice1 (o - 1) (splice1 i avail))
      with (splice1 o' (splice1 i avail))
      by (destruct (o <? i)%nat; symmetry; exact Heq).
    pose proof (splice1_perm o' (splice1 i avail) 0 Ho') as Po.
    rewrite Hnth in Po.
    assert (Pall : Permutation
                     (splice1 o' (splice1 i avail) ++ [nth i avail 0; nth o avail 0])
                     avail).
    { apply Permutation_trans
        with (nth i avail 0 :: nth o avail 0 :: splice1 o' (splice1 i avail)).
      - apply (Permutation_app_comm _ [nth i avail 0; nth o avail 0]).
      - apply Permutation_trans with (nth i avail 0 :: splice1 i avail);
          [constructor; exact Po | exact Pi]. }
    destruct (0 <? nth o avail 0).
    + exists []. rewrite app_nil_r. exact Pall.
    + exists [nth o avail 0]. exact Pall.
Qed.

Lemma indexOf_spec (x : Z) (l : list Z) (j : nat) :
  indexOf x l = Some j -> nth j l 0 = x.
Proof.
  revert j. induction l as [|y l IH]; intros j H; [discriminate|].
  cbn [indexOf] in H. destruct (y =? x) eqn:E.
  - injection H as <-. apply Z.eqb_eq in E. exact E.
  - destruct (indexOf x l) as [k|]; [|discriminate].
    injection H as <-. cbn [nth]. apply IH. reflexivity.
Qed.

Lemma all_defined_map_Some {A : Type} (l : list (option A)) (r : list A) :
  all_defined l = Some r -> l = map Some r.
Proof.
  revert r. induction l as [|x l IH]; intros r H.
  - injection H as <-. reflexivity.
  - cbn [all_defined] in H. destruct x as [a|]; [|discriminate]. cbn [obind] in H.
    destruct (all_defined l) as [r'|]; [|discriminate]. cbn [obind] in H.
    injection H as <-. cbn [map]. f_equal. apply IH. reflexivity.
Qed.

Lemma flat_map_cellGears_Some (r : list Shaft) :
  flat_map cellGears (map Some r) = flat_map shaftGears r.
Proof. induction r as [|s r IH]; [reflexivity|]. cbn. now rewrite IH. Qed.

Lemma stackOk_bound (N G : nat) (st : list PermutationStackFrame) :
  stackOk N G st -> Forall (fun f => (currentShaft f <= length st)%nat) st.
Proof.
  induction st as [|f rest IH]; intro H; [constructor|].
  cbn [stackOk] in H. destruct H as (Hc & _ & _ & Hrest).
  constructor; [cbn [length]; lia|].
  apply (Forall_impl _ (fun a Ha => Nat.le_trans _ _ _ Ha (Nat.le_succ_diag_r _))).
  apply IH. exact Hrest.
Qed.

Lemma committed_same_prefix (p : GearTrainPermutations) (c' c : nat)
    (sh sh' : list (option Shaft)) :
  firstn c sh' = firstn c sh -> (c' <= c)%nat ->
  committed p c' sh' = committed p c' sh.
Proof.
  intros E Hle. unfold committed.
  replace c' with (Nat.min c' c) by lia.
  rewrite <- !firstn_firstn. now rewrite E.
Qed.

Lemma frames_same_prefix (p : GearTrainPermutations) (c : nat)
    (sh sh' : list (option Shaft)) (st : list PermutationStackFrame) :
  firstn c sh' = firstn c sh ->
  Forall (fun f => (currentShaft f <= c)%nat) st ->
  Forall (frameConserves p sh) st -> Forall (frameConserves p sh') st.
Proof.
  intros E Hb H. induction H as [|f st Hf H IH]; [constructor|].
  inversion Hb as [|? ? Hbf Hb']; subst.
  constructor; [|apply IH; exact Hb'].
  unfold frameConserves in *.
  rewrite (committed_same_prefix p (currentShaft f) c sh sh' E Hbf). exact Hf.
Qed.

(** One round of the final-shaft loop, seen from the results. *)
Lemma finalShaftBody_trains (avail : list Z) (c i : nat)
    (p p' : GearTrainPermutations) :
  length (this_shafts p) = S c -> (i < length avail)%nat ->
  finalShaftBody avail c i p = Some p' ->
  exists sh g f s d,
    p' = withResults p sh g f s d
    /\ length sh = S c
    /\ firstn c sh = firstn c (this_shafts p)
    /\ (forall v, array_get c sh = Some v ->
        array_get c (this_shafts p) = Some v
        \/ exists x, v = Shaft_new x 0 (this_spacerSize p))
    /\ exists new, g = gearTrains p ++ new /\ Forall (finishedFrom p avail c) new.
Proof.
  intros Hlen Hi H. unfold finalShaftBody in H.
  destruct ((0 <? i)%nat && (nth (i - 1) avail 0 =? nth i avail 0)).
  { injection H as <-.
    exists (this_shafts p), (gearTrains p), (foundSolutions p),
      (skippedSolutions p + 1), (discardedSolutions p).
    repeat split; auto.
    exists []. rewrite app_nil_r. split; [reflexivity | constructor]. }
  cbv zeta in H.
  set (v := Shaft_new (nth i avail 0) 0 (this_spacerSize p)) in *.
  set (sh := array_set c v (this_shafts p)) in *.
  assert (Hsh : length sh = S c) by (unfold sh; rewrite array_set_length; lia).
  assert (Hpre : firstn c sh = firstn c (this_shafts p))
    by (unfold sh; apply firstn_array_set_same; lia).
  assert (Hcell : forall w, array_get c (array_set c v (this_shafts p)) = Some w ->
                    array_get c (this_shafts p) = Some w
                    \/ exists x, w = Shaft_new x 0 (this_spacerSize p)).
  { intros w Hw. rewrite array_get_set_same in Hw by lia.
    injection Hw as <-. right. eexists. reflexivity. }
  destruct (constraintsViolated (set_shafts p sh) (this_shafts (set_shafts p sh)) c)
    as [[|]|]; cbn [obind] in H; [| |discriminate].
  { injection H as <-. simpl_fields.
    exists sh, (gearTrains p), (foundSolutions p),
      (skippedSolutions p + 1), (discardedSolutions p).
    repeat split; auto; try exact Hcell.
    exists []. rewrite app_nil_r. split; [reflexivity | constructor]. }
  destruct (c =? 0)%nat eqn:Ec; cbn [obind] in H; [discriminate|].
  simpl_fields.
  destruct (array_get (c - 1) sh) as [input|]; cbn [obind] in H; [|discriminate].
  destruct (array_get c sh) as [output|]; cbn [obind] in H; [|discriminate].
  destruct (shaftsInterfere input output (addendum p)); cbn [negb] in H.
  { injection H as <-. simpl_fields.
    exists sh, (gearTrains p), (foundSolutions p),
      (skippedSolutions p), (discardedSolutions p + 1).
    repeat split; auto; try exact Hcell.
    exists []. rewrite app_nil_r. split; [reflexivity | constructor]. }
  unfold registerGearTrain in H. simpl_fields.
  destruct (all_defined sh) as [l|] eqn:El; cbn [obind] in H; [|discriminate].
  injection H as <-. simpl_fields.
  exists sh, (gearTrains p ++ [GearTrain_new l]), (foundSolutions p + 1),
    (skippedSolutions p), (discardedSolutions p).
  repeat split; auto; try exact Hcell.
  exists [GearTrain_new l]. split; [reflexivity|].
  constructor; [|constructor].
  assert (Esh : sh = firstn c (this_shafts p) ++ [Some v]).
  { rewrite <- (firstn_all2 sh (n := c + 1)) by lia.
    unfold sh. apply firstn_array_set_next. lia. }
  rewrite Esh, all_defined_snoc in El.
  destruct (all_defined (firstn c (this_shafts p))) as [pre|] eqn:Epre;
    [|discriminate].
  cbn [option_map] in El. injection El as <-.
  exists (nth i avail 0), pre. split; [apply nth_In; exact Hi|].
  split; [exact Epre | reflexivity].
Qed.

Lemma finishedFrom_withResults (p : GearTrainPermutations) (avail : list Z) (c : nat)
    sh g f s d (t : GearTrain) :
  firstn c sh = firstn c (this_shafts p) ->
  finishedFrom (withResults p sh g f s d) avail c t -> finishedFrom p avail c t.
Proof.
  intros E (x & pre & Hx & Hpre & Ht). exists x, pre. simpl_fields.
  rewrite E in Hpre. auto.
Qed.

Lemma finalShaftLoop_trains (avail : list Z) (c n : nat) :
  forall (i : nat) (p p' : GearTrainPermutations),
  length (this_shafts p) = S c -> (i + n <= length avail)%nat ->
  for_loop_throw_nat i n (finalShaftBody avail c) p = Some p' ->
  exists sh g f s d,
    p' = withResults p sh g f s d
    /\ length sh = S c
    /\ firstn c sh = firstn c (this_shafts p)
    /\ (forall v, array_get c sh = Some v ->
        array_get c (this_shafts p) = Some v
        \/ exists x, v = Shaft_new x 0 (this_spacerSize p))
    /\ exists new, g = gearTrains p ++ new /\ Forall (finishedFrom p avail c) new.
Proof.
  induction n as [|n IH]; intros i p p' Hlen Hin H.
  - injection H as <-.
    exists (this_shafts p), (gearTrains p), (foundSolutions p),
      (skippedSolutions p), (discardedSolutions p).
    repeat split; auto.
    + destruct p; reflexivity.
    + exists []. rewrite app_nil_r. split; [reflexivity | constructor].
  - cbn [for_loop_throw_nat] in H.
    destruct (finalShaftBody avail c i p) as [p1|] eqn:E1; cbn [obind] in H;
      [|discriminate].
    assert (Hi : (i < length avail)%nat) by lia.
    destruct (finalShaftBody_trains _ _ _ _ _ Hlen Hi E1)
      as (sh1 & g1 & f1 & s1 & d1 & -> & Hl1 & Hp1 & Hc1 & new1 & -> & Hn1).
    apply IH in H; [|exact Hl1|lia].
    destruct H
      as (sh2 & g2 & f2 & s2 & d2 & -> & Hl2 & Hp2 & Hc2 & new2 & -> & Hn2).
    simpl_fields.
    exists sh2, ((gearTrains p ++ new1) ++ new2), f2, s2, d2.
    repeat split; auto.
    + congruence.
    + intros v Hv. destruct (Hc2 v Hv) as [Hold | Hnew]; [|right; exact Hnew].
      apply Hc1. exact Hold.
    + exists (new1 ++ new2). split; [now rewrite app_assoc|].
      apply Forall_app. split; [exact Hn1|].
      apply (Forall_impl _ (fun t Ht =>
               finishedFrom_withResults p avail c _ _ _ _ _ t Hp1 Ht) Hn2).
Qed.

Lemma sameConfig_refl (p : GearTrainPermutations) : sameConfig p p.
Proof. repeat split. Qed.

Lemma sameConfig_trans (p1 p2 p3 : GearTrainPermutations) :
  sameConfig p1 p2 -> sameConfig p2 p3 -> sameConfig p1 p3.
Proof.
  unfold sameConfig. intros (A1 & A2 & A3 & A4 & A5 & A6 & A7)
    (B1 & B2 & B3 & B4 & B5 & B6 & B7).
  repeat split; congruence.
Qed.

Lemma frameConserves_sameConfig (p p' : GearTrainPermutations)
    (sh : list (option Shaft)) (f : PermutationStackFrame) :
  sameConfig p p' -> frameConserves p sh f -> frameConserves p' sh f.
Proof.
  intros (_ & Hc & _ & Hs & _).
  unfold frameConserves, withinPool, committed, firstChangeShaft.
  rewrite Hc, Hs. auto.
Qed.

Lemma trainOk_sameConfig (p p' : GearTrainPermutations) (t : GearTrain) :
  sameConfig p p' -> trainOk p t -> trainOk p' t.
Proof.
  intros (H1 & H2 & H3 & H4 & H5 & H6 & _).
  unfold trainOk, withinPool, firstChangeShaft, firstGearSet.
  rewrite H1, H2, H3, H4, H5, H6. auto.
Qed.

(** The invariant in terms of the old configuration. *)
Lemma shapeInv_intro (p p' : GearTrainPermutations) :
  sameConfig p p' -> engineInv p' ->
  Forall (frameConserves p (this_shafts p')) (permutationStack p') ->
  (permutationStack p' <> [] ->
   exists g,
     In g (firstGearSet p)
     /\ array_get 0 (this_shafts p') = Some (Shaft_new g 0 (inputAdjacentSize p))) ->
  (forall j s, array_get j (this_shafts p') = Some s -> wellFormedShaft s) ->
  Forall (trainOk p) (gearTrains p') ->
  shapeInv p'.
Proof.
  intros Hcfg Hinv Hfr Hfirst Hcells Htr.
  split; [exact Hinv|]. split; [|split; [|split]].
  - apply (Forall_impl _ (fun f Hf =>
             frameConserves_sameConfig p p' _ f Hcfg Hf) Hfr).
  - intro Hne. destruct (Hfirst Hne) as (g & Hg & Hcell).
    destruct Hcfg as (_ & H2 & H3 & H4 & _ & H6 & _).
    exists g. unfold firstGearSet in *. rewrite H2, H3, H4, H6. auto.
  - exact Hcells.
  - apply (Forall_impl _ (fun t Ht => trainOk_sameConfig p p' t Hcfg Ht) Htr).
Qed.

Lemma array_get_beyond {A : Type} (j : nat) (l : list (option A)) :
  (length l <= j)%nat -> array_get j l = None.
Proof.
  intro H. unfold array_get.
  replace (nth_error l j) with (@None (option A))
    by (symmetry; apply nth_error_None; exact H).
  reflexivity.
Qed.

Lemma array_get_firstn_Some {A : Type} (j c : nat) (l : list (option A)) (v : A) :
  array_get j (firstn c l) = Some v -> array_get j l = Some v.
Proof.
  unfold array_get. rewrite nth_error_firstn.
  destruct (j <? c)%nat; [auto | discriminate].
Qed.

Lemma committed_next (p : GearTrainPermutations) (c : nat) (v : Shaft)
    (sh : list (option Shaft)) :
  (c < length sh)%nat -> (firstChangeShaft p <= c)%nat ->
  committed p (c + 1) (array_set c v sh) = committed p c sh ++ shaftGears v.
Proof.
  intros Hc Hk. unfold committed.
  rewrite firstn_array_set_next by exact Hc.
  rewrite skipn_app, flat_map_app.
  replace (firstChangeShaft p - length (firstn c sh))%nat with O
    by (rewrite length_firstn; lia).
  cbn [skipn flat_map cellGears]. rewrite app_nil_r. reflexivity.
Qed.

Lemma withinPool_replace (p : GearTrainPermutations) (a a' cm g e : list Z) :
  Permutation (a' ++ g ++ e) a ->
  withinPool p (a ++ cm) -> withinPool p (a' ++ cm ++ g).
Proof.
  intros Hperm [r Hr]. exists (e ++ r).
  rewrite <- Hr, <- Hperm.
  rewrite <- !app_assoc. apply Permutation_app_head.
  rewrite (app_assoc g e). rewrite (app_assoc g e).
  rewrite Permutation_app_swap_app. rewrite <- !app_assoc. reflexivity.
Qed.

Lemma withinPool_take (p : GearTrainPermutations) (avail cm : list Z) (x : Z) :
  In x avail -> withinPool p (avail ++ cm) -> withinPool p (cm ++ [x]).
Proof.
  intros Hin [r Hr]. apply in_split in Hin. destruct Hin as (a1 & a2 & ->).
  exists (a1 ++ a2 ++ r). rewrite <- Hr.
  rewrite <- !app_assoc. cbn [app].
  rewrite <- Permutation_middle. rewrite <- Permutation_middle.
  constructor. rewrite (app_assoc a1 a2). rewrite (app_assoc a1 a2 (cm ++ r)).
  apply Permutation_app_swap_app.
Qed.

Lemma withinPool_In (p : GearTrainPermutations) (gears : list Z) (x : Z) :
  withinPool p gears -> In x gears -> In x (changeGearSet p).
Proof.
  intros [r Hr] Hin. apply (Permutation_in _ Hr). apply in_or_app. left. exact Hin.
Qed.

(** A train the final-shaft loop registers has the expected shape. *)
Lemma finishedFrom_trainOk (p : GearTrainPermutations) (avail : list Z) (c : nat)
    (g0 : Z) (t : GearTrain) :
  length (this_shafts p) = S c -> S c = shaftCount p -> c <> O ->
  In g0 (firstGearSet p) ->
  array_get 0 (this_shafts p) = Some (Shaft_new g0 0 (inputAdjacentSize p)) ->
  (forall j s, array_get j (this_shafts p) = Some s -> wellFormedShaft s) ->
  withinPool p (avail ++ committed p c (this_shafts p)) ->
  finishedFrom p avail c t -> trainOk p t.
Proof.
  intros Hlen HN Hc Hg0 Hcell0 Hcells Hpool (x & pre & Hx & Hpre & ->).
  destruct (all_defined_Some _ _ Hpre) as [Hlpre Hget].
  rewrite length_firstn in Hlpre.
  assert (Hlen_pre : length pre = c) by lia.
  assert (Hk : (firstChangeShaft p <= c)%nat)
    by (unfold firstChangeShaft; destruct (sharedInputGearSet p); lia).
  exists (pre ++ [Shaft_new x 0 (this_spacerSize p)]), g0, x.
  split; [reflexivity|]. split; [rewrite length_app; cbn [length]; lia|].
  split.
  { pose proof (Hget O) as H0. rewrite array_get_firstn in H0 by lia.
    rewrite Hcell0 in H0. destruct pre as [|s0 pre']; [discriminate|].
    cbn in H0 |- *. congruence. }
  split; [exact Hg0|]. split.
  { rewrite nth_error_app2 by lia.
    replace (shaftCount p - 1 - length pre)%nat with O by lia. reflexivity. }
  split.
  { apply (withinPool_In p _ x Hpool). apply in_or_app. left. exact Hx. }
  split.
  { apply Forall_app. split; [|constructor; [apply Shaft_new_wellFormed|constructor]].
    apply Forall_forall. intros s Hs.
    apply In_nth_error in Hs. destruct Hs as [j Hj].
    rewrite <- Hget in Hj. apply array_get_firstn_Some in Hj.
    apply (Hcells j s Hj). }
  rewrite skipn_app, flat_map_app.
  replace (firstChangeShaft p - length pre)%nat with O by lia.
  cbn [skipn flat_map]. rewrite app_nil_r, Shaft_new_gears. cbn [Z.ltb Z.compare].
  assert (Hcm : committed p c (this_shafts p)
                = flat_map shaftGears (skipn (firstChangeShaft p) pre)).
  { unfold committed. rewrite (all_defined_map_Some _ _ Hpre).
    rewrite skipn_map. apply flat_map_cellGears_Some. }
  rewrite <- Hcm. apply (withinPool_take p avail _ x Hx Hpool).
Qed.

Lemma array_set_cells_wellFormed (c : nat) (v : Shaft) (sh : list (option Shaft)) :
  (c < length sh)%nat -> wellFormedShaft v ->
  (forall j s, array_get j sh = Some s -> wellFormedShaft s) ->
  forall j s, array_get j (array_set c v sh) = Some s -> wellFormedShaft s.
Proof.
  intros Hc Hv Hcells j s Hj. destruct (Nat.eq_dec c j) as [<- | Hne].
  - rewrite array_get_set_same in Hj by exact Hc. injection Hj as <-. exact Hv.
  - rewrite array_get_set_other in Hj by assumption. apply (Hcells j s Hj).
Qed.

(** A step on a non-empty stack keeps the shape invariant. *)
Lemma iterateShafts_shape (p p' : GearTrainPermutations) (b : bool) :
  shapeInv p -> permutationStack p <> [] ->
  iterateShafts p = Some (b, p') -> shapeInv p'.
Proof.
  intros (Hinv & Hfr & Hfirst & Hcells & Htrains) Hne H.
  pose proof (iterateShafts_preserves p p' b Hinv Hne H) as Hinv'.
  destruct Hinv as (Hlen & HN & Hst & Hdef & _).
  destruct (permutationStack p) as [|f rest] eqn:Estack; [congruence|].
  cbn [stackOk] in Hst. destruct Hst as (Hc & HcN & HG & Hrest).
  assert (Hb : Forall (fun f' => (currentShaft f' <= currentShaft f)%nat) rest).
  { apply Forall_impl with (P := fun a => (currentShaft a <= length rest)%nat);
      [intros a Ha; lia | apply (stackOk_bound _ _ _ Hrest)]. }
  inversion Hfr as [|? ? Hf Hfr']; subst.
  destruct Hfirst as (g0 & Hg0 & Hcell0); [discriminate|].
  destruct (Z.eq_dec (Z.of_nat (currentShaft f)) (Z.of_nat (length (this_shafts p)) - 1))
    as [Hfin | Hnf].
  - (* the final shaft *)
    rewrite (iterateShafts_final p f rest Estack Hfin) in H.
    destruct (for_loop_throw_nat _ _ _ _) as [p1|] eqn:Eloop; cbn [obind] in H;
      [|discriminate].
    injection H as _ <-.
    apply finalShaftLoop_trains in Eloop; [|simpl_fields; lia|lia].
    destruct Eloop as (sh & g & f1 & s1 & d1 & -> & Hl & Hpre & Hnewcell & new & -> & Hnew).
    simpl_fields.
    apply (shapeInv_intro p); [repeat split | exact Hinv' | | | |]; simpl_fields.
    + apply (frames_same_prefix p (currentShaft f) (this_shafts p) sh rest Hpre Hb Hfr').
    + intros _. exists g0. split; [exact Hg0|].
      rewrite (array_get_same_prefix 0 (currentShaft f) (this_shafts p) sh Hpre)
        by lia.
      exact Hcell0.
    + intros j s Hj.
      destruct (Nat.lt_trichotomy j (currentShaft f)) as [Hlt | [-> | Hgt]].
      * rewrite (array_get_same_prefix j (currentShaft f) (this_shafts p) sh Hpre)
          in Hj by exact Hlt.
        apply (Hcells j s Hj).
      * destruct (Hnewcell s Hj) as [Hold | [x ->]];
          [apply (Hcells _ s Hold) | apply Shaft_new_wellFormed].
      * rewrite array_get_beyond in Hj by lia. discriminate.
    + apply Forall_app. split; [exact Htrains|].
      assert (H1 : length (this_shafts p) = S (currentShaft f)) by lia.
      assert (H2 : S (currentShaft f) = shaftCount p) by lia.
      assert (H3 : currentShaft f <> O) by lia.
      apply (Forall_impl _ (fun t (Ht : finishedFrom (set_permutationStack p rest)
                                          (availableGears f) (currentShaft f) t) =>
               finishedFrom_trainOk p (availableGears f) (currentShaft f) g0 t
                 H1 H2 H3 Hg0 Hcell0 Hcells Hf Ht) Hnew).
  - (* an earlier shaft *)
    pose proof (iterateShafts_nonfinal p f rest Estack Hnf) as Eq.
    cbv zeta in Eq. rewrite Eq in H. clear Eq.
    set (avail := availableGears f) in *.
    set (c := currentShaft f) in *.
    set (i := fst (nextCursor (length avail) (inputIndex f) (outputIndex f))) in *.
    set (o := snd (nextCursor (length avail) (inputIndex f) (outputIndex f))) in *.
    set (v := Shaft_new (nth i avail 0) (chosenOutputGear avail i o)
                (this_spacerSize p)) in *.
    assert (Hclt : (c < length (this_shafts p))%nat) by lia.
    assert (Hpre : firstn c (array_set c v (this_shafts p)) = firstn c (this_shafts p))
      by (apply firstn_array_set_same; exact Hclt).
    assert (Hcells' : forall j s,
               array_get j (array_set c v (this_shafts p)) = Some s ->
               wellFormedShaft s)
      by (apply array_set_cells_wellFormed;
          [exact Hclt | apply Shaft_new_wellFormed | exact Hcells]).
    assert (Hcell0' : array_get 0 (array_set c v (this_shafts p))
                      = Some (Shaft_new g0 0 (inputAdjacentSize p)))
      by (rewrite array_get_set_other by lia; exact Hcell0).
    assert (Hback : frameConserves p (array_set c v (this_shafts p))
                      (mkFrame avail c i (o + 1))).
    { unfold frameConserves. cbn [availableGears currentShaft].
      rewrite (committed_same_prefix p c c _ _ Hpre) by lia. exact Hf. }
    assert (Hrest' : Forall (frameConserves p (array_set c v (this_shafts p))) rest)
      by (apply (frames_same_prefix p c (this_shafts p) _ rest Hpre Hb Hfr')).
    destruct (length avail <=? i)%nat eqn:Ei.
    + injection H as _ <-.
      apply (shapeInv_intro p); [repeat split | exact Hinv' | | | |]; simpl_fields;
        try assumption.
      intros _. exists g0. auto.
    + apply Nat.leb_gt in Ei.
      assert (Ho : (o < length avail)%nat) by (apply nextCursor_output_lt; exact Ei).
      destruct (skipsDuplicate avail i o).
      * destruct (calculatePermutationCount _ _) as [n|]; cbn [obind] in H;
          [|discriminate].
        injection H as _ <-.
        apply (shapeInv_intro p); [repeat split | exact Hinv' | | | |]; simpl_fields;
          try assumption.
        -- constructor; assumption.
        -- intros _. exists g0. auto.
      * injection H as _ <-.
        apply (shapeInv_intro p); [repeat split | exact Hinv' | | | |]; simpl_fields;
          try assumption.
        -- constructor; [|constructor; assumption].
           unfold frameConserves. cbn [availableGears currentShaft].
           rewrite committed_next;
             [|exact Hclt
              |unfold firstChangeShaft; destruct (sharedInputGearSet p); lia].
           destruct (remainingAfter_conserve avail i o (this_spacerSize p) Ei Ho)
             as [e He].
           apply (withinPool_replace p avail _ _ _ e He Hf).
        -- intros _. exists g0. auto.
Qed.

Lemma seedAvail_conserve (p : GearTrainPermutations) :
  (inputGearIndex p < length (firstGearSet p))%nat ->
  withinPool p
    (seedAvail p
     ++ (if sharedInputGearSet p
         then [nth (inputGearIndex p) (firstGearSet p) 0] else [])).
Proof.
  intro Hidx. unfold seedAvail, firstGearSet, withinPool in *.
  destruct (sharedInputGearSet p).
  - destruct (indexOf_nth (changeGearSet p) (inputGearIndex p) Hidx) as [j Hj].
    rewrite Hj.
    pose proof (indexOf_lt _ _ _ Hj) as Hlt.
    pose proof (indexOf_spec _ _ _ Hj) as Hnth.
    exists []. rewrite app_nil_r. rewrite <- Hnth.
    apply Permutation_trans
      with (nth j (changeGearSet p) 0 :: splice1 j (changeGearSet p));
      [apply Permutation_sym, Permutation_cons_append | apply splice1_perm; exact Hlt].
  - exists []. rewrite !app_nil_r. reflexivity.
Qed.

Lemma afterSeed_shape (p : GearTrainPermutations) :
  shapeInv p -> permutationStack p = [] ->
  (inputGearIndex p < length (firstGearSet p))%nat ->
  shapeInv (afterSeed p).
Proof.
  intros (Hinv & Hfr & Hfirst & Hcells & Htrains) Hempty Hidx.
  pose proof (afterSeed_preserves p Hinv Hempty Hidx) as Hinv'.
  destruct Hinv as (Hlen & HN & _).
  rewrite afterSeed_fields in *.
  set (g := nth (inputGearIndex p) (firstGearSet p) 0) in *.
  set (v := Shaft_new g 0 (inputAdjacentSize p)) in *.
  assert (H0 : (0 < length (this_shafts p))%nat) by lia.
  apply (shapeInv_intro p); [repeat split | exact Hinv' | | | |]; simpl_fields.
  - rewrite Hempty. constructor; [|constructor].
    unfold frameConserves, committed. cbn [availableGears currentShaft].
    pose proof (firstn_array_set_next 0 v (this_shafts p) H0) as Hf1.
    cbn [Nat.add] in Hf1. rewrite Hf1. clear Hf1. cbn [firstn app].
    replace (flat_map cellGears (skipn (firstChangeShaft p) [Some v]))
      with (if sharedInputGearSet p then [g] else []);
      [apply seedAvail_conserve; exact Hidx|].
    unfold firstChangeShaft. destruct (sharedInputGearSet p);
      cbn [skipn flat_map cellGears]; [|reflexivity].
    rewrite app_nil_r. unfold v. rewrite Shaft_new_gears. reflexivity.
  - intros _. exists g. split; [apply nth_In; exact Hidx|].
    apply array_get_set_same. exact H0.
  - apply array_set_cells_wellFormed;
      [exact H0 | apply Shaft_new_wellFormed | exact Hcells].
  - exact Htrains.
Qed.

Lemma iterate_shape (p p' : GearTrainPermutations) (b : bool) :
  shapeInv p -> iterate p = Some (b, p') -> shapeInv p'.
Proof.
  intros Hinv H. rewrite iterate_unfold in H.
  destruct (_ && _) eqn:Edone.
  - injection H as _ <-. exact Hinv.
  - destruct (0 <? length (permutationStack p))%nat eqn:Est.
    + apply Nat.ltb_lt in Est.
      apply (iterateShafts_shape p p' b Hinv); [|exact H].
      destruct (permutationStack p); [cbn in Est; lia | discriminate].
    + apply Nat.ltb_ge in Est.
      destruct (inputGearIndex p <? length (firstGearSet p))%nat eqn:Eidx.
      * apply Nat.ltb_lt in Eidx.
        assert (Hempty : permutationStack p = [])
          by (destruct (permutationStack p); [reflexivity | cbn in Est; lia]).
        apply (iterateShafts_shape (afterSeed p) p' b).
        -- apply afterSeed_shape; assumption.
        -- rewrite afterSeed_fields. simpl_fields. discriminate.
        -- exact H.
      * injection H as _ <-. exact Hinv.
Qed.

Lemma array_get_repeat_None {A : Type} (n j : nat) :
  array_get j (repeat (@None A) n) = None.
Proof.
  unfold array_get. destruct (nth_error (repeat None n) j) as [[a|]|] eqn:E;
    try reflexivity.
  apply nth_error_In, repeat_spec in E. discriminate.
Qed.

Lemma setupCalculation_shape (p s : GearTrainPermutations) :
  (2 <= shaftCount p)%nat -> gearTrains p = [] ->
  setupCalculation p = Some s -> shapeInv s /\ sameConfig p s.
Proof.
  intros HN Htr Hs.
  destruct (setupCalculation_establishes p HN Htr) as (s' & Hs' & Hinv & _).
  assert (s' = s) by congruence. subst s'.
  assert (Hfields : sameConfig p s /\ permutationStack s = []
                    /\ this_shafts s = repeat None (shaftCount p)
                    /\ gearTrains s = []).
  { unfold setupCalculation in Hs. cbv zeta in Hs. simpl_fields.
    destruct (sharedInputGearSet p);
      (destruct (calculatePermutationCount _ _); cbn [obind] in Hs; [|discriminate]);
      injection Hs as <-; unfold sameConfig; simpl_fields; rewrite Htr;
      repeat split. }
  destruct Hfields as (Hcfg & Hstack & Hsh & Hg).
  split; [|exact Hcfg].
  apply (shapeInv_intro p); [exact Hcfg | exact Hinv | | | |].
  - rewrite Hstack. constructor.
  - rewrite Hstack. congruence.
  - intros j x Hj. rewrite Hsh, array_get_repeat_None in Hj. discriminate.
  - rewrite Hg. constructor.
Qed.

Lemma iterate_sameConfig (p p' : GearTrainPermutations) (b : bool) :
  iterate p = Some (b, p') -> sameConfig p p'.
Proof.
  intro H. rewrite iterate_unfold in H.
  assert (Hshafts : forall q q' b', iterateShafts q = Some (b', q') -> sameConfig q q').
  { clear. intros q q' b' H.
    destruct (permutationStack q) as [|f rest] eqn:Estack.
    { unfold iterateShafts in H. rewrite Estack in H. injection H as _ <-.
      apply sameConfig_refl. }
    destruct (Z.eq_dec (Z.of_nat (currentShaft f))
                (Z.of_nat (length (this_shafts q)) - 1)) as [Hfin | Hnf].
    - rewrite (iterateShafts_final q f rest Estack Hfin) in H.
      destruct (for_loop_throw_nat _ _ _ _) as [p1|] eqn:Eloop; cbn [obind] in H;
        [|discriminate].
      injection H as _ <-.
      apply finalShaftLoop_inv in Eloop; [|simpl_fields; lia].
      destruct Eloop as (sh & g & f1 & s1 & d1 & -> & _).
      unfold sameConfig. simpl_fields. repeat split.
    - pose proof (iterateShafts_nonfinal q f rest Estack Hnf) as Eq.
      cbv zeta in Eq. rewrite Eq in H. clear Eq.
      destruct (_ <=? _)%nat;
        [|destruct (skipsDuplicate _ _ _);
          [destruct (calculatePermutationCount _ _); cbn [obind] in H;
           [|discriminate]|]];
        injection H as _ <-; unfold sameConfig; simpl_fields; repeat split. }
  destruct (_ && _).
  { injection H as _ <-. apply sameConfig_refl. }
  destruct (0 <? length (permutationStack p))%nat.
  { apply (Hshafts p p' b H). }
  destruct (inputGearIndex p <? length (firstGearSet p))%nat.
  - apply sameConfig_trans with (afterSeed p).
    + rewrite afterSeed_fields. unfold sameConfig. simpl_fields. repeat split.
    + apply (Hshafts _ p' b H).
  - injection H as _ <-. apply sameConfig_refl.
Qed.

Lemma iterate_calls_shape (n : nat) :
  forall (p p' : GearTrainPermutations) (flags : list bool),
  shapeInv p -> iterate_calls n p = Some (flags, p') ->
  shapeInv p' /\ sameConfig p p'.
Proof.
  induction n as [|n IH]; intros p p' flags Hinv H.
  - injection H as _ <-. split; [exact Hinv | apply sameConfig_refl].
  - cbn [iterate_calls] in H.
    destruct (iterate p) as [[b1 p1]|] eqn:E; cbn [obind fst snd] in H;
      [|discriminate].
    destruct (iterate_calls n p1) as [[fl p2]|] eqn:E2; cbn [obind fst snd] in H;
      [|discriminate].
    injection H as _ <-.
    destruct (IH p1 p2 fl (iterate_shape p p1 b1 Hinv E) E2) as [Hs Hc].
    split; [exact Hs|].
    apply sameConfig_trans with p1; [apply (iterate_sameConfig p p1 b1 E) | exact Hc].
Qed.

Lemma sameConfig_sym (p p' : GearTrainPermutations) :
  sameConfig p p' -> sameConfig p' p.
Proof.
  unfold sameConfig. intros (A1 & A2 & A3 & A4 & A5 & A6 & A7).
  repeat split; congruence.
Qed.

(** Every train a run has registered, in terms of the configuration the
    run started from. *)
Lemma run_trains_ok (p s p' : GearTrainPermutations) (n : nat) (flags : list bool) :
  (2 <= shaftCount p)%nat -> gearTrains p = [] ->
  setupCalculation p = Some s ->
  iterate_calls n s = Some (flags, p') ->
  Forall (trainOk p) (gearTrains p') /\ sameConfig p p'.
Proof.
  intros HN Htr Hs Hrun.
  destruct (setupCalculation_shape p s HN Htr Hs) as [Hshape Hcfg].
  destruct (iterate_calls_shape n s p' flags Hshape Hrun)
    as [(_ & _ & _ & _ & Htrains) Hcfg'].
  assert (Hall : sameConfig p p') by (apply sameConfig_trans with s; assumption).
  split; [|exact Hall].
  apply (Forall_impl _ (fun t Ht =>
           trainOk_sameConfig p' p t (sameConfig_sym p p' Hall) Ht) Htrains).
Qed.

Lemma trainOk_hasForce (p : GearTrainPermutations) (t : GearTrain) :
  (2 <= shaftCount p)%nat -> trainOk p t -> hasForce t.
Proof.
  intros HN (l & first & last & -> & Hlen & _).
  rewrite GearTrain_new_fields by (destruct l; [cbn in Hlen; lia | discriminate]).
  eexists. reflexivity.
Qed.

(** X14.  The shape of every registered train.  At any point of a run
    started by [setupCalculation] (at least two shafts, no earlier
    results) each train in the results is a snapshot built by the
    constructor with exactly [shaftCount] shafts; its first shaft carries
    one gear, taken from the first gear set, with the input-adjacent
    spacer; its last shaft carries one gear, taken from the change gears;
    every shaft is as the [Shaft] constructor builds it (one gear with
    equal input and output, or two gears); and its force is defined. *)
Theorem registered_trains_shape (p s p' : GearTrainPermutations) (n : nat)
    (flags : list bool) (t : GearTrain) :
  (2 <= shaftCount p)%nat -> gearTrains p = [] ->
  setupCalculation p = Some s ->
  iterate_calls n s = Some (flags, p') ->
  In t (gearTrains p') ->
  exists first last,
    t = GearTrain_new (shafts t)
    /\ length (shafts t) = shaftCount p
    /\ hd_error (shafts t) = Some (Shaft_new first 0 (inputAdjacentSize p))
    /\ In first (firstGearSet p)
    /\ nth_error (shafts t) (shaftCount p - 1)
       = Some (Shaft_new last 0 (this_spacerSize p))
    /\ In last (changeGearSet p)
    /\ Forall wellFormedShaft (shafts t)
    /\ hasForce t.
Proof.
  intros HN Htr Hs Hrun Hin.
  destruct (run_trains_ok p s p' n flags HN Htr Hs Hrun) as [Hall _].
  rewrite Forall_forall in Hall. pose proof (Hall t Hin) as Hok.
  pose proof (trainOk_hasForce p t HN Hok) as Hforce.
  destruct Hok as (l & first & last & -> & Hlen & Hhd & Hfirst & Hlast & Hlin & Hwf & _).
  exists first, last. rewrite shafts_GearTrain_new.
  repeat split; assumption.
Qed.

Lemma registered_trains_shape_witness :
  exists first last,
    demoTrain = GearTrain_new (shafts demoTrain)
    /\ length (shafts demoTrain) = shaftCount demoEngine
    /\ hd_error (shafts demoTrain)
       = Some (Shaft_new first 0 (inputAdjacentSize demoEngine))
    /\ In first (firstGearSet demoEngine)
    /\ nth_error (shafts demoTrain) (shaftCount demoEngine - 1)
       = Some (Shaft_new last 0 (this_spacerSize demoEngine))
    /\ In last (changeGearSet demoEngine)
    /\ Forall wellFormedShaft (shafts demoTrain)
    /\ hasForce demoTrain.
Proof.
  apply (registered_trains_shape demoEngine demoReady demoFinished 10 demoFlags).
  - vm_compute. lia.
  - reflexivity.
  - vm_compute. reflexivity.
  - vm_compute. reflexivity.
  - vm_compute. left. reflexivity.
Defined.

(** X15.  No gear is used more often than the pool holds it.  In every
    registered train the gears on the shafts that draw from the change
    gears (all shafts when the input gear is shared, the shafts after the
    first otherwise) can be taken out of the change-gear set together,
    each tooth count at most as often as it occurs there. *)
Theorem registered_trains_within_pool (p s p' : GearTrainPermutations) (n : nat)
    (flags : list bool) (t : GearTrain) :
  (2 <= shaftCount p)%nat -> gearTrains p = [] ->
  setupCalculation p = Some s ->
  iterate_calls n s = Some (flags, p') ->
  In t (gearTrains p') ->
  exists rest,
    Permutation
      (flat_map shaftGears (skipn (firstChangeShaft p) (shafts t)) ++ rest)
      (changeGearSet p).
Proof.
  intros HN Htr Hs Hrun Hin.
  destruct (run_trains_ok p s p' n flags HN Htr Hs Hrun) as [Hall _].
  rewrite Forall_forall in Hall.
  destruct (Hall t Hin) as (l & first & last & -> & _ & _ & _ & _ & _ & _ & Hpool).
  rewrite shafts_GearTrain_new. exact Hpool.
Qed.

Lemma registered_trains_within_pool_witness :
  exists rest,
    Permutation
      (flat_map shaftGears (skipn (firstChangeShaft demoEngine) (shafts demoTrain))
       ++ rest)
      (changeGearSet demoEngine).
Proof.
  apply (registered_trains_within_pool demoEngine demoReady demoFinished 10 demoFlags).
  - vm_compute. lia.
  - reflexivity.
  - vm_compute. reflexivity.
  - vm_compute. reflexivity.
  - vm_compute. left. reflexivity.
Defined.




(** ** Resources of a run *)

Lemma stackOk_frames (N G : nat) (st : list PermutationStackFrame) :
  stackOk N G st ->
  (length st <= N - 1)%nat
  /\ Forall (fun f =>
               (1 <= currentShaft f <= N - 1)%nat
               /\ (length (availableGears f) <= G)%nat) st.
Proof.
  induction st as [|f rest IH]; intro H.
  - split; [cbn; lia | constructor].
  - cbn [stackOk] in H. destruct H as (Hc & HcN & HG & Hrest).
    destruct (IH Hrest) as [_ Hall]. split; [cbn [length]; lia|].
    constructor; [split; [lia | exact HG] | exact Hall].
Qed.

(** X17.  The explicit stack stays shallow.  Throughout a run started by
    [setupCalculation] (at least two shafts, no earlier results) the
    shaft array keeps its [shaftCount] cells, the stack never holds more
    than [shaftCount - 1] frames, and every frame sits on a shaft between
    1 and [shaftCount - 1] with a pool no larger than the change-gear
    set. *)
Theorem stack_depth_bounded (p s p' : GearTrainPermutations) (n : nat)
    (flags : list bool) :
  (2 <= shaftCount p)%nat -> gearTrains p = [] ->
  setupCalculation p = Some s ->
  iterate_calls n s = Some (flags, p') ->
  length (this_shafts p') = shaftCount p
  /\ (length (permutationStack p') <= shaftCount p - 1)%nat
  /\ Forall (fun f =>
               (1 <= currentShaft f <= shaftCount p - 1)%nat
               /\ (length (availableGears f) <= length (changeGearSet p))%nat)
       (permutationStack p').
Proof.
  intros HN Htr Hs Hrun.
  destruct (setupCalculation_shape p s HN Htr Hs) as [Hshape Hcfg].
  destruct (iterate_calls_shape n s p' flags Hshape Hrun)
    as [((Hlen & _ & Hst & _) & _) Hcfg'].
  assert (Hall : sameConfig p p') by (apply sameConfig_trans with s; assumption).
  destruct Hall as (HN' & HG' & _).
  rewrite HN', HG' in *.
  destruct (stackOk_frames _ _ _ Hst) as [Hdepth Hframes].
  repeat split; assumption.
Qed.

Lemma stack_depth_bounded_witness :
  length (this_shafts demoAfter3) = shaftCount demoEngine
  /\ (length (permutationStack demoAfter3) <= shaftCount demoEngine - 1)%nat
  /\ Forall (fun f =>
               (1 <= currentShaft f <= shaftCount demoEngine - 1)%nat
               /\ (length (availableGears f) <= length (changeGearSet demoEngine))%nat)
       (permutationStack demoAfter3).
Proof.
  apply (stack_depth_bounded demoEngine demoReady demoAfter3 3 [false; false; false]).
  - vm_compute. lia.
  - reflexivity.
  - vm_compute. reflexivity.
  - vm_compute. reflexivity.
Defined.

(** ** The permutation count, again *)

Lemma permCount_pos (k : nat) : forall g, Z.of_nat k < g -> 0 < permCount k g.
Proof.
  induction k as [|k IH]; intros g Hg; [cbn in *; lia|].
  rewrite permCount_succ.
  pose proof (IH (g - 1) ltac:(lia)) as H1.
  pose proof (permCount_nonneg k (g - 2) ltac:(lia)) as H2.
  assert (0 < g * permCount k (g - 1)) by (apply Z.mul_pos_pos; lia).
  assert (0 <= g * (g - 1) * permCount k (g - 2))
    by (repeat apply Z.mul_nonneg_nonneg; lia).
  lia.
Qed.

(** X18.  For at least one shaft and a pool that is not negative,
    [calculatePermutationCount] returns a number that is never negative,
    and that is 0 exactly when the pool holds fewer gears than there are
    shafts to fill. *)
Theorem calculatePermutationCount_zero_iff (shaftCount gearCount : Z) :
  1 <= shaftCount -> 0 <= gearCount ->
  exists n,
    calculatePermutationCount shaftCount gearCount = Some n
    /\ 0 <= n
    /\ (n = 0 <-> gearCount < shaftCount).
Proof.
  intros Hs Hg. rewrite calculatePermutationCount_permCount by exact Hs.
  eexists. split; [reflexivity|].
  split; [apply permCount_nonneg; exact Hg|]. split.
  - intro H0. destruct (Z.lt_ge_cases gearCount shaftCount) as [|Hge]; [assumption|].
    pose proof (permCount_pos (Z.to_nat shaftCount - 1) gearCount ltac:(lia)). lia.
  - intro Hlt. apply permCount_too_few. lia.
Qed.

Lemma calculatePermutationCount_zero_iff_witness :
  exists n,
    calculatePermutationCount 3 2 = Some n /\ 0 <= n /\ (n = 0 <-> 2 < 3).
Proof.
  apply (calculatePermutationCount_zero_iff 3 2); lia.
Defined.

(** ** Repeated tooth counts *)

Lemma splice1_adjacent (m : nat) (l : list Z) :
  equalsAdjacent l -> equalsAdjacent (splice1 m l).
Proof.
  intro H. destruct (le_lt_dec (length l) m) as [Hm | Hm].
  { unfold splice1. rewrite firstn_all2, skipn_all2, app_nil_r by lia. exact H. }
  intros i j k Hik Hkj Hj E. rewrite splice1_length in Hj by exact Hm.
  rewrite !nth_splice1 in *.
  destruct (Nat.ltb_spec i m), (Nat.ltb_spec j m), (Nat.ltb_spec k m);
    try lia; refine (H _ _ _ _ _ _ E); lia.
Qed.

Lemma remainingAfter_adjacent (avail : list Z) (i o : nat) :
  equalsAdjacent avail -> equalsAdjacent (remainingAfter avail i o).
Proof.
  intro H. unfold remainingAfter.
  destruct (i =? o)%nat; [|destruct (o <? i)%nat];
    repeat apply splice1_adjacent; exact H.
Qed.

Lemma ascending_nth_le (l : list Z) (a b : nat) :
  StronglySorted Z.le l -> (a <= b)%nat -> (b < length l)%nat ->
  nth a l 0 <= nth b l 0.
Proof.
  intro H. revert a b. induction H as [|x l Hl IH Hx]; intros a b Hab Hb.
  - cbn in Hb. lia.
  - destruct b as [|b].
    + replace a with O by lia. lia.
    + destruct a as [|a].
      * cbn [nth]. rewrite Forall_forall in Hx. apply Hx. apply nth_In.
        cbn in Hb. lia.
      * cbn [nth]. apply IH; [lia | cbn in Hb; lia].
Qed.

Lemma ascending_adjacent (l : list Z) : StronglySorted Z.le l -> equalsAdjacent l.
Proof.
  intros H i j k Hik Hkj Hj E.
  pose proof (ascending_nth_le l i k H Hik ltac:(lia)).
  pose proof (ascending_nth_le l k j H Hkj Hj).
  lia.
Qed.

Lemma iterateShafts_grouped (p p' : GearTrainPermutations) (b : bool) :
  poolsGrouped p -> iterateShafts p = Some (b, p') -> poolsGrouped p'.
Proof.
  intros [Hpool Hst] H.
  destruct (permutationStack p) as [|f rest] eqn:Estack.
  { unfold iterateShafts in H. rewrite Estack in H. injection H as _ <-.
    split; [exact Hpool | rewrite Estack; exact Hst]. }
  inversion Hst as [|? ? Hf Hrest]; subst.
  destruct (Z.eq_dec (Z.of_nat (currentShaft f)) (Z.of_nat (length (this_shafts p)) - 1))
    as [Hfin | Hnf].
  - rewrite (iterateShafts_final p f rest Estack Hfin) in H.
    destruct (for_loop_throw_nat _ _ _ _) as [p1|] eqn:Eloop; cbn [obind] in H;
      [|discriminate].
    injection H as _ <-.
    apply finalShaftLoop_inv in Eloop; [|simpl_fields; lia].
    destruct Eloop as (sh & g & f1 & s1 & d1 & -> & _).
    unfold poolsGrouped. simpl_fields. split; assumption.
  - pose proof (iterateShafts_nonfinal p f rest Estack Hnf) as Eq.
    cbv zeta in Eq. rewrite Eq in H. clear Eq.
    destruct (_ <=? _)%nat;
      [|destruct (skipsDuplicate _ _ _);
        [destruct (calculatePermutationCount _ _); cbn [obind] in H;
         [|discriminate]|]];
      injection H as _ <-; unfold poolsGrouped; simpl_fields;
      (split; [exact Hpool|]); repeat constructor; try assumption.
    apply remainingAfter_adjacent. exact Hf.
Qed.

Lemma iterate_grouped (p p' : GearTrainPermutations) (b : bool) :
  poolsGrouped p -> iterate p = Some (b, p') -> poolsGrouped p'.
Proof.
  intros Hasc H. rewrite iterate_unfold in H.
  destruct (_ && _).
  { injection H as _ <-. exact Hasc. }
  destruct (0 <? length (permutationStack p))%nat.
  { apply (iterateShafts_grouped p p' b Hasc H). }
  destruct (inputGearIndex p <? length (firstGearSet p))%nat.
  - apply (iterateShafts_grouped (afterSeed p) p' b); [|exact H].
    destruct Hasc as [Hpool Hst]. rewrite afterSeed_fields.
    unfold poolsGrouped. simpl_fields. split; [exact Hpool|].
    constructor; [|exact Hst]. cbn [availableGears]. unfold seedAvail.
    destruct (sharedInputGearSet p); [|exact Hpool].
    destruct (indexOf _ _); [apply splice1_adjacent|]; exact Hpool.
  - injection H as _ <-. exact Hasc.
Qed.

Lemma iterate_calls_grouped (n : nat) :
  forall (p p' : GearTrainPermutations) (flags : list bool),
  poolsGrouped p -> iterate_calls n p = Some (flags, p') -> poolsGrouped p'.
Proof.
  induction n as [|n IH]; intros p p' flags Hasc H.
  - injection H as _ <-. exact Hasc.
  - cbn [iterate_calls] in H.
    destruct (iterate p) as [[b1 p1]|] eqn:E; cbn [obind fst snd] in H;
      [|discriminate].
    destruct (iterate_calls n p1) as [[fl p2]|] eqn:E2; cbn [obind fst snd] in H;
      [|discriminate].
    injection H as _ <-.
    apply (IH p1 p2 fl (iterate_grouped p p1 b1 Hasc E) E2).
Qed.

(** One round of the final-shaft loop registers at most the train of its
    own index. *)
Lemma finalShaftBody_index (avail : list Z) (c i : nat)
    (p p' : GearTrainPermutations) :
  length (this_shafts p) = S c ->
  finalShaftBody avail c i p = Some p' ->
  exists sh g f s d,
    p' = withResults p sh g f s d
    /\ length sh = S c
    /\ firstn c sh = firstn c (this_shafts p)
    /\ (g = gearTrains p
        \/ exists t, g = gearTrains p ++ [t] /\ registeredAt p avail c i t).
Proof.
  intros Hlen H. unfold finalShaftBody in H.
  destruct ((0 <? i)%nat && (nth (i - 1) avail 0 =? nth i avail 0)) eqn:Edup.
  { injection H as <-.
    exists (this_shafts p), (gearTrains p), (foundSolutions p),
      (skippedSolutions p + 1), (discardedSolutions p).
    repeat split; auto. }
  cbv zeta in H.
  set (v := Shaft_new (nth i avail 0) 0 (this_spacerSize p)) in *.
  set (sh := array_set c v (this_shafts p)) in *.
  assert (Hsh : length sh = S c) by (unfold sh; rewrite array_set_length; lia).
  assert (Hpre : firstn c sh = firstn c (this_shafts p))
    by (unfold sh; apply firstn_array_set_same; lia).
  destruct (constraintsViolated (set_shafts p sh) (this_shafts (set_shafts p sh)) c)
    as [[|]|]; cbn [obind] in H; [| |discriminate].
  { injection H as <-. simpl_fields.
    exists sh, (gearTrains p), (foundSolutions p),
      (skippedSolutions p + 1), (discardedSolutions p).
    repeat split; auto. }
  destruct (c =? 0)%nat eqn:Ec; cbn [obind] in H; [discriminate|].
  simpl_fields.
  destruct (array_get (c - 1) sh) as [input|]; cbn [obind] in H; [|discriminate].
  destruct (array_get c sh) as [output|]; cbn [obind] in H; [|discriminate].
  destruct (shaftsInterfere input output (addendum p)); cbn [negb] in H.
  { injection H as <-. simpl_fields.
    exists sh, (gearTrains p), (foundSolutions p),
      (skippedSolutions p), (discardedSolutions p + 1).
    repeat split; auto. }
  unfold registerGearTrain in H. simpl_fields.
  destruct (all_defined sh) as [l|] eqn:El; cbn [obind] in H; [|discriminate].
  injection H as <-. simpl_fields.
  exists sh, (gearTrains p ++ [GearTrain_new l]), (foundSolutions p + 1),
    (skippedSolutions p), (discardedSolutions p).
  repeat split; auto.
  right. exists (GearTrain_new l). split; [reflexivity|].
  assert (Esh : sh = firstn c (this_shafts p) ++ [Some v]).
  { rewrite <- (firstn_all2 sh (n := c + 1)) by lia.
    unfold sh. apply firstn_array_set_next. lia. }
  rewrite Esh, all_defined_snoc in El.
  destruct (all_defined (firstn c (this_shafts p))) as [pre|] eqn:Epre;
    [|discriminate].
  cbn [option_map] in El. injection El as <-.
  split.
  - apply andb_false_iff in Edup. destruct Edup as [E0 | Ene].
    + left. apply Nat.ltb_ge in E0. lia.
    + right. apply Z.eqb_neq. exact Ene.
  - exists pre. split; [exact Epre | reflexivity].
Qed.

Lemma registeredAt_withResults (p : GearTrainPermutations) (avail : list Z) (c j : nat)
    sh g f s d (t : GearTrain) :
  firstn c sh = firstn c (this_shafts p) ->
  registeredAt (withResults p sh g f s d) avail c j t -> registeredAt p avail c j t.
Proof.
  intros E (Hj & pre & Hpre & Ht). split; [exact Hj|]. exists pre. simpl_fields.
  rewrite E in Hpre. auto.
Qed.

Lemma finalShaftLoop_index (avail : list Z) (c n : nat) :
  forall (i : nat) (p p' : GearTrainPermutations),
  length (this_shafts p) = S c ->
  for_loop_throw_nat i n (finalShaftBody avail c) p = Some p' ->
  exists sh g f s d,
    p' = withResults p sh g f s d
    /\ length sh = S c
    /\ firstn c sh = firstn c (this_shafts p)
    /\ exists js new,
         g = gearTrains p ++ new
         /\ Forall2 (registeredAt p avail c) js new
         /\ StronglySorted lt js
         /\ Forall (fun j => (i <= j < i + n)%nat) js.
Proof.
  induction n as [|n IH]; intros i p p' Hlen H.
  - injection H as <-.
    exists (this_shafts p), (gearTrains p), (foundSolutions p),
      (skippedSolutions p), (discardedSolutions p).
    repeat split; auto; [destruct p; reflexivity|].
    exists [], []. rewrite app_nil_r. repeat split; constructor.
  - cbn [for_loop_throw_nat] in H.
    destruct (finalShaftBody avail c i p) as [p1|] eqn:E1; cbn [obind] in H;
      [|discriminate].
    destruct (finalShaftBody_index _ _ _ _ _ Hlen E1)
      as (sh1 & g1 & f1 & s1 & d1 & -> & Hl1 & Hp1 & Hg1).
    apply IH in H; [|exact Hl1].
    destruct H
      as (sh2 & g2 & f2 & s2 & d2 & -> & Hl2 & Hp2 & js & new & -> & Hreg & Hsort & Hrange).
    simpl_fields.
    assert (Hreg' : Forall2 (registeredAt p avail c) js new).
    { clear - Hreg Hp1. induction Hreg; constructor; [|assumption].
      apply (registeredAt_withResults p avail c _ _ _ _ _ _ _ Hp1 H). }
    exists sh2. destruct Hg1 as [-> | (t & -> & Ht)].
    + exists (gearTrains p ++ new), f2, s2, d2.
      repeat split; auto; [congruence|].
      exists js, new. repeat split; auto.
      apply (Forall_impl _ (fun j (Hj : (S i <= j < S i + n)%nat) =>
               conj (Nat.lt_le_incl _ _ (proj1 Hj))
                    (eq_ind _ (fun m => (j < m)%nat) (proj2 Hj) _
                       (eq_sym (Nat.add_succ_r i n)))) Hrange).
    + exists ((gearTrains p ++ [t]) ++ new), f2, s2, d2.
      repeat split; auto; [congruence|].
      exists (i :: js), (t :: new). rewrite <- app_assoc. cbn [app].
      repeat split; auto.
      * constructor; [exact Hsort|].
        apply (Forall_impl _ (fun j (Hj : (S i <= j < S i + n)%nat) => proj1 Hj)
                 Hrange).
      * constructor; [lia|].
        apply (Forall_impl _ (fun j (Hj : (S i <= j < S i + n)%nat) =>
                 conj (Nat.lt_le_incl _ _ (proj1 Hj))
                      (eq_ind _ (fun m => (j < m)%nat) (proj2 Hj) _
                         (eq_sym (Nat.add_succ_r i n)))) Hrange).
Qed.

Lemma teeth_map (t : GearTrain) : teeth t = map shaftTeeth (shafts t).
Proof. reflexivity. Qed.

(** A train from round [j] of the final-shaft loop holds what the shafts
    array holds before the final shaft, and gear [j] on it. *)
Lemma registered_agrees (p : GearTrainPermutations) (avail : list Z) (c j : nat)
    (t : GearTrain) :
  (c < length (this_shafts p))%nat ->
  registeredAt p avail c j t ->
  agreesUpTo c (this_shafts p) (teeth t)
  /\ nth_error (teeth t) c = Some (nth j avail 0, nth j avail 0).
Proof.
  intros Hc (_ & pre & Hpre & ->).
  rewrite teeth_map, shafts_GearTrain_new.
  destruct (all_defined_Some _ _ Hpre) as [Hlen Hget].
  rewrite length_firstn in Hlen.
  assert (Hlen' : length pre = c) by lia.
  split.
  - intros k Hk.
    destruct (nth_error pre k) as [s|] eqn:Es;
      [|apply nth_error_None in Es; lia].
    exists s. split.
    + rewrite <- (array_get_firstn k c) by exact Hk. rewrite Hget. exact Es.
    + rewrite map_app, nth_error_app1 by (rewrite length_map; lia).
      apply map_nth_error. exact Es.
  - rewrite map_app, nth_error_app2 by (rewrite length_map; lia).
    rewrite length_map, Hlen', Nat.sub_diag. reflexivity.
Qed.

Lemma registeredAt_distinct (p : GearTrainPermutations) (avail : list Z) (c : nat)
    (j1 j2 : nat) (t1 t2 : GearTrain) :
  equalsAdjacent avail -> (c < length (this_shafts p))%nat ->
  (j1 < j2)%nat -> (j2 < length avail)%nat ->
  registeredAt p avail c j1 t1 -> registeredAt p avail c j2 t2 ->
  teeth t1 <> teeth t2.
Proof.
  intros Hadj Hc Hlt Hlen H1 H2 E.
  destruct (registered_agrees p avail c j1 t1 Hc H1) as [_ E1].
  destruct (registered_agrees p avail c j2 t2 Hc H2) as [_ E2].
  rewrite E, E2 in E1. injection E1 as E1 _.
  destruct H2 as ([Hz | Hne] & _); [lia|].
  apply Hne. apply (Hadj j1 j2 (j2 - 1)%nat); [lia | lia | exact Hlen | auto].
Qed.

Lemma registered_later_differ (p : GearTrainPermutations) (avail : list Z) (c : nat)
    (j : nat) (t : GearTrain) (js : list nat) (new : list GearTrain) :
  equalsAdjacent avail -> (c < length (this_shafts p))%nat ->
  registeredAt p avail c j t ->
  Forall2 (registeredAt p avail c) js new ->
  Forall (lt j) js ->
  Forall (fun j => (j < length avail)%nat) js ->
  ~ In (teeth t) (map teeth new).
Proof.
  intros Hadj Hc Hjt Hreg.
  induction Hreg as [|j' t' js new Hjt' Hreg IH]; intros Hall Hrange Hin.
  - destruct Hin.
  - inversion Hall as [|? ? Hlt Hall']; subst.
    inversion Hrange as [|? ? Hj' Hrange']; subst.
    destruct Hin as [E | Hin].
    + apply (registeredAt_distinct p avail c j j' t t' Hadj Hc Hlt Hj' Hjt Hjt').
      symmetry. exact E.
    + apply IH; assumption.
Qed.

Lemma registered_NoDup (p : GearTrainPermutations) (avail : list Z) (c : nat)
    (js : list nat) (new : list GearTrain) :
  equalsAdjacent avail -> (c < length (this_shafts p))%nat ->
  Forall2 (registeredAt p avail c) js new ->
  StronglySorted lt js ->
  Forall (fun j => (j < length avail)%nat) js ->
  NoDup (map teeth new).
Proof.
  intros Hadj Hc Hreg. induction Hreg as [|j t js new Hjt Hreg IH]; intros Hsort Hrange.
  - constructor.
  - inversion Hsort as [|? ? Hsort' Hall]; subst.
    inversion Hrange as [|? ? Hj Hrange']; subst.
    cbn [map]. constructor; [|apply IH; assumption].
    apply (registered_later_differ p avail c j t js new); assumption.
Qed.

Lemma setupCalculation_config (p s : GearTrainPermutations) :
  setupCalculation p = Some s ->
  changeGearSet s = changeGearSet p /\ permutationStack s = [].
Proof.
  unfold setupCalculation. cbv zeta.
  cbn [set_shafts set_foundSolutions set_skippedSolutions set_discardedSolutions
       set_permutationStack set_inputGearIndex set_permutationCount
       sharedInputGearSet this_shafts changeGearSet inputGearSet].
  destruct (sharedInputGearSet p);
    (destruct (calculatePermutationCount _ _); cbn [obind]; [|discriminate]);
    intro H; injection H as <-; split; reflexivity.
Qed.

(** X19.  What the skip of repeated tooth counts does achieve.  In a run
    whose change gears have equal tooth counts next to each other (as in
    every sorted list), no two of the trains a single call of [iterate]
    registers are equal gear for gear. *)
Theorem each_call_registers_distinct_trains (p s p1 p2 : GearTrainPermutations)
    (n : nat) (flags : list bool) (b : bool) :
  equalsAdjacent (changeGearSet p) ->
  setupCalculation p = Some s ->
  iterate_calls n s = Some (flags, p1) ->
  iterate p1 = Some (b, p2) ->
  exists new, gearTrains p2 = gearTrains p1 ++ new /\ NoDup (map teeth new).
Proof.
  intros Hasc Hs Hrun Hstep.
  assert (Hs_asc : poolsGrouped s).
  { destruct (setupCalculation_config p s Hs) as [Hg Hst].
    unfold poolsGrouped. rewrite Hg, Hst. split; [exact Hasc | constructor]. }
  pose proof (iterate_calls_grouped n s p1 flags Hs_asc Hrun) as H1.
  clear Hs Hrun Hs_asc Hasc.
  assert (Hshafts : forall q q' b',
             poolsGrouped q -> iterateShafts q = Some (b', q') ->
             exists new, gearTrains q' = gearTrains q ++ new /\ NoDup (map teeth new)).
  { clear. intros q q' b' [_ Hst] H.
    destruct (permutationStack q) as [|f rest] eqn:Estack.
    { unfold iterateShafts in H. rewrite Estack in H. injection H as _ <-.
      exists []. rewrite app_nil_r. split; [reflexivity | constructor]. }
    inversion Hst as [|? ? Hf _]; subst.
    destruct (Z.eq_dec (Z.of_nat (currentShaft f))
                (Z.of_nat (length (this_shafts q)) - 1)) as [Hfin | Hnf].
    - rewrite (iterateShafts_final q f rest Estack Hfin) in H.
      destruct (for_loop_throw_nat _ _ _ _) as [p1|] eqn:Eloop; cbn [obind] in H;
        [|discriminate].
      injection H as _ <-.
      apply finalShaftLoop_index in Eloop; [|simpl_fields; lia].
      destruct Eloop
        as (sh & g & f1 & s1 & d1 & -> & _ & _ & js & new & -> & Hreg & Hsort & Hrange).
      simpl_fields. exists new. split; [reflexivity|].
      apply (registered_NoDup (set_permutationStack q rest) (availableGears f)
               (currentShaft f) js new Hf);
        [simpl_fields; lia | exact Hreg | exact Hsort |].
      apply (Forall_impl _ (fun j (Hj : (0 <= j < 0 + length (availableGears f))%nat) =>
               proj2 Hj) Hrange).
    - pose proof (iterateShafts_nonfinal q f rest Estack Hnf) as Eq.
      cbv zeta in Eq. rewrite Eq in H. clear Eq.
      destruct (_ <=? _)%nat;
        [|destruct (skipsDuplicate _ _ _);
          [destruct (calculatePermutationCount _ _); cbn [obind] in H;
           [|discriminate]|]];
        injection H as _ <-; simpl_fields; exists []; rewrite app_nil_r;
        (split; [reflexivity | constructor]). }
  rewrite iterate_unfold in Hstep.
  destruct (_ && _).
  { injection Hstep as _ <-. exists []. rewrite app_nil_r.
    split; [reflexivity | constructor]. }
  destruct (0 <? length (permutationStack p1))%nat.
  { apply (Hshafts p1 p2 b H1 Hstep). }
  destruct (inputGearIndex p1 <? length (firstGearSet p1))%nat.
  - destruct (Hshafts (afterSeed p1) p2 b) as (new & Hnew & Hnd); [|exact Hstep|].
    + destruct H1 as [Hpool Hst]. rewrite afterSeed_fields.
      unfold poolsGrouped. simpl_fields. split; [exact Hpool|].
      constructor; [|exact Hst]. cbn [availableGears]. unfold seedAvail.
      destruct (sharedInputGearSet p1); [|exact Hpool].
      destruct (indexOf _ _); [apply splice1_adjacent|]; exact Hpool.
    + exists new. rewrite afterSeed_fields in Hnew. simpl_fields. auto.
  - injection Hstep as _ <-. exists []. rewrite app_nil_r.
    split; [reflexivity | constructor].
Qed.

Lemma each_call_registers_distinct_trains_witness :
  exists new,
    gearTrains demoAfter2 = gearTrains demoAfter1 ++ new /\ NoDup (map teeth new).
Proof.
  apply (each_call_registers_distinct_trains demoEngine demoReady demoAfter1 demoAfter2
           1%nat [false] false).
  - apply ascending_adjacent. change (StronglySorted Z.le [20; 20; 30]).
    repeat constructor; lia.
  - vm_compute. reflexivity.
  - vm_compute. reflexivity.
  - vm_compute. reflexivity.
Defined.

(** ** Trains that differ *)

Lemma shaftTeeth_chosen (avail : list Z) (i o : nat) (sp : Q) :
  Forall (fun x => 0 < x) avail -> (o < length avail)%nat ->
  shaftTeeth (Shaft_new (nth i avail 0) (chosenOutputGear avail i o) sp)
  = (nth i avail 0, nth o avail 0).
Proof.
  intros Hpos Ho. unfold chosenOutputGear, Shaft_new.
  destruct (Nat.eqb_spec i o) as [-> | Hne]; [reflexivity|].
  rewrite Forall_forall in Hpos.
  pose proof (Hpos _ (nth_In avail 0 Ho)) as H.
  replace (0 <? nth o avail 0) with true by (symmetry; apply Z.ltb_lt; exact H).
  reflexivity.
Qed.

Lemma NoDup_nth_eq (l : list Z) (i j : nat) :
  NoDup l -> (i < length l)%nat -> (j < length l)%nat ->
  nth i l 0 = nth j l 0 -> i = j.
Proof. intros H Hi Hj E. apply (proj1 (NoDup_nth l 0) H i j Hi Hj E). Qed.

Lemma pairBefore_irrefl (a : nat * nat) : ~ pairBefore a a.
Proof. unfold pairBefore. lia. Qed.

Lemma agreesUpTo_le (c c' : nat) (sh : list (option Shaft)) (tl : list (Z * Z)) :
  (c' <= c)%nat -> agreesUpTo c sh tl -> agreesUpTo c' sh tl.
Proof. intros Hle H k Hk. apply H. lia. Qed.

Lemma agreesUpTo_ext (c : nat) (sh sh' : list (option Shaft)) (tl : list (Z * Z)) :
  (forall k, (k < c)%nat -> array_get k sh' = array_get k sh) ->
  agreesUpTo c sh tl -> agreesUpTo c sh' tl.
Proof.
  intros E H k Hk. destruct (H k Hk) as (s & Hs & Ht).
  exists s. rewrite E by exact Hk. auto.
Qed.

Lemma behind_ext (first : list Z) (idx N G : nat) (sh sh' : list (option Shaft))
    (tl : list (Z * Z)) (st : list PermutationStackFrame) :
  forall top,
  stackOk N G st ->
  (forall k, (k < length st)%nat -> array_get k sh' = array_get k sh) ->
  behind first idx sh top st tl -> behind first idx sh' top st tl.
Proof.
  induction st as [|f rest IH]; intros top Hok E H; [exact H|].
  cbn [stackOk] in Hok. destruct Hok as (Hc & _ & _ & Hrest).
  cbn [behind] in *. destruct H as [[Ha Hp] | H].
  - left. split; [|exact Hp].
    apply (agreesUpTo_ext _ sh); [|exact Ha].
    intros k Hk. apply E. cbn [length]. lia.
  - right. apply IH; [exact Hrest | | exact H].
    intros k Hk. apply E. cbn [length]. lia.
Qed.

Lemma passedAt_top (f : PermutationStackFrame) (tp : Z * Z) :
  passedAt false f tp -> passedAt true f tp.
Proof.
  intros (i & o & Hi & Ho & Hb & ->). exists i, o. repeat split; auto.
  unfold pairBefore, exploredTo in *. cbn [fst snd] in *. lia.
Qed.

Lemma behind_top (first : list Z) (idx : nat) (sh : list (option Shaft))
    (tl : list (Z * Z)) (st : list PermutationStackFrame) :
  behind first idx sh false st tl -> behind first idx sh true st tl.
Proof.
  destruct st as [|f rest]; cbn [behind].
  - intros (j & Hj & Hl & Ht). exists j. repeat split; auto. lia.
  - intros [[Ha (tp & Ht & Hp)] | H]; [left | right; exact H].
    split; [exact Ha|]. exists tp. split; [exact Ht | apply passedAt_top; exact Hp].
Qed.

Lemma cursorsOk_top (first : list Z) (idx N : nat) (sh : list (option Shaft))
    (st : list PermutationStackFrame) :
  cursorsOk first idx N sh false st -> cursorsOk first idx N sh true st.
Proof.
  destruct st as [|f rest]; cbn [cursorsOk]; [auto|].
  intros (H1 & H2 & H3 & _ & H5). auto.
Qed.

Lemma cursorsOk_ext (first : list Z) (idx N G : nat) (sh sh' : list (option Shaft))
    (st : list PermutationStackFrame) :
  stackOk N G st ->
  (forall k, (k <= length st)%nat -> array_get k sh' = array_get k sh) ->
  cursorsOk first idx N sh false st -> cursorsOk first idx N sh' false st.
Proof.
  induction st as [|f rest IH]; intros Hok E H.
  - cbn [cursorsOk] in *. destruct H as (Hidx & s & Hs & Ht).
    split; [exact Hidx|]. exists s. rewrite E by (cbn; lia). auto.
  - cbn [stackOk] in Hok. destruct Hok as (Hc & _ & _ & Hrest).
    cbn [cursorsOk] in *.
    destruct H as (H1 & H2 & H3 & (Hi & Ho & s & Hs & Ht) & H5).
    repeat split; auto; try lia.
    + exists s. rewrite E by (cbn [length]; lia). auto.
    + apply IH; [exact Hrest | | exact H5].
      intros k Hk. apply E. cbn [length]. lia.
Qed.

(** What the shafts array holds now is behind the search once the top
    frame is gone. *)
Lemma current_behind_after_pop (first : list Z) (idx N G : nat)
    (sh : list (option Shaft)) (tl : list (Z * Z)) (rest : list PermutationStackFrame) :
  stackOk N G rest ->
  cursorsOk first idx N sh false rest ->
  agreesUpTo (S (length rest)) sh tl ->
  behind first idx sh true rest tl.
Proof.
  intros Hok Hcur Ha. destruct rest as [|g rest'].
  - cbn [cursorsOk behind length] in *. destruct Hcur as (Hidx & s & Hs & Ht).
    destruct (Ha 0%nat ltac:(lia)) as (s' & Hs' & Ht').
    assert (s' = s) by congruence. subst s'.
    exists (idx - 1)%nat. rewrite Ht', Ht.
    split; [|split]; [lia | lia | reflexivity].
  - cbn [stackOk] in Hok. destruct Hok as (Hc & _ & _ & _).
    cbn [cursorsOk behind length] in *.
    destruct Hcur as (_ & _ & _ & (Hi & Ho & s & Hs & Ht) & _).
    left. split; [apply (agreesUpTo_le (S (S (length rest')))); [lia | exact Ha]|].
    destruct (Ha (currentShaft g) ltac:(lia)) as (s' & Hs' & Ht').
    assert (s' = s) by congruence. subst s'.
    exists (shaftTeeth s). split; [exact Ht'|].
    exists (inputIndex g), (outputIndex g - 1)%nat.
    repeat split; auto; try lia.
    unfold pairBefore, exploredTo. cbn [fst snd]. lia.
Qed.

(** A train behind the frames below the top differs from everything that
    can still be built on what the shafts array holds. *)
Lemma behind_differs (first : list Z) (idx N G : nat)
    (sh : list (option Shaft)) (tl tl' : list (Z * Z)) (rest : list PermutationStackFrame) :
  NoDup first ->
  stackOk N G rest ->
  cursorsOk first idx N sh false rest ->
  behind first idx sh false rest tl ->
  agreesUpTo (S (length rest)) sh tl' ->
  tl <> tl'.
Proof.
  intros Hnd. induction rest as [|g rest' IH]; intros Hok Hcur Hb Ha E; subst tl'.
  - cbn [cursorsOk behind length] in *. destruct Hcur as (Hidx & s & Hs & Ht).
    destruct Hb as (j & Hj & Hl & Hjt).
    destruct (Ha 0%nat ltac:(lia)) as (s' & Hs' & Ht').
    assert (s' = s) by congruence. subst s'.
    rewrite Ht', Ht in Hjt. injection Hjt as Hjt.
    apply (NoDup_nth_eq first) in Hjt; [lia | exact Hnd | lia | lia].
  - cbn [stackOk] in Hok. destruct Hok as (Hc & _ & _ & Hrest).
    cbn [cursorsOk behind length] in *.
    destruct Hcur as (Hndg & _ & _ & (Hi & Ho & s & Hs & Ht) & Hcur').
    destruct Hb as [[_ (tp & Htp & (i & o & Hi' & Ho' & Hbefore & ->))] | Hb].
    + destruct (Ha (currentShaft g) ltac:(lia)) as (s' & Hs' & Ht').
      assert (s' = s) by congruence. subst s'.
      rewrite Ht', Ht in Htp. injection Htp as E1 E2.
      apply (NoDup_nth_eq _ _ _ Hndg) in E1; [|lia|lia].
      apply (NoDup_nth_eq _ _ _ Hndg) in E2; [|lia|lia].
      unfold pairBefore, exploredTo in Hbefore. cbn [fst snd] in Hbefore. lia.
    + apply (IH Hrest Hcur' Hb); [|reflexivity].
      apply (agreesUpTo_le (S (S (length rest')))); [lia | exact Ha].
Qed.

Lemma splice1_cons {A : Type} (i : nat) (x : A) (l : list A) :
  splice1 (S i) (x :: l) = x :: splice1 i l.
Proof. reflexivity. Qed.

Lemma splice1_incl {A : Type} (i : nat) (l : list A) : incl (splice1 i l) l.
Proof.
  revert i. induction l as [|y l IH]; intros i x Hx.
  - unfold splice1 in Hx. rewrite firstn_nil, skipn_nil in Hx. destruct Hx.
  - destruct i as [|i]; [right; exact Hx|].
    rewrite splice1_cons in Hx. destruct Hx as [<- | Hx]; [left; reflexivity|].
    right. apply (IH i x Hx).
Qed.

Lemma splice1_NoDup {A : Type} (i : nat) (l : list A) :
  NoDup l -> NoDup (splice1 i l).
Proof.
  intro H. revert i. induction H as [|x l Hx Hl IH]; intro i.
  - unfold splice1. rewrite firstn_nil, skipn_nil. constructor.
  - destruct i as [|i]; [exact Hl|].
    rewrite splice1_cons. constructor; [|apply IH].
    intro Hin. apply Hx. apply (splice1_incl i l x Hin).
Qed.

Lemma splice1_Forall {A : Type} (P : A -> Prop) (i : nat) (l : list A) :
  Forall P l -> Forall P (splice1 i l).
Proof.
  intro H. rewrite Forall_forall in *. intros x Hx. apply H.
  apply (splice1_incl i l x Hx).
Qed.

Lemma remainingAfter_distinct (avail : list Z) (i o : nat) :
  NoDup avail -> Forall (fun x => 0 < x) avail ->
  NoDup (remainingAfter avail i o)
  /\ Forall (fun x => 0 < x) (remainingAfter avail i o).
Proof.
  intros Hnd Hpos. unfold remainingAfter.
  destruct (i =? o)%nat; [|destruct (o <? i)%nat];
    (split; [repeat apply splice1_NoDup | repeat apply splice1_Forall]); assumption.
Qed.

Lemma seedAvail_distinct (p : GearTrainPermutations) :
  NoDup (changeGearSet p) -> Forall (fun x => 0 < x) (changeGearSet p) ->
  NoDup (seedAvail p) /\ Forall (fun x => 0 < x) (seedAvail p).
Proof.
  intros Hnd Hpos. unfold seedAvail.
  destruct (sharedInputGearSet p); [|auto].
  destruct (indexOf _ _); [|auto].
  split; [apply splice1_NoDup | apply splice1_Forall]; assumption.
Qed.

Lemma NoDup_adjacent (l : list Z) : NoDup l -> equalsAdjacent l.
Proof.
  intros H i j k Hik Hkj Hj E.
  apply (NoDup_nth_eq l i j H) in E; [|lia|exact Hj].
  f_equal. lia.
Qed.

Lemma pairBefore_nextCursor (g i o fi fo : nat) :
  (i < g)%nat -> (o < g)%nat ->
  pairBefore (i, o) (fi, fo) -> pairBefore (i, o) (nextCursor g fi fo).
Proof.
  unfold pairBefore, nextCursor. cbn [fst snd].
  destruct (Nat.leb_spec g fo); cbn [fst snd]; lia.
Qed.

Lemma Forall_weaken {A : Type} (P R : A -> Prop) (l : list A) :
  Forall P l -> (forall a, P a -> R a) -> Forall R l.
Proof. intros H HPR. apply (Forall_impl R HPR H). Qed.

Lemma iterateShafts_distinct (p p' : GearTrainPermutations) (b : bool) :
  distinctInv p -> permutationStack p <> [] ->
  iterateShafts p = Some (b, p') -> distinctInv p'.
Proof.
  intros (Heng & Hf & Hg & Hpos & Hcur & Hnd & Hold) Hne H.
  split; [apply (iterateShafts_preserves p p' b Heng Hne H)|].
  destruct Heng as (Hlen & HN & Hst & _).
  destruct (permutationStack p) as [|f rest] eqn:Estack; [congruence|].
  cbn [stackOk] in Hst. destruct Hst as (Hc & HcN & HG & Hrest).
  cbn [cursorsOk] in Hcur. destruct Hcur as (Hndf & Hposf & Hfin0 & _ & Hcur).
  destruct (Z.eq_dec (Z.of_nat (currentShaft f)) (Z.of_nat (length (this_shafts p)) - 1))
    as [Hfin | Hnf].
  - rewrite (iterateShafts_final p f rest Estack Hfin) in H.
    destruct (for_loop_throw_nat _ _ _ _) as [p1|] eqn:Eloop; cbn [obind] in H;
      [|discriminate].
    injection H as _ <-.
    apply finalShaftLoop_index in Eloop; [|simpl_fields; lia].
    destruct Eloop
      as (sh' & g & f1 & s1 & d1 & -> & Hlen' & Hpre & js & new & -> & Hreg & Hsort & Hrange).
    assert (Hreg' : Forall2 (registeredAt p (availableGears f) (currentShaft f)) js new).
    { clear - Hreg. induction Hreg; constructor; auto. }
    clear Hreg. simpl_fields.
    destruct Hfin0 as [Hi0 Ho0]; [lia|].
    assert (Hcl : (currentShaft f < length (this_shafts p))%nat) by lia.
    assert (Hrange' : Forall (fun j => (j < length (availableGears f))%nat) js).
    { apply (Forall_impl _ (fun j (Hj : (0 <= j < 0 + length (availableGears f))%nat) =>
               proj2 Hj) Hrange). }
    assert (Hext : forall k, (k < S (length rest))%nat ->
                             array_get k sh' = array_get k (this_shafts p)).
    { intros k Hk. apply (array_get_same_prefix k (currentShaft f)); [exact Hpre | lia]. }
    assert (Hold' : Forall (fun t => behind (firstGearSet p) (inputGearIndex p)
                                       (this_shafts p) false rest (teeth t))
                      (gearTrains p)).
    { apply (Forall_weaken _ _ _ Hold).
      intros t [[_ (tp & _ & (i & o & _ & _ & Hb & _))] | Hb]; [|exact Hb].
      unfold pairBefore, exploredTo in Hb. cbn [fst snd] in Hb. lia. }
    assert (Hnew : Forall (fun t => agreesUpTo (S (length rest)) (this_shafts p) (teeth t))
                     new).
    { clear - Hreg' Hcl Hc. induction Hreg' as [|j t js new Hjt Hreg IH];
        constructor; [|exact IH].
      rewrite <- Hc. apply (registered_agrees p _ _ j t Hcl Hjt). }
    unfold distinctInv, firstGearSet in *. simpl_fields.
    repeat split; auto.
    + apply cursorsOk_top.
      apply (cursorsOk_ext _ _ _ _ (this_shafts p) sh' rest Hrest); [|exact Hcur].
      intros k Hk. apply Hext. lia.
    + rewrite map_app. apply NoDup_app; [exact Hnd | |].
      * apply (registered_NoDup p (availableGears f) (currentShaft f) js);
          try assumption.
        apply NoDup_adjacent. exact Hndf.
      * intros tl Hin1 Hin2.
        apply in_map_iff in Hin1. destruct Hin1 as (t1 & <- & Hin1).
        apply in_map_iff in Hin2. destruct Hin2 as (t2 & E & Hin2).
        rewrite Forall_forall in Hold', Hnew.
        apply (behind_differs _ _ _ _ _ (teeth t1) (teeth t2) rest Hf Hrest Hcur
                 (Hold' t1 Hin1) (Hnew t2 Hin2)).
        symmetry. exact E.
    + apply Forall_app. split.
      * apply (Forall_weaken _ _ _ Hold').
        intros t Hb. apply behind_top.
        apply (behind_ext _ _ _ _ (this_shafts p) sh' _ rest false Hrest); [|exact Hb].
        intros k Hk. apply Hext. lia.
      * apply (Forall_weaken _ _ _ Hnew).
        intros t Ha.
        apply (behind_ext _ _ _ _ (this_shafts p) sh' _ rest true Hrest).
        -- intros k Hk. apply Hext. lia.
        -- apply (current_behind_after_pop _ _ _ _ _ _ rest Hrest Hcur Ha).
  - pose proof (iterateShafts_nonfinal p f rest Estack Hnf) as Eq.
    cbv zeta in Eq. rewrite Eq in H. clear Eq.
    set (g := length (availableGears f)) in *.
    set (i := fst (nextCursor g (inputIndex f) (outputIndex f))) in *.
    set (o := snd (nextCursor g (inputIndex f) (outputIndex f))) in *.
    assert (Hcl : (currentShaft f < length (this_shafts p))%nat) by lia.
    destruct (Nat.leb_spec g i) as [Hex | Hi].
    { (* the frame is exhausted *)
      injection H as _ <-. unfold distinctInv, firstGearSet in *. simpl_fields.
      repeat split; auto.
      - apply cursorsOk_top. exact Hcur.
      - apply (Forall_weaken _ _ _ Hold).
        intros t [[Ha _] | Hb]; [|apply behind_top; exact Hb].
        rewrite Hc in Ha.
        apply (current_behind_after_pop _ _ _ _ _ _ rest Hrest Hcur Ha). }
    assert (Ho : (o < g)%nat) by (apply nextCursor_output_lt; exact Hi).
    set (v := Shaft_new (nth i (availableGears f) 0)
                (chosenOutputGear (availableGears f) i o) (this_spacerSize p)) in *.
    set (sh' := array_set (currentShaft f) v (this_shafts p)) in *.
    assert (Hext : forall k, (k < currentShaft f)%nat ->
                             array_get k sh' = array_get k (this_shafts p)).
    { intros k Hk. unfold sh'. apply array_get_set_other; lia. }
    assert (Hv : array_get (currentShaft f) sh' = Some v)
      by (unfold sh'; apply array_get_set_same; exact Hcl).
    assert (Hvt : shaftTeeth v = (nth i (availableGears f) 0, nth o (availableGears f) 0))
      by (apply shaftTeeth_chosen; assumption).
    assert (Hcur' : cursorsOk (firstGearSet p) (inputGearIndex p) (shaftCount p) sh' false
                      rest).
    { apply (cursorsOk_ext _ _ _ _ (this_shafts p) sh' rest Hrest); [|exact Hcur].
      intros k Hk. apply Hext. lia. }
    assert (Hrest' : forall t,
               behind (firstGearSet p) (inputGearIndex p) (this_shafts p) false rest (teeth t) ->
               behind (firstGearSet p) (inputGearIndex p) sh' false rest (teeth t)).
    { intros t Hb.
      apply (behind_ext _ _ _ _ (this_shafts p) sh' _ rest false Hrest); [|exact Hb].
      intros k Hk. apply Hext. lia. }
    assert (Hpass : forall top t,
               agreesUpTo (currentShaft f) (this_shafts p) (teeth t)
               /\ (exists tp, nth_error (teeth t) (currentShaft f) = Some tp
                              /\ passedAt true f tp) ->
               agreesUpTo (currentShaft f) sh' (teeth t)
               /\ (exists tp, nth_error (teeth t) (currentShaft f) = Some tp
                              /\ passedAt top (mkFrame (availableGears f) (currentShaft f)
                                                 i (o + 1)) tp)).
    { intros top t [Ha (tp & Htp & (i0 & o0 & Hi0 & Ho0 & Hb & ->))].
      split; [apply (agreesUpTo_ext _ (this_shafts p)); [exact Hext | exact Ha]|].
      exists (nth i0 (availableGears f) 0, nth o0 (availableGears f) 0).
      split; [exact Htp|]. exists i0, o0. cbn [availableGears].
      repeat split; auto.
      apply (pairBefore_nextCursor g) in Hb; [|exact Hi0|exact Ho0].
      fold g in Hb.
      unfold pairBefore, exploredTo in *. cbn [fst snd inputIndex outputIndex] in *.
      fold i o in Hb. destruct top; lia. }
    assert (Hback : cursorsOk (firstGearSet p) (inputGearIndex p) (shaftCount p) sh' false
                      (mkFrame (availableGears f) (currentShaft f) i (o + 1) :: rest)).
    { cbn [cursorsOk availableGears currentShaft inputIndex outputIndex].
      fold g. repeat split; auto; try lia.
      exists v. split; [exact Hv|]. rewrite Hvt.
      replace (o + 1 - 1)%nat with o by lia. reflexivity. }
    destruct (skipsDuplicate (availableGears f) i o).
    + destruct (calculatePermutationCount _ _); cbn [obind] in H; [|discriminate].
      injection H as _ <-. unfold distinctInv, firstGearSet in *. simpl_fields.
      refine (conj Hf (conj Hg (conj Hpos (conj _ (conj Hnd _))))).
      * apply cursorsOk_top in Hback. exact Hback.
      * apply (Forall_weaken _ _ _ Hold).
        intros t [Ha | Hb]; cbn [behind currentShaft].
        -- left. apply (Hpass true t Ha).
        -- right. apply Hrest'. exact Hb.
    + injection H as _ <-. unfold distinctInv, firstGearSet in *. simpl_fields.
      destruct (remainingAfter_distinct (availableGears f) i o Hndf Hposf) as [Hr1 Hr2].
      refine (conj Hf (conj Hg (conj Hpos (conj _ (conj Hnd _))))).
      * change (NoDup (remainingAfter (availableGears f) i o)
                /\ Forall (fun x => 0 < x) (remainingAfter (availableGears f) i o)
                /\ (S (currentShaft f + 1) = shaftCount p -> O = O /\ O = O)
                /\ True
                /\ cursorsOk
                     (if sharedInputGearSet p then changeGearSet p else inputGearSet p)
                     (inputGearIndex p) (shaftCount p) sh' false
                     (mkFrame (availableGears f) (currentShaft f) i (o + 1) :: rest)).
        auto.
      * apply (Forall_weaken _ _ _ Hold).
        intros t [Ha | Hb]; cbn [behind currentShaft].
        -- right. left. apply (Hpass false t Ha).
        -- right. right. apply Hrest'. exact Hb.
Qed.

Lemma afterSeed_distinct (p : GearTrainPermutations) :
  distinctInv p -> permutationStack p = [] ->
  (inputGearIndex p < length (firstGearSet p))%nat ->
  distinctInv (afterSeed p).
Proof.
  intros (Heng & Hf & Hg & Hpos & Hcur & Hnd & Hold) Hempty Hidx.
  split; [apply afterSeed_preserves; assumption|].
  destruct Heng as (Hlen & HN & _).
  destruct (seedAvail_distinct p Hg Hpos) as [Hs1 Hs2].
  rewrite afterSeed_fields. rewrite Hempty in *.
  set (v := Shaft_new (nth (inputGearIndex p) (firstGearSet p) 0) 0 (inputAdjacentSize p)).
  set (sh' := array_set 0 v (this_shafts p)).
  assert (Hv : array_get 0 sh' = Some v)
    by (unfold sh'; apply array_get_set_same; lia).
  change (NoDup (firstGearSet p)
          /\ NoDup (changeGearSet p)
          /\ Forall (fun x => 0 < x) (changeGearSet p)
          /\ cursorsOk (firstGearSet p) (inputGearIndex p + 1) (shaftCount p) sh' true
               [mkFrame (seedAvail p) 1 0 0]
          /\ NoDup (map teeth (gearTrains p))
          /\ Forall (fun t => behind (firstGearSet p) (inputGearIndex p + 1) sh' true
                                [mkFrame (seedAvail p) 1 0 0] (teeth t))
               (gearTrains p)).
  refine (conj Hf (conj Hg (conj Hpos (conj _ (conj Hnd _))))).
  - cbn [cursorsOk availableGears currentShaft inputIndex outputIndex].
    split; [exact Hs1|]. split; [exact Hs2|]. split; [auto|]. split; [exact I|].
    split; [lia|]. exists v. split; [exact Hv|].
    replace (inputGearIndex p + 1 - 1)%nat with (inputGearIndex p) by lia.
    reflexivity.
  - apply (Forall_weaken _ _ _ Hold).
    intros t (j & Hj & Hl & Ht). cbn [behind]. right.
    exists j. split; [lia|]. split; [exact Hl | exact Ht].
Qed.

Lemma iterate_distinct (p p' : GearTrainPermutations) (b : bool) :
  distinctInv p -> iterate p = Some (b, p') -> distinctInv p'.
Proof.
  intros Hinv H. rewrite iterate_unfold in H.
  destruct (_ && _) eqn:Edone.
  - injection H as _ <-. exact Hinv.
  - destruct (0 <? length (permutationStack p))%nat eqn:Est.
    + apply Nat.ltb_lt in Est.
      apply (iterateShafts_distinct p p' b Hinv); [|exact H].
      destruct (permutationStack p); [cbn in Est; lia | discriminate].
    + apply Nat.ltb_ge in Est.
      destruct (inputGearIndex p <? length (firstGearSet p))%nat eqn:Eidx.
      * apply Nat.ltb_lt in Eidx.
        assert (Hempty : permutationStack p = [])
          by (destruct (permutationStack p); [reflexivity | cbn in Est; lia]).
        apply (iterateShafts_distinct (afterSeed p) p' b).
        -- apply afterSeed_distinct; assumption.
        -- rewrite afterSeed_fields. simpl_fields. discriminate.
        -- exact H.
      * injection H as _ <-. exact Hinv.
Qed.

Lemma iterate_calls_distinct (n : nat) :
  forall (p p' : GearTrainPermutations) (flags : list bool),
  distinctInv p -> iterate_calls n p = Some (flags, p') -> distinctInv p'.
Proof.
  induction n as [|n IH]; intros p p' flags Hinv H.
  - injection H as _ <-. exact Hinv.
  - cbn [iterate_calls] in H.
    destruct (iterate p) as [[b1 p1]|] eqn:E; cbn [obind fst snd] in H;
      [|discriminate].
    destruct (iterate_calls n p1) as [[fl p2]|] eqn:E2; cbn [obind fst snd] in H;
      [|discriminate].
    injection H as _ <-.
    apply (IH p1 p2 fl (iterate_distinct p p1 b1 Hinv E) E2).
Qed.

Lemma setupCalculation_distinct (p s : GearTrainPermutations) :
  (2 <= shaftCount p)%nat -> gearTrains p = [] ->
  NoDup (changeGearSet p) -> Forall (fun x => 0 < x) (changeGearSet p) ->
  (sharedInputGearSet p = false -> NoDup (inputGearSet p)) ->
  setupCalculation p = Some s -> distinctInv s.
Proof.
  intros HN Htr Hg Hpos Hin Hs.
  destruct (setupCalculation_establishes p HN Htr)
    as (s' & Hs' & Hinv & _ & Hfound & _ & _ & Hstack & _).
  assert (s' = s) by congruence. subst s'.
  destruct (setupCalculation_shape p s HN Htr Hs) as [_ (_ & HG & HI & HS & _)].
  assert (Hnone : gearTrains s = []).
  { destruct Hinv as (_ & _ & _ & _ & Hcount & _).
    destruct (gearTrains s); [reflexivity | cbn [length] in Hcount; lia]. }
  unfold distinctInv, firstGearSet. rewrite HG, HI, HS, Hstack, Hnone.
  split; [exact Hinv|]. split.
  { destruct (sharedInputGearSet p); auto. }
  cbn [cursorsOk map]. repeat split; auto; constructor.
Qed.

(** X20.  Without repeated tooth counts there are no repeated trains.
    When the change gears are positive and pairwise different (and so
    are the input gears, where they have a set of their own), the
    results hold no two trains that are equal gear for gear, at any
    point of a run. *)
Theorem distinct_gears_give_distinct_trains (p s p' : GearTrainPermutations)
    (n : nat) (flags : list bool) :
  (2 <= shaftCount p)%nat -> gearTrains p = [] ->
  NoDup (changeGearSet p) -> Forall (fun x => 0 < x) (changeGearSet p) ->
  (sharedInputGearSet p = false -> NoDup (inputGearSet p)) ->
  setupCalculation p = Some s ->
  iterate_calls n s = Some (flags, p') ->
  NoDup (map teeth (gearTrains p')).
Proof.
  intros HN Htr Hg Hpos Hin Hs Hrun.
  pose proof (setupCalculation_distinct p s HN Htr Hg Hpos Hin Hs) as Hinv.
  apply (iterate_calls_distinct n s p' flags Hinv) in Hrun.
  destruct Hrun as (_ & _ & _ & _ & _ & Hnd & _). exact Hnd.
Qed.

Lemma distinct_gears_give_distinct_trains_witness :
  NoDup (map teeth (gearTrains demoDistinctDone)).
Proof.
  apply (distinct_gears_give_distinct_trains demoDistinct demoDistinctReady
           demoDistinctDone 40 demoDistinctFlags).
  - vm_compute. lia.
  - reflexivity.
  - change (NoDup [20; 30; 40]). repeat constructor; cbn; lia.
  - change (Forall (fun x => 0 < x) [20; 30; 40]). repeat constructor.
  - discriminate.
  - vm_compute. reflexivity.
  - vm_compute. reflexivity.
Defined.

(** ** A run as a whole *)

Lemma iterate_calls_total (n : nat) :
  forall p : GearTrainPermutations,
  engineInv p -> exists flags p', iterate_calls n p = Some (flags, p').
Proof.
  induction n as [|n IH]; intros p Hinv; [cbn; eauto|].
  cbn [iterate_calls].
  destruct (iterate_total p Hinv) as (b & p1 & E). rewrite E. cbn [obind fst snd].
  destruct (IH p1 (iterate_preserves p p1 b Hinv E)) as (fl & p2 & E2).
  rewrite E2. cbn [obind fst snd]. eauto.
Qed.

(** X21.  No call throws.  In a run started by [setupCalculation] (at
    least two shafts, no earlier results) every call of [iterate]
    returns, however many are made: the reads of [shafts[currentShaft -
    1]] and of the shafts the distance is computed from never meet an
    empty cell. *)
Theorem every_call_returns (p s : GearTrainPermutations) (n : nat) :
  (2 <= shaftCount p)%nat -> gearTrains p = [] ->
  setupCalculation p = Some s ->
  exists flags p', iterate_calls n s = Some (flags, p').
Proof.
  intros HN Htr Hs.
  destruct (setupCalculation_establishes p HN Htr) as (s' & Hs' & Hinv & _).
  assert (s' = s) by congruence. subst s'.
  apply (iterate_calls_total n s Hinv).
Qed.

Lemma every_call_returns_witness :
  exists flags p', iterate_calls 25 demoReady = Some (flags, p').
Proof.
  apply (every_call_returns demoEngine demoReady 25).
  - vm_compute. lia.
  - reflexivity.
  - vm_compute. reflexivity.
Defined.

(** X22.  A bound on the length of a run.  With [G] change gears, [F]
    gears in the first gear set and [N >= 2] shafts, the call of
    [iterate] that reports completion is among the first
    [F * (1 + stepBound G (N - 2)) + 1], where [stepBound G 0 = 1] and
    [stepBound G (k + 1) = 1 + G * G * (1 + stepBound G k)]. *)
Theorem completion_within_bound (p s : GearTrainPermutations) (n : nat) :
  (2 <= shaftCount p)%nat -> gearTrains p = [] ->
  setupCalculation p = Some s ->
  (length (firstGearSet p)
   * (1 + stepBound (length (changeGearSet p)) (shaftCount p - 2)) < n)%nat ->
  exists final, iterate_until n s = Some (true, final).
Proof.
  intros HN Htr Hs Hn.
  destruct (setupCalculation_establishes p HN Htr)
    as (s' & Hs' & Hinv & _ & _ & _ & _ & Hstack & Hidx).
  assert (s' = s) by congruence. subst s'.
  destruct (setupCalculation_shape p s HN Htr Hs) as [_ (HN' & HG & HI & HS & _)].
  apply (iterate_until_terminates n s Hinv).
  unfold enginePotential, seedsLeft, firstGearSet in *.
  rewrite Hstack, Hidx, HN', HG, HI, HS. cbn [stackPotential]. lia.
Qed.

Lemma completion_within_bound_witness :
  exists final, iterate_until 10 demoReady = Some (true, final).
Proof.
  apply (completion_within_bound demoEngine demoReady 10).
  - vm_compute. lia.
  - reflexivity.
  - vm_compute. reflexivity.
  - vm_compute. lia.
Defined.

(** X23.  The found counter is the number of results, not only at
    completion: at every point of a run started by [setupCalculation]
    (at least two shafts, no earlier results) [foundSolutions] equals the
    length of [gearTrains]. *)
Theorem found_counts_results (p s p' : GearTrainPermutations) (n : nat)
    (flags : list bool) :
  (2 <= shaftCount p)%nat -> gearTrains p = [] ->
  setupCalculation p = Some s ->
  iterate_calls n s = Some (flags, p') ->
  foundSolutions p' = Z.of_nat (length (gearTrains p')).
Proof.
  intros HN Htr Hs Hrun.
  destruct (setupCalculation_establishes p HN Htr) as (s' & Hs' & Hinv & _).
  assert (s' = s) by congruence. subst s'.
  destruct (iterate_calls_run n s p' flags Hinv Hrun)
    as ((_ & _ & _ & _ & Hcount & _) & _).
  symmetry. exact Hcount.
Qed.

Lemma found_counts_results_witness :
  foundSolutions demoAfter3 = Z.of_nat (length (gearTrains demoAfter3)).
Proof.
  apply (found_counts_results demoEngine demoReady demoAfter3 3 [false; false; false]).
  - vm_compute. lia.
  - reflexivity.
  - vm_compute. reflexivity.
  - vm_compute. reflexivity.
Defined.
